(** * rename: batch renaming of files by regular-expression substitution

    A shallow embedding of [src/main.cpp] (C++23) and the properties of its
    one pipeline: compile the pattern, resolve the base path, enumerate the
    regular files, sort them, and for each one substitute, report and rename.

    Layout:
    - [Path]   : the operations of [std::filesystem::path] the program uses
                 (POSIX generic format), and the ordering [std::ranges::sort]
                 sorts by;
    - [Regex]  : the interface of [std::regex] the program relies on, with
                 [match_results::format], [regex_iterator] and
                 [regex_replace] written over it;
    - [Ecma]   : a concrete engine for a fragment of the ECMAScript grammar,
                 an instance of that interface;
    - [Fs]     : the interface of the filesystem calls, [MemFs] an in-memory
                 instance;
    - the program itself ([arguments], [rename], [main]) and its theorems. *)

From Stdlib Require Import List Ascii String Arith Lia NArith ZArith Bool.
From Stdlib Require Import Sorting.Sorted Sorting.Permutation.
Import ListNotations.
Open Scope string_scope.
Open Scope list_scope.

(** [std::string]: a sequence of [char].  String literals are read as such
    sequences through the coercion below. *)
Definition str := list ascii.
Coercion list_ascii_of_string : string >-> list.

Definition str_eqb (a b : str) : bool :=
  if list_eq_dec ascii_dec a b then true else false.

Lemma str_eqb_eq (a b : str) : str_eqb a b = true <-> a = b.
Proof. unfold str_eqb; destruct (list_eq_dec ascii_dec a b); split; congruence. Qed.

Lemma str_eqb_neq (a b : str) : str_eqb a b = false <-> a <> b.
Proof. unfold str_eqb; destruct (list_eq_dec ascii_dec a b); split; congruence. Qed.

Lemma str_eqb_refl (a : str) : str_eqb a a = true.
Proof. now apply str_eqb_eq. Qed.

(** Exceptions of the standard library are values carrying their [what()]
    text; a call that may throw returns a sum. *)
Inductive regex_error := RegexError (what : str).
Inductive filesystem_error := FilesystemError (what : str).

Definition regex_what (e : regex_error) : str := let 'RegexError w := e in w.
Definition fs_what (e : filesystem_error) : str := let 'FilesystemError w := e in w.

(** ** Three-way comparisons *)

Section Comparison.
Context {A : Type} (cmp : A -> A -> comparison).

(** What a three-way comparison of a strict weak order satisfies. *)
Record comparison_laws : Prop := {
  cmp_refl : forall a, cmp a a = Eq;
  cmp_opp : forall a b, cmp b a = CompOpp (cmp a b);
  cmp_lt_trans : forall a b c, cmp a b = Lt -> cmp b c = Lt -> cmp a c = Lt;
  cmp_eq_compat : forall a b c, cmp a b = Eq -> cmp a c = cmp b c
}.

(** [std::lexicographical_compare_three_way]. *)
Fixpoint lex_compare (l1 l2 : list A) : comparison :=
  match l1, l2 with
  | [], [] => Eq
  | [], _ :: _ => Lt
  | _ :: _, [] => Gt
  | a :: l1', b :: l2' =>
      match cmp a b with
      | Eq => lex_compare l1' l2'
      | c => c
      end
  end.

Hypothesis laws : comparison_laws.

Lemma cmp_eq_compat_r a b c : cmp b c = Eq -> cmp a b = cmp a c.
Proof.
  intros H.
  assert (Hcb : cmp c b = Eq) by (rewrite (cmp_opp laws b c), H; reflexivity).
  rewrite (cmp_opp laws b a), (cmp_opp laws c a).
  now rewrite (cmp_eq_compat laws c b a Hcb).
Qed.

Lemma lex_compare_refl l : lex_compare l l = Eq.
Proof. induction l as [|a l IH]; simpl; [reflexivity|]. now rewrite (cmp_refl laws). Qed.

Lemma lex_compare_opp l1 l2 : lex_compare l2 l1 = CompOpp (lex_compare l1 l2).
Proof.
  revert l2; induction l1 as [|a l1 IH]; intros [|b l2]; simpl; try reflexivity.
  rewrite (cmp_opp laws a b). destruct (cmp a b); simpl; auto.
Qed.

Lemma lex_compare_eq_compat l1 l2 l3 :
  lex_compare l1 l2 = Eq -> lex_compare l1 l3 = lex_compare l2 l3.
Proof.
  revert l2 l3; induction l1 as [|a l1 IH]; intros [|b l2] l3; simpl;
    intros H; try discriminate H; try reflexivity.
  destruct (cmp a b) eqn:Hab; try discriminate H.
  destruct l3 as [|c l3]; [reflexivity|].
  rewrite (cmp_eq_compat laws a b c Hab).
  destruct (cmp b c); auto.
Qed.

Lemma lex_compare_lt_trans l1 l2 l3 :
  lex_compare l1 l2 = Lt -> lex_compare l2 l3 = Lt -> lex_compare l1 l3 = Lt.
Proof.
  revert l2 l3; induction l1 as [|a l1 IH]; intros [|b l2] [|c l3]; simpl;
    intros H12 H23; try discriminate H12; try discriminate H23; try reflexivity.
  destruct (cmp a b) eqn:Hab; try discriminate H12.
  - rewrite (cmp_eq_compat laws a b c Hab).
    destruct (cmp b c); try discriminate H23; eauto.
  - destruct (cmp b c) eqn:Hbc; try discriminate H23.
    + now rewrite <- (cmp_eq_compat_r a b c Hbc), Hab.
    + now rewrite (cmp_lt_trans laws a b c Hab Hbc).
Qed.

End Comparison.

Lemma lex_laws {A} (cmp : A -> A -> comparison) :
  comparison_laws cmp -> comparison_laws (lex_compare cmp).
Proof.
  intros L; constructor.
  - apply lex_compare_refl, L.
  - intros; apply lex_compare_opp, L.
  - intros a b c; apply lex_compare_lt_trans, L.
  - intros a b c; apply lex_compare_eq_compat, L.
Qed.

Lemma lex_compare_eq {A} (cmp : A -> A -> comparison) :
  (forall a b, cmp a b = Eq -> a = b) ->
  forall l1 l2, lex_compare cmp l1 l2 = Eq -> l1 = l2.
Proof.
  intros Heq; induction l1 as [|a l1 IH]; intros [|b l2]; simpl; try discriminate; auto.
  destruct (cmp a b) eqn:Hab; try discriminate.
  intros H. f_equal; auto.
Qed.

Lemma ascii_compare_laws : comparison_laws Ascii.compare.
Proof.
  constructor; unfold Ascii.compare.
  - intros; apply N.compare_refl.
  - intros; apply N.compare_antisym.
  - intros a b c; rewrite !N.compare_lt_iff; apply N.lt_trans.
  - intros a b c H. apply N.compare_eq in H. now rewrite H.
Qed.

(** [std::string::compare]: bytes compared as unsigned values
    ([std::char_traits<char>::lt]). *)
Definition string_compare : str -> str -> comparison := lex_compare Ascii.compare.

Lemma string_compare_laws : comparison_laws string_compare.
Proof. apply lex_laws, ascii_compare_laws. Qed.

Lemma string_compare_eq a b : string_compare a b = Eq -> a = b.
Proof. apply lex_compare_eq. exact Ascii.compare_eq_iff. Qed.

(** ** Sorting with a three-way comparison

    [std::ranges::sort] leaves its algorithm open; what it promises is a
    sorted permutation.  Insertion sort is the model; [sorted_unique] below
    is why the choice does not matter. *)

Section Sort.
Context {A : Type} (cmp : A -> A -> comparison).

Definition cmp_ltb (a b : A) : bool :=
  match cmp a b with Lt => true | _ => false end.

Definition cmp_le (a b : A) : Prop := cmp a b <> Gt.

Fixpoint insert (x : A) (l : list A) : list A :=
  match l with
  | [] => [x]
  | y :: l' => if cmp_ltb x y then x :: l else y :: insert x l'
  end.

Fixpoint sort (l : list A) : list A :=
  match l with
  | [] => []
  | x :: l' => insert x (sort l')
  end.

Lemma insert_perm x l : Permutation (x :: l) (insert x l).
Proof.
  induction l as [|y l IH]; simpl; [reflexivity|].
  destruct (cmp_ltb x y); [reflexivity|].
  rewrite perm_swap. now constructor.
Qed.

Lemma sort_perm l : Permutation l (sort l).
Proof.
  induction l as [|x l IH]; simpl; [constructor|].
  rewrite <- insert_perm. now constructor.
Qed.

Hypothesis laws : comparison_laws cmp.

Lemma cmp_le_trans a b c : cmp_le a b -> cmp_le b c -> cmp_le a c.
Proof.
  unfold cmp_le; intros Hab Hbc.
  destruct (cmp a b) eqn:E1; try congruence.
  - now rewrite (cmp_eq_compat _ laws a b c E1).
  - destruct (cmp b c) eqn:E2; try congruence.
    + rewrite <- (cmp_eq_compat_r _ laws a b c E2), E1. discriminate.
    + rewrite (cmp_lt_trans _ laws a b c E1 E2). discriminate.
Qed.

Lemma cmp_le_total a b : cmp_le a b \/ cmp_le b a.
Proof.
  unfold cmp_le. rewrite (cmp_opp _ laws a b).
  destruct (cmp a b); simpl; (left; discriminate) || (right; discriminate).
Qed.

Lemma cmp_le_antisym a b : cmp_le a b -> cmp_le b a -> cmp a b = Eq.
Proof.
  unfold cmp_le. rewrite (cmp_opp _ laws a b).
  destruct (cmp a b); simpl; congruence.
Qed.

Lemma insert_sorted x l :
  StronglySorted cmp_le l -> StronglySorted cmp_le (insert x l).
Proof.
  induction 1 as [|y l Hs IH Hall]; simpl.
  - repeat constructor.
  - unfold cmp_ltb. destruct (cmp x y) eqn:E.
    + constructor; [exact IH|].
      apply (Permutation_Forall (insert_perm x l)). constructor; [|exact Hall].
      unfold cmp_le. rewrite (cmp_opp _ laws x y), E. discriminate.
    + assert (Hxy : cmp_le x y) by (unfold cmp_le; rewrite E; discriminate).
      constructor; [now constructor|]. constructor; [exact Hxy|].
      eapply Forall_impl; [|exact Hall]. intros z Hz. eapply cmp_le_trans; eauto.
    + constructor; [exact IH|].
      apply (Permutation_Forall (insert_perm x l)). constructor; [|exact Hall].
      unfold cmp_le. rewrite (cmp_opp _ laws x y), E. discriminate.
Qed.

Lemma sort_sorted l : StronglySorted cmp_le (sort l).
Proof. induction l; simpl; [constructor | now apply insert_sorted]. Qed.

(** Two sorted arrangements of the same elements coincide, provided no two
    distinct elements compare equivalent. *)
Lemma sorted_unique l1 : forall l2,
  StronglySorted cmp_le l1 -> StronglySorted cmp_le l2 ->
  Permutation l1 l2 ->
  (forall a b, In a l1 -> In b l1 -> cmp a b = Eq -> a = b) ->
  l1 = l2.
Proof.
  induction l1 as [|a l1 IH]; intros l2 S1 S2 P Hinj.
  - now apply Permutation_nil in P.
  - destruct l2 as [|b l2]; [now apply Permutation_sym, Permutation_nil in P|].
    inversion S1 as [|? ? S1' F1]; inversion S2 as [|? ? S2' F2]; subst.
    assert (Hb : In b (a :: l1))
      by (eapply Permutation_in; [apply Permutation_sym, P | now left]).
    assert (Ha : In a (b :: l2)) by (eapply Permutation_in; [exact P | now left]).
    assert (Hab : a = b).
    { apply Hinj; [now left | exact Hb |].
      apply cmp_le_antisym.
      - destruct Hb as [->|Hb]; [unfold cmp_le; rewrite (cmp_refl _ laws); discriminate|].
        rewrite Forall_forall in F1; auto.
      - destruct Ha as [->|Ha]; [unfold cmp_le; rewrite (cmp_refl _ laws); discriminate|].
        rewrite Forall_forall in F2; auto. }
    subst b. f_equal. apply IH; auto.
    + eapply Permutation_cons_inv; exact P.
    + intros x y Hx Hy. apply Hinj; now right.
Qed.

Lemma sort_order_independent l1 l2 :
  Permutation l1 l2 ->
  (forall a b, In a l1 -> In b l1 -> cmp a b = Eq -> a = b) ->
  sort l1 = sort l2.
Proof.
  intros P Hinj. apply sorted_unique; try apply sort_sorted.
  - rewrite <- (sort_perm l1), <- (sort_perm l2). exact P.
  - intros a b Ha Hb. apply Hinj; eapply Permutation_in;
      try (apply Permutation_sym, sort_perm); assumption.
Qed.
End Sort.

(** ** [std::filesystem::path], POSIX

    A path is its native string.  Only what [main.cpp] calls is modelled:
    [filename], [replace_filename] (that is [remove_filename] followed by
    [operator/=]), [string], the ordering used by the sort, and
    [std::filesystem::absolute]. *)

Module Path.

Definition t := str.

Definition is_sep (c : ascii) : bool := (c =? "/")%char.

Definition has_sep (p : str) : bool := existsb is_sep p.

(** The path cut after its last directory separator: what
    [remove_filename] keeps, and [filename]. *)
Fixpoint split (p : t) : t * str :=
  match p with
  | [] => ([], [])
  | c :: r =>
      match split r with
      | ([], f) => if is_sep c then ([c], f) else ([], c :: f)
      | (d, f) => (c :: d, f)
      end
  end.

Definition remove_filename (p : t) : t := fst (split p).
Definition filename (p : t) : str := snd (split p).
Definition has_filename (p : t) : bool :=
  match filename p with [] => false | _ => true end.

(** On POSIX a path is absolute when it has a root directory. *)
Definition has_root_directory (p : t) : bool :=
  match p with c :: _ => is_sep c | [] => false end.
Definition is_absolute (p : t) : bool := has_root_directory p.

(** [operator/=]: an absolute right operand replaces the path; otherwise
    a separator is added when the left operand ends in a filename. *)
Definition append (p q : t) : t :=
  if is_absolute q then q
  else if has_filename p then p ++ "/" ++ q
  else p ++ q.

Definition replace_filename (p : t) (replacement : str) : t :=
  append (remove_filename p) replacement.

(** [std::filesystem::absolute]: an empty path is an error; a relative
    one is resolved against [current_path()], and when that fails so does
    [absolute], with the same cause. *)
Definition absolute (current_path : filesystem_error + t) (p : t)
  : filesystem_error + t :=
  match p with
  | [] => inl (FilesystemError "cannot make absolute path: Invalid argument")
  | _ =>
      if is_absolute p then inr p
      else match current_path with
           | inl e => inl e
           | inr cwd => inr (append cwd p)
           end
  end.

(** The elements of the relative part, as iteration over a path yields
    them: filenames between runs of separators, and an empty last element
    when the path ends in a separator. *)
Fixpoint drop_seps (p : str) : str :=
  match p with
  | c :: r => if is_sep c then drop_seps r else p
  | [] => []
  end.

Fixpoint elements_from (cur : str) (in_sep : bool) (p : str) : list str :=
  match p with
  | [] => if in_sep then [[]] else match cur with [] => [] | _ => [rev cur] end
  | c :: r =>
      if is_sep c
      then (if in_sep then elements_from [] true r
            else rev cur :: elements_from [] true r)
      else elements_from (c :: cur) false r
  end.

Definition elements (p : t) : list str := elements_from [] false (drop_seps p).

(** [path::compare]: the root directory first (a path without one is
    smaller), then the elements, lexicographically, each compared as a
    string. *)
Definition compare (p q : t) : comparison :=
  match has_root_directory p, has_root_directory q with
  | false, true => Lt
  | true, false => Gt
  | _, _ => lex_compare string_compare (elements p) (elements q)
  end.

Definition le : t -> t -> Prop := cmp_le compare.

Lemma compare_laws : comparison_laws compare.
Proof.
  pose proof (lex_laws _ string_compare_laws) as L.
  constructor; unfold compare.
  - intros a. destruct (has_root_directory a); apply (cmp_refl _ L).
  - intros a b. destruct (has_root_directory a), (has_root_directory b);
      try reflexivity; apply (cmp_opp _ L).
  - intros a b c.
    destruct (has_root_directory a), (has_root_directory b), (has_root_directory c);
      try discriminate; try reflexivity; apply (cmp_lt_trans _ L).
  - intros a b c.
    destruct (has_root_directory a), (has_root_directory b), (has_root_directory c);
      try discriminate; try reflexivity; apply (cmp_eq_compat _ L).
Qed.

(** The ordering goes by elements, not by the bytes of the whole string:
    [d/a/c.txt] comes before [d/a.txt], since [a] is a prefix of [a.txt],
    though as strings they compare the other way. *)
Lemma compare_is_by_elements :
  compare "d/a/c.txt" "d/a.txt" = Lt
  /\ string_compare "d/a/c.txt" "d/a.txt" = Gt
  /\ sort compare ["d/a.txt" : str; "d/a/c.txt" : str]
     = ["d/a/c.txt" : str; "d/a.txt" : str].
Proof. repeat split; reflexivity. Qed.

(** *** The cut at the last separator *)

Lemma split_app p : remove_filename p ++ filename p = p.
Proof.
  unfold remove_filename, filename.
  induction p as [|c r IH]; simpl; [reflexivity|].
  destruct (split r) as [[|d0 d] f]; simpl in *.
  - destruct (is_sep c); simpl; now rewrite IH.
  - now rewrite IH.
Qed.

Lemma split_no_sep f : has_sep f = false -> split f = ([], f).
Proof.
  unfold has_sep. induction f as [|c f IH]; simpl; [reflexivity|].
  intros H. apply orb_false_iff in H as [Hc Hf].
  now rewrite (IH Hf), Hc.
Qed.

Lemma split_after_sep d f :
  has_sep f = false -> split (d ++ "/" ++ f) = (d ++ "/", f).
Proof.
  intros Hf. induction d as [|c d IH]; simpl.
  - now rewrite (split_no_sep f Hf).
  - simpl in IH. rewrite IH. destruct d; reflexivity.
Qed.

Lemma filename_no_sep p : has_sep (filename p) = false.
Proof.
  unfold filename, has_sep.
  induction p as [|c r IH]; simpl; [reflexivity|].
  destruct (split r) as [[|d0 d] f]; simpl in *; [|exact IH].
  destruct (is_sep c) eqn:E; simpl; [exact IH|]. now rewrite E.
Qed.

(** What [remove_filename] leaves is empty or ends in a separator. *)
Lemma remove_filename_shape p :
  remove_filename p = [] \/ exists d, remove_filename p = d ++ "/".
Proof.
  unfold remove_filename.
  induction p as [|c r IH]; simpl; [now left|].
  destruct (split r) as [[|d0 d] f]; simpl in *.
  - unfold is_sep. destruct (Ascii.eqb_spec c "/"); simpl; [|now left].
    right; exists []; now subst.
  - right. destruct IH as [IH|[d' IH]]; [discriminate|].
    exists (c :: d'). now rewrite IH.
Qed.

Lemma no_sep_not_absolute f : has_sep f = false -> is_absolute f = false.
Proof.
  destruct f as [|c f]; simpl; [reflexivity|].
  intros H. now apply orb_false_iff in H.
Qed.

Lemma has_filename_remove p : has_filename (remove_filename p) = false.
Proof.
  unfold has_filename, filename.
  destruct (remove_filename_shape p) as [->|[d ->]]; [reflexivity|].
  change (d ++ "/") with (d ++ "/" ++ []).
  now rewrite split_after_sep.
Qed.

(** A replacement without a separator takes the filename's place and
    nothing else changes. *)
Lemma replace_filename_no_sep p f :
  has_sep f = false ->
  replace_filename p f = remove_filename p ++ f
  /\ remove_filename (replace_filename p f) = remove_filename p
  /\ filename (replace_filename p f) = f.
Proof.
  intros Hf. unfold replace_filename, append.
  rewrite (no_sep_not_absolute f Hf), has_filename_remove.
  split; [reflexivity|].
  unfold remove_filename at 1, filename.
  destruct (remove_filename_shape p) as [->|[d ->]].
  - simpl. now rewrite (split_no_sep f Hf).
  - rewrite <- app_assoc. now rewrite (split_after_sep d f Hf).
Qed.

(** In general: a replacement that is an absolute path becomes the whole
    path, any other is put after what [remove_filename] leaves, separators
    and all. *)
Lemma replace_filename_spec p f :
  replace_filename p f = if is_absolute f then f else remove_filename p ++ f.
Proof.
  unfold replace_filename, append. now rewrite has_filename_remove.
Qed.

(** *** The entries of a directory iteration

    A directory iterator yields the path it was given extended, by
    [operator/], with the name of an entry; a recursive one goes on from
    the entries that are directories.  A name is not empty and holds no
    separator. *)

Definition valid_name (n : str) : Prop := n <> [] /\ has_sep n = false.

Definition descend (base : t) (names : list str) : t := fold_left append names base.

(** The names as one relative path. *)
Fixpoint relative (names : list str) : str :=
  match names with
  | [] => []
  | [n] => n
  | n :: rest => n ++ "/" ++ relative rest
  end.

(** The path with a separator after it, ready for a name. *)
Definition dir_prefix (base : t) : str :=
  if has_filename base then base ++ "/" else base.

Lemma dir_prefix_shape base : dir_prefix base = [] \/ exists d, dir_prefix base = d ++ "/".
Proof.
  unfold dir_prefix, has_filename. destruct (filename base) eqn:Hf.
  - rewrite <- (split_app base), Hf, app_nil_r. apply remove_filename_shape.
  - right. now exists base.
Qed.

Lemma append_name base n :
  valid_name n ->
  append base n = dir_prefix base ++ n /\ has_filename (append base n) = true.
Proof.
  intros [Hne Hsep].
  assert (Happ : append base n = dir_prefix base ++ n).
  { unfold append, dir_prefix. rewrite (no_sep_not_absolute n Hsep).
    destruct (has_filename base); [|reflexivity]. now rewrite <- app_assoc. }
  rewrite Happ. split; [reflexivity|].
  unfold has_filename, filename.
  destruct (dir_prefix_shape base) as [->|[d ->]].
  - simpl. rewrite (split_no_sep n Hsep). simpl. destruct n; congruence.
  - rewrite <- app_assoc, (split_after_sep d n Hsep). simpl. destruct n; congruence.
Qed.

Lemma descend_relative : forall names base,
  names <> [] -> Forall valid_name names ->
  descend base names = dir_prefix base ++ relative names.
Proof.
  induction names as [|n names IH]; intros base Hne Hall; [congruence|].
  inversion Hall as [|? ? Hn Hrest]; subst.
  destruct (append_name base n Hn) as [Happ Hhas].
  destruct names as [|n2 names].
  - simpl. exact Happ.
  - change (descend base (n :: n2 :: names)) with (descend (append base n) (n2 :: names)).
    rewrite IH; [|discriminate|exact Hrest].
    unfold dir_prefix at 1. rewrite Hhas, Happ.
    change (relative (n :: n2 :: names)) with (n ++ "/" ++ relative (n2 :: names)).
    now rewrite <- !app_assoc.
Qed.

Lemma elements_from_name n : forall cur b rest,
  has_sep n = false ->
  elements_from cur b (n ++ rest)
  = elements_from (rev n ++ cur) (match n with [] => b | _ => false end) rest.
Proof.
  unfold has_sep. induction n as [|c n IH]; intros cur b rest Hn; [reflexivity|].
  simpl in Hn. apply orb_false_iff in Hn as [Hc Hn].
  simpl. rewrite Hc, (IH _ _ _ Hn), <- app_assoc. simpl.
  now destruct n.
Qed.

Lemma elements_from_relative : forall names cur b,
  names <> [] -> Forall valid_name names ->
  elements_from cur b (relative names) = (rev cur ++ hd [] names) :: tl names.
Proof.
  induction names as [|n names IH]; intros cur b Hne Hall; [congruence|].
  inversion Hall as [|? ? [Hn Hsep] Hrest]; subst.
  destruct names as [|n2 names].
  - simpl. rewrite <- (app_nil_r n) at 1. rewrite (elements_from_name n _ _ _ Hsep).
    destruct n as [|c n]; [congruence|]. simpl.
    destruct (rev n ++ [c]) eqn:Hr; [now destruct (rev n)|].
    rewrite <- Hr. simpl.
    destruct ((rev n ++ [c]) ++ cur) eqn:Hr2.
    + destruct (rev n); discriminate.
    + rewrite <- Hr2, rev_app_distr, rev_app_distr, rev_involutive. reflexivity.
  - change (relative (n :: n2 :: names)) with (n ++ "/" ++ relative (n2 :: names)).
    rewrite (elements_from_name n _ _ _ Hsep).
    destruct n as [|c n]; [congruence|].
    remember (relative (n2 :: names)) as R eqn:HR. simpl. subst R.
    rewrite (IH [] true); [|discriminate|exact Hrest]. simpl.
    rewrite rev_app_distr, rev_app_distr, rev_involutive. reflexivity.
Qed.

Lemma elements_from_dir d : forall cur b,
  exists emitted, forall rest,
    elements_from cur b (d ++ "/" ++ rest) = emitted ++ elements_from [] true rest.
Proof.
  induction d as [|c d IH]; intros cur b.
  - destruct b; [exists [] | exists [rev cur]]; intros rest; reflexivity.
  - simpl. destruct (is_sep c).
    + destruct (IH [] true) as [em Hem]. destruct b.
      * exists em. exact Hem.
      * exists (rev cur :: em). intros rest. simpl in Hem. now rewrite Hem.
    + apply IH.
Qed.

Lemma drop_seps_dir d :
  (forall rest, drop_seps (d ++ "/" ++ rest) = drop_seps rest)
  \/ (exists d', forall rest, drop_seps (d ++ "/" ++ rest) = d' ++ "/" ++ rest).
Proof.
  induction d as [|c d IH].
  - left. reflexivity.
  - simpl. destruct (is_sep c); [exact IH|].
    right. exists (c :: d). reflexivity.
Qed.

Lemma drop_seps_relative names :
  names <> [] -> Forall valid_name names -> drop_seps (relative names) = relative names.
Proof.
  intros Hne Hall. destruct names as [|n names]; [congruence|].
  inversion Hall as [|? ? [Hn Hsep] _]; subst.
  destruct n as [|c n]; [congruence|].
  unfold has_sep in Hsep. simpl in Hsep. apply orb_false_iff in Hsep as [Hc _].
  destruct names; simpl; now rewrite Hc.
Qed.

(** The elements of an entry are those of the directory it was found
    under, then its names. *)
Lemma elements_descend base :
  exists stem, forall names,
    names <> [] -> Forall valid_name names ->
    elements (descend base names) = stem ++ names.
Proof.
  destruct (dir_prefix_shape base) as [Hp|[d Hp]].
  - exists []. intros names Hne Hall.
    rewrite (descend_relative names base Hne Hall), Hp. simpl. unfold elements.
    rewrite (drop_seps_relative names Hne Hall),
            (elements_from_relative names [] false Hne Hall).
    now destruct names.
  - destruct (drop_seps_dir d) as [Hd|[d' Hd]].
    + exists []. intros names Hne Hall.
      rewrite (descend_relative names base Hne Hall), Hp, <- app_assoc.
      unfold elements. rewrite Hd, (drop_seps_relative names Hne Hall),
                               (elements_from_relative names [] false Hne Hall).
      now destruct names.
    + destruct (elements_from_dir d' [] false) as [em Hem].
      exists em. intros names Hne Hall.
      rewrite (descend_relative names base Hne Hall), Hp, <- app_assoc.
      unfold elements. rewrite Hd, Hem,
                               (elements_from_relative names [] true Hne Hall).
      now destruct names.
Qed.

Lemma has_root_directory_descend base names :
  names <> [] -> Forall valid_name names ->
  has_root_directory (descend base names)
  = match dir_prefix base with [] => false | c :: _ => is_sep c end.
Proof.
  intros Hne Hall. rewrite (descend_relative names base Hne Hall).
  destruct (dir_prefix base) as [|c p]; [|reflexivity].
  simpl. destruct names as [|n names]; [congruence|].
  inversion Hall as [|? ? [Hn Hsep] _]; subst.
  destruct n as [|c n]; [congruence|].
  unfold has_sep in Hsep. simpl in Hsep. apply orb_false_iff in Hsep as [Hc _].
  destruct names; simpl; exact Hc.
Qed.

Lemma lex_compare_app_same (stem l1 l2 : list str) :
  lex_compare string_compare (stem ++ l1) (stem ++ l2) = lex_compare string_compare l1 l2.
Proof.
  induction stem as [|x stem IH]; simpl; [reflexivity|].
  now rewrite (cmp_refl _ string_compare_laws).
Qed.

(** Two entries found under one base compare equal only when they are the
    same entry. *)
Lemma descend_compare_eq base names1 names2 :
  names1 <> [] -> Forall valid_name names1 ->
  names2 <> [] -> Forall valid_name names2 ->
  compare (descend base names1) (descend base names2) = Eq ->
  descend base names1 = descend base names2.
Proof.
  intros Hne1 Hall1 Hne2 Hall2. unfold compare.
  rewrite (has_root_directory_descend base names1 Hne1 Hall1),
          (has_root_directory_descend base names2 Hne2 Hall2).
  destruct (elements_descend base) as [stem Hstem].
  rewrite (Hstem names1 Hne1 Hall1), (Hstem names2 Hne2 Hall2), lex_compare_app_same.
  intros H.
  assert (Heq : names1 = names2).
  { apply (lex_compare_eq string_compare string_compare_eq).
    destruct (match dir_prefix base with [] => false | c :: _ => is_sep c end); exact H. }
  now rewrite Heq.
Qed.

Lemma string_compare_app_same (p a b : str) :
  string_compare (p ++ a) (p ++ b) = string_compare a b.
Proof.
  induction p as [|c p IH]; [reflexivity|].
  unfold string_compare in *. cbn [app lex_compare].
  now rewrite (cmp_refl _ ascii_compare_laws).
Qed.

(** Two entries of one directory compare the way their full paths
    compare as strings. *)
Lemma compare_children base n1 n2 :
  valid_name n1 -> valid_name n2 ->
  compare (descend base [n1]) (descend base [n2])
  = string_compare (descend base [n1]) (descend base [n2]).
Proof.
  intros H1 H2.
  assert (Hne : forall n : str, [n] <> []) by discriminate.
  assert (Hall : forall n, valid_name n -> Forall valid_name [n])
    by (intros n Hn; now constructor).
  unfold compare.
  rewrite (has_root_directory_descend base [n1] (Hne _) (Hall _ H1)),
          (has_root_directory_descend base [n2] (Hne _) (Hall _ H2)).
  destruct (elements_descend base) as [stem Hstem].
  rewrite (Hstem [n1] (Hne _) (Hall _ H1)), (Hstem [n2] (Hne _) (Hall _ H2)),
          lex_compare_app_same.
  rewrite (descend_relative [n1] base (Hne _) (Hall _ H1)),
          (descend_relative [n2] base (Hne _) (Hall _ H2)), string_compare_app_same.
  cbn [relative lex_compare].
  destruct (match dir_prefix base with [] => false | c :: _ => is_sep c end),
           (string_compare n1 n2); reflexivity.
Qed.

End Path.

(** ** [std::regex]: what the program relies on

    The engine is an interface: [compile] is [std::regex]'s assignment from
    a pattern (ECMAScript grammar), [search] is [std::regex_search] on the
    range that starts at an offset of the subject.  Both may throw
    [std::regex_error].  [format], the iterator and [regex_replace] are
    written over the interface the way the library does it. *)

Module Regex.

(** The [match_flag_type] bits [regex_iterator] sets. *)
Record match_flags := {
  match_not_null : bool;
  match_continuous : bool;
  match_prev_avail : bool
}.

Definition match_default : match_flags :=
  {| match_not_null := false; match_continuous := false; match_prev_avail := false |}.

(** A [sub_match]: offsets [first, second) into the subject, or unmatched. *)
Definition sub_match := option (nat * nat).

(** [match_results] as a search fills them: the whole match and the marked
    sub-expressions 1, 2, ... *)
Record match_results := {
  m_first : nat;
  m_second : nat;
  m_groups : list sub_match
}.

Definition m_empty (m : match_results) : bool := Nat.eqb (m_first m) (m_second m).

Record Engine := {
  regex : Type;
  compile : str -> regex_error + regex;
  search : regex -> match_flags -> str -> nat -> regex_error + option match_results;
  (** a match lies in the searched range *)
  search_range : forall re fl s start m,
    search re fl s start = inr (Some m) ->
    start <= m_first m /\ m_first m <= m_second m /\ m_second m <= List.length s;
  (** [match_not_null] excludes the empty match *)
  search_not_null : forall re fl s start m,
    match_not_null fl = true ->
    search re fl s start = inr (Some m) ->
    m_first m < m_second m
}.

Definition substr (s : str) (first second : nat) : str :=
  firstn (second - first) (skipn first s).

Definition sub_text (s : str) (sm : sub_match) : str :=
  match sm with
  | Some (first, second) => substr s first second
  | None => []
  end.

Definition is_digit (c : ascii) : bool :=
  Nat.leb 48 (nat_of_ascii c) && Nat.leb (nat_of_ascii c) 57.

Definition digit_value (c : ascii) : nat := nat_of_ascii c - 48.

Section Format.
Variables (s : str) (m : match_results) (prefix_first : nat).

(** The sub-match [idx] when [idx < size()], nothing otherwise. *)
Definition submatch_text (idx : nat) : str :=
  match idx with
  | 0 => substr s (m_first m) (m_second m)
  | S i => match nth_error (m_groups m) i with
           | Some sm => sub_text s sm
           | None => []
           end
  end.

Definition prefix_text : str := substr s prefix_first (m_first m).
Definition suffix_text : str := skipn (m_second m) s.

(** [match_results::format], ECMAScript rules: [$$], [$&], [$`], [$'],
    and [$n] or [$nn] with as many as two digits taken. *)
Fixpoint format (fmt : str) : str :=
  match fmt with
  | [] => []
  | c :: rest =>
      if (c =? "$")%char then
        match rest with
        | [] => ["$"%char]
        | d :: r =>
            if (d =? "$")%char then "$"%char :: format r
            else if (d =? "&")%char then submatch_text 0 ++ format r
            else if (d =? "`")%char then prefix_text ++ format r
            else if (d =? "'")%char then suffix_text ++ format r
            else if is_digit d then
              match r with
              | d2 :: r2 =>
                  if is_digit d2
                  then submatch_text (10 * digit_value d + digit_value d2) ++ format r2
                  else submatch_text (digit_value d) ++ format r
              | [] => submatch_text (digit_value d)
              end
            else "$"%char :: format rest
        end
      else c :: format rest
  end.
End Format.

Section Replace.
Context (E : Engine).

(** A [regex_iterator] that is not the end iterator. *)
Record iterator := {
  it_match : match_results;
  it_prefix_first : nat;
  it_flags : match_flags
}.

Definition valid (s : str) (it : iterator) : Prop :=
  it_prefix_first it <= m_first (it_match it)
  /\ m_first (it_match it) <= m_second (it_match it)
  /\ m_second (it_match it) <= List.length s.

(** The constructor: one search from the start of the subject. *)
Definition iterator_begin (re : regex E) (s : str)
  : regex_error + option iterator :=
  match search E re match_default s 0 with
  | inl e => inl e
  | inr None => inr None
  | inr (Some m) =>
      inr (Some {| it_match := m; it_prefix_first := 0; it_flags := match_default |})
  end.

Definition search_next (re : regex E) (s : str) (fl : match_flags)
           (start prefix_first : nat) : regex_error + option iterator :=
  let fl' := {| match_not_null := match_not_null fl;
                match_continuous := match_continuous fl;
                match_prev_avail := true |} in
  match search E re fl' s start with
  | inl e => inl e
  | inr None => inr None
  | inr (Some m) =>
      inr (Some {| it_match := m; it_prefix_first := prefix_first; it_flags := fl' |})
  end.

(** [operator++]: after an empty match, first a non-empty match at the
    same place is tried, then the search resumes one position on. *)
Definition increment (re : regex E) (s : str) (it : iterator)
  : regex_error + option iterator :=
  let start := m_second (it_match it) in
  if m_empty (it_match it) then
    if Nat.eqb start (List.length s) then inr None
    else
      match search E re {| match_not_null := true;
                           match_continuous := true;
                           match_prev_avail := match_prev_avail (it_flags it) |}
                   s start with
      | inl e => inl e
      | inr (Some m) =>
          inr (Some {| it_match := m; it_prefix_first := start;
                       it_flags := it_flags it |})
      | inr None => search_next re s (it_flags it) (S start) start
      end
  else search_next re s (it_flags it) start start.

(** The loop of [regex_replace]: the prefix of each match, then the
    match formatted; after the last match its suffix. *)
Fixpoint replace_loop (fuel : nat) (re : regex E) (s fmt : str)
         (it : iterator) (out : str) : regex_error + str :=
  let m := it_match it in
  let out' := out ++ substr s (it_prefix_first it) (m_first m)
                  ++ format s m (it_prefix_first it) fmt in
  match fuel with
  | 0 => inr (out' ++ skipn (m_second m) s)
  | S fuel' =>
      match increment re s it with
      | inl e => inl e
      | inr None => inr (out' ++ skipn (m_second m) s)
      | inr (Some it') => replace_loop fuel' re s fmt it' out'
      end
  end.

(** [std::regex_replace(out, first, last, re, fmt)] with the default
    flags.  The iterator advances at most [2 * length s + 2] times
    ([replace_loop_enough]). *)
Definition regex_replace (re : regex E) (s fmt : str) : regex_error + str :=
  match iterator_begin re s with
  | inl e => inl e
  | inr None => inr s
  | inr (Some it) => replace_loop (2 * List.length s + 2) re s fmt it []
  end.

(** *** The matches, and the text between them *)

(** The matches the iterator yields after [it], to the end. *)
Inductive matches_after (re : regex E) (s : str)
  : iterator -> list iterator -> Prop :=
| matches_end it :
    increment re s it = inr None -> matches_after re s it []
| matches_next it it' its :
    increment re s it = inr (Some it') ->
    matches_after re s it' its ->
    matches_after re s it (it' :: its).

Definition all_matches (re : regex E) (s : str) (its : list iterator) : Prop :=
  match iterator_begin re s with
  | inl _ => False
  | inr None => its = []
  | inr (Some it) => exists its', its = it :: its' /\ matches_after re s it its'
  end.

(** Matches laid out left to right from offset [from] without overlap:
    each starts at or after the end of the one before. *)
Fixpoint non_overlapping (s : str) (from : nat) (its : list iterator) : Prop :=
  match its with
  | [] => from <= List.length s
  | it :: its' =>
      it_prefix_first it = from
      /\ from <= m_first (it_match it)
      /\ m_first (it_match it) <= m_second (it_match it)
      /\ non_overlapping s (m_second (it_match it)) its'
  end.

(** The subject with each match replaced by the expanded template and
    the text outside the matches kept. *)
Fixpoint splice (s fmt : str) (from : nat) (its : list iterator) : str :=
  match its with
  | [] => skipn from s
  | it :: its' =>
      substr s from (m_first (it_match it))
      ++ format s (it_match it) from fmt
      ++ splice s fmt (m_second (it_match it)) its'
  end.

(** *** The iterator advances, so the loop ends *)

Definition measure (it : iterator) : nat :=
  2 * m_second (it_match it) + (if m_empty (it_match it) then 1 else 0).

Lemma search_next_some re s fl start pf it' :
  search_next re s fl start pf = inr (Some it') ->
  it_prefix_first it' = pf
  /\ start <= m_first (it_match it')
  /\ m_first (it_match it') <= m_second (it_match it')
  /\ m_second (it_match it') <= List.length s.
Proof.
  unfold search_next. destruct (search E re _ s start) as [e|[m|]] eqn:Hs;
    try discriminate.
  intros H; injection H as <-. simpl. split; [reflexivity|].
  exact (search_range E _ _ _ _ _ Hs).
Qed.

Lemma increment_some re s it it' :
  valid s it ->
  increment re s it = inr (Some it') ->
  valid s it'
  /\ it_prefix_first it' = m_second (it_match it)
  /\ measure it < measure it'.
Proof.
  intros (Hp & Hfs & Hlen). unfold increment, measure, valid, m_empty.
  destruct (Nat.eqb_spec (m_first (it_match it)) (m_second (it_match it))) as [Heq|Hne].
  - destruct (Nat.eqb_spec (m_second (it_match it)) (List.length s)); try discriminate.
    destruct (search E re _ s (m_second (it_match it))) as [e|[m|]] eqn:Hs;
      try discriminate.
    + intros H; injection H as <-. simpl.
      pose proof (search_range E _ _ _ _ _ Hs) as (H1 & H2 & H3).
      assert (H4 : m_first m < m_second m)
        by (eapply (search_not_null E); [|exact Hs]; reflexivity).
      destruct (Nat.eqb_spec (m_first m) (m_second m)); lia.
    + intros H. apply search_next_some in H as (H0 & H1 & H2 & H3).
      rewrite H0.
      destruct (Nat.eqb_spec (m_first (it_match it')) (m_second (it_match it'))); lia.
  - intros H. apply search_next_some in H as (H0 & H1 & H2 & H3).
    rewrite H0.
    destruct (Nat.eqb_spec (m_first (it_match it')) (m_second (it_match it'))); lia.
Qed.

Lemma search_next_error re s fl start pf e :
  search_next re s fl start pf = inl e ->
  exists fl' start', search E re fl' s start' = inl e.
Proof.
  unfold search_next. destruct (search E re _ s start) as [e'|[m|]] eqn:Hs;
    try discriminate.
  intros H; injection H as <-. eauto.
Qed.

Lemma increment_error re s it e :
  increment re s it = inl e ->
  exists fl start, search E re fl s start = inl e.
Proof.
  unfold increment. destruct (m_empty (it_match it)).
  - destruct (Nat.eqb _ _); try discriminate.
    destruct (search E re _ s (m_second (it_match it))) as [e'|[m|]] eqn:Hs;
      try discriminate.
    + intros H; injection H as <-. eauto.
    + apply search_next_error.
  - apply search_next_error.
Qed.

(** With the fuel [regex_replace] gives it the loop runs to the end
    iterator: its result is the splice over all the matches. *)
Lemma replace_loop_enough re s fmt : forall fuel it out,
  valid s it ->
  2 * List.length s + 1 < fuel + measure it ->
  match replace_loop fuel re s fmt it out with
  | inr r =>
      exists its,
        matches_after re s it its
        /\ non_overlapping s (m_second (it_match it)) its
        /\ r = out ++ substr s (it_prefix_first it) (m_first (it_match it))
                   ++ format s (it_match it) (it_prefix_first it) fmt
                   ++ splice s fmt (m_second (it_match it)) its
  | inl e => exists fl start, search E re fl s start = inl e
  end.
Proof.
  induction fuel as [|fuel IH]; intros it out Hv Hfuel.
  - exfalso. destruct Hv as (_ & _ & Hlen). unfold measure in Hfuel.
    destruct (m_empty (it_match it)); lia.
  - simpl. destruct (increment re s it) as [e|[it'|]] eqn:Hinc.
    + eapply increment_error; eauto.
    + destruct (increment_some _ _ _ _ Hv Hinc) as (Hv' & Hpf & Hlt).
      specialize (IH it'
        (out ++ substr s (it_prefix_first it) (m_first (it_match it))
             ++ format s (it_match it) (it_prefix_first it) fmt) Hv').
      destruct (replace_loop fuel re s fmt it' _) as [e|r]; [apply IH; lia|].
      destruct IH as (its & Hm & Hno & Hr); [lia|].
      exists (it' :: its). split; [|split].
      * econstructor; eauto.
      * simpl. destruct Hv' as (H1 & H2 & H3). rewrite Hpf in *. auto.
      * rewrite Hr. simpl. rewrite Hpf. now rewrite <- !app_assoc.
    + exists []. split; [|split].
      * now constructor.
      * simpl. apply Hv.
      * simpl. now rewrite <- !app_assoc.
Qed.

(** [regex_replace] either throws what a search threw, or returns the
    subject with every match of the iteration replaced. *)
Lemma regex_replace_splice re s fmt :
  match regex_replace re s fmt with
  | inr out =>
      exists its,
        all_matches re s its
        /\ non_overlapping s 0 its
        /\ out = splice s fmt 0 its
  | inl e => exists fl start, search E re fl s start = inl e
  end.
Proof.
  unfold regex_replace, all_matches.
  destruct (iterator_begin re s) as [e|[it|]] eqn:Hb.
  - unfold iterator_begin in Hb.
    destruct (search E re match_default s 0) as [e'|[m|]] eqn:Hs; try discriminate.
    injection Hb as <-. eauto.
  - unfold iterator_begin in Hb.
    destruct (search E re match_default s 0) as [e'|[m|]] eqn:Hs; try discriminate.
    injection Hb as <-.
    pose proof (search_range E _ _ _ _ _ Hs) as (H1 & H2 & H3).
    pose proof (replace_loop_enough re s fmt (2 * List.length s + 2)
                  {| it_match := m; it_prefix_first := 0; it_flags := match_default |}
                  []) as Hloop.
    destruct (replace_loop _ re s fmt _ []) as [e|r].
    + apply Hloop; [repeat split; simpl; lia | unfold measure; simpl; lia].
    + destruct Hloop as (its & Hm & Hno & Hr);
        [repeat split; simpl; lia | unfold measure; simpl; lia |].
      eexists (_ :: its). split; [eauto|]. simpl. repeat split; auto; lia.
  - exists []. simpl. repeat split; lia.
Qed.

(** No match anywhere: the output is the input. *)
Lemma regex_replace_no_match re s fmt :
  search E re match_default s 0 = inr None ->
  regex_replace re s fmt = inr s.
Proof.
  intros H. unfold regex_replace, iterator_begin. now rewrite H.
Qed.
End Replace.

(** *** The template *)

Section FormatFacts.
Variables (s : str) (m : match_results) (prefix_first : nat).

Definition has_dollar (fmt : str) : bool := existsb (fun c => (c =? "$")%char) fmt.

(** Text without [$] stands for itself. *)
Lemma format_literal lit rest :
  has_dollar lit = false ->
  format s m prefix_first (lit ++ rest) = lit ++ format s m prefix_first rest.
Proof.
  unfold has_dollar. induction lit as [|c lit IH]; simpl; [reflexivity|].
  intros H. apply orb_false_iff in H as [Hc Hl].
  rewrite Hc. now rewrite IH.
Qed.

(** The text of capture group [n >= 1]: what it captured, or nothing when
    it did not take part in the match. *)
Definition group_text (n : nat) : str :=
  match nth_error (m_groups m) (n - 1) with
  | Some (Some (first, second)) => substr s first second
  | _ => []
  end.

Definition starts_with_digit (fmt : str) : bool :=
  match fmt with d :: _ => is_digit d | [] => false end.

(** [$N], one digit not followed by another, stands for group [N]. *)
Lemma format_group (d : ascii) rest :
  is_digit d = true -> digit_value d <> 0 ->
  starts_with_digit rest = false ->
  format s m prefix_first ("$"%char :: d :: rest)
  = group_text (digit_value d) ++ format s m prefix_first rest.
Proof.
  intros Hd Hnz Hrest.
  assert (Hsub : submatch_text s m (digit_value d) = group_text (digit_value d)).
  { unfold submatch_text, group_text. destruct (digit_value d) as [|i]; [congruence|].
    simpl. rewrite Nat.sub_0_r.
    destruct (nth_error (m_groups m) i) as [[[a b]|]|]; reflexivity. }
  cbn [format]. rewrite Ascii.eqb_refl.
  destruct (Ascii.eqb_spec d "$") as [->|_]; [discriminate Hd|].
  destruct (Ascii.eqb_spec d "&") as [->|_]; [discriminate Hd|].
  destruct (Ascii.eqb_spec d "`") as [->|_]; [discriminate Hd|].
  destruct (Ascii.eqb_spec d "'") as [->|_]; [discriminate Hd|].
  rewrite Hd. destruct rest as [|d2 r2].
  - simpl. now rewrite Hsub, app_nil_r.
  - simpl in Hrest. rewrite Hrest. now rewrite Hsub.
Qed.
End FormatFacts.

(** *** Every match, said over the searches

    What replacing every match means, said without the iterator and
    without the loop: a scan of the subject from left to right in which
    each match is the one [regex_search] finds where the scan stands, and
    which ends only where [regex_search] finds nothing more.  After a
    match that is not empty the scan stands at its end.  After an empty
    match at [p] a match at [p] must not be empty; when there is none the
    scan moves to [p + 1], and at the end of the subject it is over. *)

Section EveryMatch.
Context (E : Engine).

(** The flags of a search that takes the scan up after a match:
    [match_prev_avail], the character before is there to be looked at. *)
Definition resumed : match_flags :=
  {| match_not_null := false; match_continuous := false; match_prev_avail := true |}.

(** The flags of the search for a match that is not empty and starts
    where an empty one was found: [match_not_null | match_continuous],
    and [match_prev_avail] if the scan was taken up before. *)
Definition in_place (taken_up : bool) : match_flags :=
  {| match_not_null := true; match_continuous := true; match_prev_avail := taken_up |}.

(** [follows re s prev taken_up next taken_up']: in the scan of [s],
    [next] is the match after [prev], or there is none. *)
Inductive follows (re : regex E) (s : str) (prev : match_results) (taken_up : bool)
  : option match_results -> bool -> Prop :=
| follows_after next :
    m_first prev <> m_second prev ->
    search E re resumed s (m_second prev) = inr next ->
    follows re s prev taken_up next true
| follows_at_end :
    m_first prev = m_second prev ->
    m_second prev = List.length s ->
    follows re s prev taken_up None taken_up
| follows_in_place m :
    m_first prev = m_second prev ->
    m_second prev <> List.length s ->
    search E re (in_place taken_up) s (m_second prev) = inr (Some m) ->
    follows re s prev taken_up (Some m) taken_up
| follows_one_on next :
    m_first prev = m_second prev ->
    m_second prev <> List.length s ->
    search E re (in_place taken_up) s (m_second prev) = inr None ->
    search E re resumed s (S (m_second prev)) = inr next ->
    follows re s prev taken_up next true.

(** The matches after [prev], to the place where no match follows. *)
Inductive scanned (re : regex E) (s : str)
  : match_results -> bool -> list match_results -> Prop :=
| scanned_last prev taken_up taken_up' :
    follows re s prev taken_up None taken_up' ->
    scanned re s prev taken_up []
| scanned_next prev taken_up m taken_up' ms :
    follows re s prev taken_up (Some m) taken_up' ->
    scanned re s m taken_up' ms ->
    scanned re s prev taken_up (m :: ms).

(** Every match of [re] in [s]: the first is what the search from the
    start finds, and none is missed after it. *)
Definition every_match (re : regex E) (s : str) (ms : list match_results) : Prop :=
  match ms with
  | [] => search E re match_default s 0 = inr None
  | m :: rest => search E re match_default s 0 = inr (Some m) /\ scanned re s m false rest
  end.

(** No match overlaps the one before: each starts at or after the end of
    the one before, within the subject. *)
Fixpoint separate (s : str) (from : nat) (ms : list match_results) : Prop :=
  match ms with
  | [] => from <= List.length s
  | m :: rest =>
      from <= m_first m /\ m_first m <= m_second m /\ separate s (m_second m) rest
  end.

(** The subject with each match replaced by the expanded template, the
    text before, between and after the matches kept. *)
Fixpoint replaced (s fmt : str) (from : nat) (ms : list match_results) : str :=
  match ms with
  | [] => skipn from s
  | m :: rest =>
      substr s from (m_first m) ++ format s m from fmt ++ replaced s fmt (m_second m) rest
  end.

(** The scan is determined by the searches. *)
Lemma follows_unique re s prev taken_up next1 t1 next2 t2 :
  follows re s prev taken_up next1 t1 ->
  follows re s prev taken_up next2 t2 ->
  next1 = next2 /\ (next1 <> None -> t1 = t2).
Proof.
  intros H1 H2. inversion H1; subst; inversion H2; subst;
    try contradiction; try congruence; try (split; congruence).
Qed.

Lemma scanned_unique re s prev taken_up ms1 :
  scanned re s prev taken_up ms1 ->
  forall ms2, scanned re s prev taken_up ms2 -> ms1 = ms2.
Proof.
  induction 1 as [prev tu tu' Hf | prev tu m tu' ms Hf _ IH]; intros ms2 H2.
  - inversion H2 as [|? ? m2 tu2 ms2' Hf2]; subst; [reflexivity|].
    destruct (follows_unique _ _ _ _ _ _ _ _ Hf Hf2) as [Hx _]. discriminate Hx.
  - inversion H2 as [? ? tu2 Hf2|? ? m2 tu2 ms2' Hf2 Hs2]; subst.
    + destruct (follows_unique _ _ _ _ _ _ _ _ Hf Hf2) as [Hx _]. discriminate Hx.
    + destruct (follows_unique _ _ _ _ _ _ _ _ Hf Hf2) as [Hx Ht].
      injection Hx as <-. rewrite <- (Ht ltac:(discriminate)) in Hs2.
      f_equal. now apply IH.
Qed.

Lemma every_match_unique re s ms1 ms2 :
  every_match re s ms1 -> every_match re s ms2 -> ms1 = ms2.
Proof.
  destruct ms1 as [|m1 r1], ms2 as [|m2 r2]; simpl; try congruence.
  - intros H1 [H2 _]. congruence.
  - intros [H1 _] H2. congruence.
  - intros [H1 S1] [H2 S2]. rewrite H1 in H2. injection H2 as <-.
    f_equal. exact (scanned_unique _ _ _ _ _ S1 _ S2).
Qed.

(** *** The iterator carries out the scan *)

(** The flags of an iterator that [regex_replace] made: none but
    [match_prev_avail] is ever set. *)
Definition plain (it : iterator) : Prop :=
  match_not_null (it_flags it) = false /\ match_continuous (it_flags it) = false.

Lemma search_next_resumed re s fl start pf r :
  match_not_null fl = false -> match_continuous fl = false ->
  search_next E re s fl start pf = inr r ->
  search E re resumed s start = inr (option_map it_match r)
  /\ forall it', r = Some it' -> plain it' /\ match_prev_avail (it_flags it') = true.
Proof.
  intros Hn Hc. unfold search_next. rewrite Hn, Hc. fold resumed.
  destruct (search E re resumed s start) as [e|[m|]]; try discriminate;
    intros H; injection H as <-; (split; [reflexivity|]).
  - intros it' Hit. injection Hit as <-. now repeat split.
  - intros it' Hit. discriminate Hit.
Qed.

Lemma increment_follows re s it r :
  plain it ->
  increment E re s it = inr r ->
  exists taken_up',
    follows re s (it_match it) (match_prev_avail (it_flags it))
            (option_map it_match r) taken_up'
    /\ forall it', r = Some it' ->
                   plain it' /\ match_prev_avail (it_flags it') = taken_up'.
Proof.
  intros [Hn Hc]. unfold increment, m_empty.
  destruct (Nat.eqb_spec (m_first (it_match it)) (m_second (it_match it))) as [Heq|Hne].
  - destruct (Nat.eqb_spec (m_second (it_match it)) (List.length s)) as [Hend|Hin].
    + intros H; injection H as <-. eexists. split; [now apply follows_at_end|].
      intros it' Hit. discriminate Hit.
    + fold (in_place (match_prev_avail (it_flags it))).
      destruct (search E re (in_place (match_prev_avail (it_flags it))) s
                       (m_second (it_match it))) as [e|[m|]] eqn:Hs; try discriminate.
      * intros H; injection H as <-. eexists. split; [now apply follows_in_place|].
        intros it' Hit. injection Hit as <-. now repeat split.
      * intros H. destruct (search_next_resumed _ _ _ _ _ _ Hn Hc H) as [Hs' Hit].
        exists true. split; [now apply follows_one_on | exact Hit].
  - intros H. destruct (search_next_resumed _ _ _ _ _ _ Hn Hc H) as [Hs' Hit].
    exists true. split; [now apply follows_after | exact Hit].
Qed.

Lemma matches_after_scanned re s it its :
  matches_after E re s it its ->
  plain it ->
  scanned re s (it_match it) (match_prev_avail (it_flags it)) (map it_match its).
Proof.
  induction 1 as [it Hinc | it it' its Hinc _ IH]; intros Hp.
  - destruct (increment_follows _ _ _ _ Hp Hinc) as (t & Hf & _).
    exact (scanned_last _ _ _ _ _ Hf).
  - destruct (increment_follows _ _ _ _ Hp Hinc) as (t & Hf & Hit).
    destruct (Hit it' eq_refl) as [Hp' Ht]. cbn [map].
    apply (scanned_next _ _ _ _ _ t _ Hf). rewrite <- Ht. now apply IH.
Qed.

Lemma all_matches_every re s its :
  all_matches E re s its -> every_match re s (map it_match its).
Proof.
  unfold all_matches, iterator_begin.
  destruct (search E re match_default s 0) as [e|[m|]] eqn:Hs.
  - intros [].
  - intros (its' & -> & Hafter). cbn [map every_match it_match].
    split; [exact Hs|].
    exact (matches_after_scanned _ _ _ _ Hafter (conj eq_refl eq_refl)).
  - intros ->. exact Hs.
Qed.

Lemma non_overlapping_separate s : forall its from,
  non_overlapping s from its -> separate s from (map it_match its).
Proof.
  induction its as [|it its IH]; intros from H; [exact H|].
  destruct H as (_ & H1 & H2 & Hrest). cbn [map separate]. auto.
Qed.

Lemma splice_replaced s fmt : forall its from,
  splice s fmt from its = replaced s fmt from (map it_match its).
Proof.
  induction its as [|it its IH]; intros from; [reflexivity|].
  cbn [splice map replaced]. now rewrite IH.
Qed.

(** [regex_replace] replaces every match. *)
Lemma regex_replace_every_match re s fmt :
  match regex_replace E re s fmt with
  | inr out =>
      exists ms,
        every_match re s ms /\ separate s 0 ms /\ out = replaced s fmt 0 ms
  | inl e => exists fl start, search E re fl s start = inl e
  end.
Proof.
  pose proof (regex_replace_splice E re s fmt) as H.
  destruct (regex_replace E re s fmt) as [e|out]; [exact H|].
  destruct H as (its & Hall & Hno & ->).
  exists (map it_match its). split; [now apply all_matches_every|].
  split; [now apply non_overlapping_separate | apply splice_replaced].
Qed.

(** One match that is not empty, and no match after it. *)
Lemma regex_replace_one_match re s fmt m :
  search E re match_default s 0 = inr (Some m) ->
  m_first m <> m_second m ->
  search E re resumed s (m_second m) = inr None ->
  regex_replace E re s fmt
  = inr (substr s 0 (m_first m) ++ format s m 0 fmt ++ skipn (m_second m) s).
Proof.
  intros H0 Hne Hnext.
  pose proof (regex_replace_every_match re s fmt) as H.
  destruct (regex_replace E re s fmt) as [e|out] eqn:Hr.
  - exfalso. unfold regex_replace, iterator_begin in Hr. rewrite H0 in Hr.
    replace (2 * List.length s + 2) with (S (2 * List.length s + 1)) in Hr by lia.
    cbn [replace_loop] in Hr. unfold increment, m_empty in Hr. cbn [it_match] in Hr.
    destruct (Nat.eqb_spec (m_first m) (m_second m)) as [Heq|_]; [contradiction|].
    unfold search_next in Hr. cbn [it_flags match_default match_not_null match_continuous] in Hr.
    fold resumed in Hr. rewrite Hnext in Hr. discriminate Hr.
  - destruct H as (ms & Hevery & _ & ->). f_equal.
    assert (Hms : every_match re s [m]).
    { split; [exact H0|]. apply (scanned_last _ _ _ _ true). now apply follows_after. }
    now rewrite (every_match_unique _ _ _ _ Hevery Hms).
Qed.

End EveryMatch.

(** *** [$N] in the template, one digit or two *)

Section GroupReference.
Variables (s : str) (m : match_results) (prefix_first : nat).

Lemma submatch_group n : n <> 0 -> submatch_text s m n = group_text s m n.
Proof.
  unfold submatch_text, group_text. destruct n as [|i]; [congruence|]. intros _.
  simpl. rewrite Nat.sub_0_r.
  destruct (nth_error (m_groups m) i) as [[[a b]|]|]; reflexivity.
Qed.

(** [$NN]: two digits are taken together and stand for group
    [10 * N + N']. *)
Lemma format_group_two_digits (d1 d2 : ascii) rest :
  is_digit d1 = true -> is_digit d2 = true ->
  10 * digit_value d1 + digit_value d2 <> 0 ->
  format s m prefix_first ("$"%char :: d1 :: d2 :: rest)
  = group_text s m (10 * digit_value d1 + digit_value d2)
    ++ format s m prefix_first rest.
Proof.
  intros H1 H2 Hnz. rewrite <- (submatch_group _ Hnz).
  cbn [format]. rewrite Ascii.eqb_refl.
  destruct (Ascii.eqb_spec d1 "$") as [->|_]; [discriminate H1|].
  destruct (Ascii.eqb_spec d1 "&") as [->|_]; [discriminate H1|].
  destruct (Ascii.eqb_spec d1 "`") as [->|_]; [discriminate H1|].
  destruct (Ascii.eqb_spec d1 "'") as [->|_]; [discriminate H1|].
  now rewrite H1, H2.
Qed.

End GroupReference.

End Regex.

(** ** An engine for a fragment of the ECMAScript grammar

    Literals, [.], the escapes [\d \D \w \W \s \S \t \n \r \f \v] and
    escaped punctuation, bracket expressions with ranges, capturing and
    [(?:...)] groups, alternation, the quantifiers [* + ? {n} {n,} {n,m}]
    and their lazy forms, and the anchors [^ $].  Back-references,
    look-ahead, [\b], the other escaped letters and the named classes of
    bracket expressions are outside the fragment: [compile] rejects them,
    where [std::regex] accepts them.
    The matcher is the backtracking matcher of ECMA-262, with a budget of
    steps whose exhaustion is [error_complexity]. *)

Module Ecma.
Import Regex.

Inductive class_item :=
| CChar (c : ascii)
| CRange (lo hi : ascii)
| CDigit (negated : bool)
| CWord (negated : bool)
| CSpace (negated : bool).

Inductive node :=
| Empty
| Char (c : ascii)
| AnyChar
| Bracket (negated : bool) (items : list class_item)
| Bol
| Eol
| Group (index : nat) (r : node)
| Seq (r1 r2 : node)
| Alt (r1 r2 : node)
| Repeat (min : nat) (max : option nat) (greedy : bool) (r : node).

(** *** Character classes *)

Definition in_range (lo hi c : nat) : bool := Nat.leb lo c && Nat.leb c hi.

Definition is_word (c : ascii) : bool :=
  let n := nat_of_ascii c in
  in_range 48 57 n || in_range 65 90 n || in_range 97 122 n || Nat.eqb n 95.

Definition is_space (c : ascii) : bool :=
  let n := nat_of_ascii c in in_range 9 13 n || Nat.eqb n 32.

Definition is_line_terminator (c : ascii) : bool :=
  let n := nat_of_ascii c in Nat.eqb n 10 || Nat.eqb n 13.

Definition item_matches (c : ascii) (i : class_item) : bool :=
  match i with
  | CChar c' => (c =? c')%char
  | CRange lo hi => in_range (nat_of_ascii lo) (nat_of_ascii hi) (nat_of_ascii c)
  | CDigit neg => xorb neg (is_digit c)
  | CWord neg => xorb neg (is_word c)
  | CSpace neg => xorb neg (is_space c)
  end.

Definition bracket_matches (negated : bool) (items : list class_item) (c : ascii) : bool :=
  xorb negated (existsb (item_matches c) items).

(** *** The parser *)

Definition error_paren := RegexError "Mismatched '(' and ')' in regular expression".
Definition error_brack := RegexError "Mismatched '[' and ']' in regular expression".
Definition error_brace := RegexError "Mismatched '{' and '}' in regular expression".
Definition error_badbrace := RegexError "Invalid range in '{}' in regular expression".
Definition error_range := RegexError "Invalid character range in bracket expression".
Definition error_escape := RegexError "Invalid escape in regular expression".
Definition error_badrepeat := RegexError "Invalid '?', '*', or '+' in regular expression".
Definition error_backref := RegexError "Invalid back reference in regular expression".
Definition error_space :=
  RegexError "There was insufficient memory to convert the expression into a finite state machine".
Definition error_complexity :=
  RegexError "The complexity of an attempted match against a regular expression exceeded a pre-set level".

(** The class or character an escape stands for. *)
Definition escape_item (c : ascii) : regex_error + class_item :=
  if (c =? "d")%char then inr (CDigit false)
  else if (c =? "D")%char then inr (CDigit true)
  else if (c =? "w")%char then inr (CWord false)
  else if (c =? "W")%char then inr (CWord true)
  else if (c =? "s")%char then inr (CSpace false)
  else if (c =? "S")%char then inr (CSpace true)
  else if (c =? "t")%char then inr (CChar (ascii_of_nat 9))
  else if (c =? "n")%char then inr (CChar (ascii_of_nat 10))
  else if (c =? "v")%char then inr (CChar (ascii_of_nat 11))
  else if (c =? "f")%char then inr (CChar (ascii_of_nat 12))
  else if (c =? "r")%char then inr (CChar (ascii_of_nat 13))
  else if is_digit c then inl error_backref
  else if is_word c then inl error_escape
  else inr (CChar c).

Definition item_node (i : class_item) : node :=
  match i with
  | CChar c => Char c
  | _ => Bracket false [i]
  end.

(** The items of a bracket expression, after [[] or [[^], to the closing
    bracket. *)
Fixpoint bracket_items (inp : str) : regex_error + (list class_item * str) :=
  match inp with
  | [] => inl error_brack
  | c :: r =>
      if (c =? "]")%char then inr ([], r)
      else if (c =? "[")%char then inl error_brack
      else if (c =? "\")%char then
        match r with
        | [] => inl error_escape
        | e :: r' =>
            match escape_item e, bracket_items r' with
            | inl err, _ => inl err
            | _, inl err => inl err
            | inr i, inr (its, rest) => inr (i :: its, rest)
            end
        end
      else
        match r with
        | dash :: hi :: r' =>
            if (dash =? "-")%char && negb (hi =? "]")%char then
              if (hi =? "\")%char || (hi =? "[")%char then inl error_range
              else if Nat.ltb (nat_of_ascii hi) (nat_of_ascii c) then inl error_range
              else match bracket_items r' with
                   | inl err => inl err
                   | inr (its, rest) => inr (CRange c hi :: its, rest)
                   end
            else match bracket_items r with
                 | inl err => inl err
                 | inr (its, rest) => inr (CChar c :: its, rest)
                 end
        | _ => match bracket_items r with
               | inl err => inl err
               | inr (its, rest) => inr (CChar c :: its, rest)
               end
        end
  end.

Fixpoint digits (inp : str) (acc : nat) : nat * str :=
  match inp with
  | c :: r => if is_digit c then digits r (10 * acc + digit_value c) else (acc, inp)
  | [] => (acc, [])
  end.

(** The bounds between braces, after [{]. *)
Definition braces (inp : str) : regex_error + (nat * option nat * str) :=
  match inp with
  | [] => inl error_brace
  | c :: _ =>
      if is_digit c then
        let (lo, r) := digits inp 0 in
        match r with
        | "}"%char :: rest => inr (lo, Some lo, rest)
        | ","%char :: "}"%char :: rest => inr (lo, None, rest)
        | ","%char :: ((d :: _) as r') =>
            if is_digit d then
              let (hi, r'') := digits r' 0 in
              match r'' with
              | "}"%char :: rest =>
                  if Nat.ltb hi lo then inl error_badbrace else inr (lo, Some hi, rest)
              | _ => inl error_brace
              end
            else inl error_badbrace
        | [] => inl error_brace
        | _ => inl error_badbrace
        end
      else inl error_badbrace
  end.

Definition lazy_mark (inp : str) : bool * str :=
  match inp with
  | "?"%char :: r => (false, r)
  | _ => (true, inp)
  end.

(** The quantifier after an atom, if there is one. *)
Definition quantified (atom : node) (inp : str) : regex_error + (node * str) :=
  match inp with
  | "*"%char :: r => let (g, r') := lazy_mark r in inr (Repeat 0 None g atom, r')
  | "+"%char :: r => let (g, r') := lazy_mark r in inr (Repeat 1 None g atom, r')
  | "?"%char :: r => let (g, r') := lazy_mark r in inr (Repeat 0 (Some 1) g atom, r')
  | "{"%char :: r =>
      match braces r with
      | inl e => inl e
      | inr (lo, hi, r') => let (g, r'') := lazy_mark r' in inr (Repeat lo hi g atom, r'')
      end
  | _ => inr (atom, inp)
  end.

Fixpoint alternation (alts : list node) : node :=
  match alts with
  | [] => Empty
  | [a] => a
  | a :: rest => Alt a (alternation rest)
  end.

Definition parsed := (regex_error + (list node * str * nat))%type.

(** A disjunction, up to the end of the pattern or an unmatched [)]:
    its alternatives, what is left of the input, and the number of groups
    opened so far.  Every call reads a character before it calls again, so
    the fuel [compile] gives lasts. *)
Fixpoint disjunction (fuel : nat) (inp : str) (groups : nat) : parsed :=
  match fuel with
  | 0 => inl error_space
  | S fuel' =>
      let continue_with (t : node) (rest : str) (groups' : nat) : parsed :=
        match quantified t rest with
        | inl e => inl e
        | inr (t', rest') =>
            match disjunction fuel' rest' groups' with
            | inl e => inl e
            | inr (a :: alts, rest'', g) => inr (Seq t' a :: alts, rest'', g)
            | inr ([], rest'', g) => inr ([t'], rest'', g)
            end
        end in
      let assertion (t : node) (rest : str) : parsed :=
        match disjunction fuel' rest groups with
        | inl e => inl e
        | inr (a :: alts, rest', g) => inr (Seq t a :: alts, rest', g)
        | inr ([], rest', g) => inr ([t], rest', g)
        end in
      match inp with
      | [] => inr ([Empty], [], groups)
      | c :: r =>
          if (c =? ")")%char then inr ([Empty], inp, groups)
          else if (c =? "|")%char then
            match disjunction fuel' r groups with
            | inl e => inl e
            | inr (alts, rest, g) => inr (Empty :: alts, rest, g)
            end
          else if (c =? "*")%char || (c =? "+")%char || (c =? "?")%char
                  || (c =? "{")%char then inl error_badrepeat
          else if (c =? "^")%char then assertion Bol r
          else if (c =? "$")%char then assertion Eol r
          else if (c =? ".")%char then continue_with AnyChar r groups
          else if (c =? "\")%char then
            match r with
            | [] => inl error_escape
            | e :: r' =>
                match escape_item e with
                | inl err => inl err
                | inr i => continue_with (item_node i) r' groups
                end
            end
          else if (c =? "[")%char then
            let (negated, r') :=
              match r with
              | "^"%char :: r' => (true, r')
              | _ => (false, r)
              end in
            match bracket_items r' with
            | inl err => inl err
            | inr (items, rest) => continue_with (Bracket negated items) rest groups
            end
          else if (c =? "(")%char then
            match r with
            | "?"%char :: ":"%char :: r' =>
                match disjunction fuel' r' groups with
                | inl e => inl e
                | inr (alts, ")"%char :: rest, g) =>
                    continue_with (alternation alts) rest g
                | inr _ => inl error_paren
                end
            | "?"%char :: _ => inl error_paren
            | _ =>
                match disjunction fuel' r (S groups) with
                | inl e => inl e
                | inr (alts, ")"%char :: rest, g) =>
                    continue_with (Group (S groups) (alternation alts)) rest g
                | inr _ => inl error_paren
                end
            end
          else continue_with (Char c) r groups
      end
  end.

Record regex := {
  re_node : node;
  mark_count : nat
}.

(** The assignment [pattern = arguments.pattern]: the whole pattern must
    be a disjunction; a closing parenthesis left over has none opening. *)
Definition compile (pattern : str) : regex_error + regex :=
  match disjunction (2 * List.length pattern + 2) pattern 0 with
  | inl e => inl e
  | inr (alts, [], g) => inr {| re_node := alternation alts; mark_count := g |}
  | inr (_, _ :: _, _) => inl error_paren
  end.

(** *** The matcher *)

(** The state of a match in progress: the offset reached, and the groups
    captured so far. *)
Record state := {
  pos : nat;
  caps : list sub_match
}.

Inductive outcome :=
| Found (x : state)
| Fail (budget : nat)
| Overflow.

Definition continuation := state -> nat -> outcome.

Fixpoint set_nth {A} (n : nat) (v : A) (l : list A) : list A :=
  match l, n with
  | [], _ => []
  | _ :: l', 0 => v :: l'
  | a :: l', S n' => a :: set_nth n' v l'
  end.

Definition set_cap (index : nat) (v : sub_match) (c : list sub_match) : list sub_match :=
  set_nth (index - 1) v c.

Fixpoint groups_of (r : node) : list nat :=
  match r with
  | Group i r' => i :: groups_of r'
  | Seq r1 r2 | Alt r1 r2 => groups_of r1 ++ groups_of r2
  | Repeat _ _ _ r' => groups_of r'
  | _ => []
  end.

Definition clear_caps (indices : list nat) (c : list sub_match) : list sub_match :=
  fold_left (fun c i => set_cap i None c) indices c.

Section Matcher.
Variables (s : str) (start : nat) (fl : match_flags).

Definition step_char (test : ascii -> bool) (k : continuation)
           (x : state) (b : nat) : outcome :=
  match nth_error s (pos x) with
  | Some c => if test c then k {| pos := S (pos x); caps := caps x |} b else Fail b
  | None => Fail b
  end.

(** The repetition of [body]: at least [min] and at most [max] times,
    with the captures of the body cleared on each round, and a round
    that matches the empty string refused once [min] is reached.  [n]
    bounds the rounds: [min] of them, then one for each character left;
    running out of it is reported like running out of budget. *)
Fixpoint repeat_loop (body : continuation -> continuation) (inner : list nat)
         (greedy : bool) (k : continuation)
         (n min : nat) (max : option nat) (x : state) (b : nat) : outcome :=
  match n with
  | 0 => Overflow
  | S n' =>
      match max with
      | Some 0 => k x b
      | _ =>
          let d : continuation := fun y b' =>
            if Nat.eqb min 0 && Nat.eqb (pos y) (pos x) then Fail b'
            else repeat_loop body inner greedy k n' (pred min) (option_map pred max) y b' in
          let xr := {| pos := pos x; caps := clear_caps inner (caps x) |} in
          if negb (Nat.eqb min 0) then body d xr b
          else if greedy then
            match body d xr b with
            | Fail b' => k x b'
            | o => o
            end
          else
            match k x b with
            | Fail b' => body d xr b'
            | o => o
            end
      end
  end.

(** [run r k x budget]: match [r] at [x], then go on with [k];
    every node entered costs one step of the budget. *)
Fixpoint run (r : node) (k : continuation) (x : state) (budget : nat) : outcome :=
  match budget with
  | 0 => Overflow
  | S b =>
      match r with
      | Empty => k x b
      | Char c => step_char (Ascii.eqb c) k x b
      | AnyChar => step_char (fun c => negb (is_line_terminator c)) k x b
      | Bracket negated items => step_char (bracket_matches negated items) k x b
      | Bol =>
          if Nat.eqb (pos x) start && negb (match_prev_avail fl) then k x b else Fail b
      | Eol => if Nat.eqb (pos x) (List.length s) then k x b else Fail b
      | Group i r' =>
          run r' (fun y b' =>
                    k {| pos := pos y;
                         caps := set_cap i (Some (pos x, pos y)) (caps y) |} b') x b
      | Seq r1 r2 => run r1 (fun y b' => run r2 k y b') x b
      | Alt r1 r2 =>
          match run r1 k x b with
          | Fail b' => run r2 k x b'
          | o => o
          end
      | Repeat min max greedy r' =>
          repeat_loop (run r') (groups_of r') greedy k
                      (min + (List.length s - pos x) + 1) min max x b
      end
  end.

(** The end of a match attempt begun at [i]. *)
Definition accept (i : nat) : continuation :=
  fun x b => if match_not_null fl && Nat.eqb (pos x) i then Fail b else Found x.

(** [regex_search]: the attempts at [i], [i + 1], ... ([n] of them), the
    first that succeeds; one attempt only under [match_continuous]. *)
Fixpoint scan (re : regex) (n i budget : nat) : regex_error + option match_results :=
  match n with
  | 0 => inr None
  | S n' =>
      match run (re_node re) (accept i)
                {| pos := i; caps := repeat None (mark_count re) |} budget with
      | Found y =>
          inr (Some {| m_first := i; m_second := pos y; m_groups := caps y |})
      | Overflow => inl error_complexity
      | Fail budget' =>
          if match_continuous fl then inr None else scan re n' (S i) budget'
      end
  end.

(** *** A match lies between the offset it was tried at and the end *)

Definition advancing (m : continuation -> continuation) : Prop :=
  forall k x b y,
    m k x b = Found y ->
    exists x' b',
      k x' b' = Found y /\ pos x <= pos x'
      /\ (pos x <= List.length s -> pos x' <= List.length s).

Lemma step_char_advancing test : advancing (step_char test).
Proof.
  intros k x b y. unfold step_char.
  destruct (nth_error s (pos x)) as [c|] eqn:Hc; try discriminate.
  destruct (test c); try discriminate.
  intros H. eexists _, _. split; [exact H|]. simpl.
  assert (pos x < List.length s) by (apply nth_error_Some; congruence).
  lia.
Qed.

Lemma repeat_advancing body inner greedy k :
  advancing body ->
  forall n min max x b y,
    repeat_loop body inner greedy k n min max x b = Found y ->
    exists x' b',
      k x' b' = Found y /\ pos x <= pos x'
      /\ (pos x <= List.length s -> pos x' <= List.length s).
Proof.
  intros Hbody. induction n as [|n IH]; intros min max x b y; simpl; [discriminate|].
  set (d := fun (y0 : state) (b' : nat) =>
              if Nat.eqb min 0 && Nat.eqb (pos y0) (pos x) then Fail b'
              else repeat_loop body inner greedy k n (pred min) (option_map pred max) y0 b').
  set (xr := {| pos := pos x; caps := clear_caps inner (caps x) |}).
  assert (Hd : forall b0, body d xr b0 = Found y ->
            exists x' b', k x' b' = Found y /\ pos x <= pos x'
                          /\ (pos x <= List.length s -> pos x' <= List.length s)).
  { intros b0 H. apply Hbody in H as (x1 & b1 & Hd1 & Hle & Hlen). simpl in Hle, Hlen.
    unfold d in Hd1. destruct (Nat.eqb min 0 && Nat.eqb (pos x1) (pos x)); try discriminate.
    apply IH in Hd1 as (x2 & b2 & Hk & Hle2 & Hlen2).
    exists x2, b2. repeat split; auto; lia. }
  assert (Hk : forall b0, k x b0 = Found y ->
            exists x' b', k x' b' = Found y /\ pos x <= pos x'
                          /\ (pos x <= List.length s -> pos x' <= List.length s)).
  { intros b0 H. exists x, b0. auto. }
  destruct max as [[|max]|].
  - apply Hk.
  - destruct (negb (Nat.eqb min 0)); [apply Hd|]. destruct greedy.
    + destruct (body d xr b) as [y'|b'|] eqn:E; try discriminate.
      * intros H; injection H as ->. eapply Hd; eauto.
      * apply Hk.
    + destruct (k x b) as [y'|b'|] eqn:E; try discriminate.
      * intros H; injection H as ->. eapply Hk; eauto.
      * apply Hd.
  - destruct (negb (Nat.eqb min 0)); [apply Hd|]. destruct greedy.
    + destruct (body d xr b) as [y'|b'|] eqn:E; try discriminate.
      * intros H; injection H as ->. eapply Hd; eauto.
      * apply Hk.
    + destruct (k x b) as [y'|b'|] eqn:E; try discriminate.
      * intros H; injection H as ->. eapply Hk; eauto.
      * apply Hd.
Qed.

Lemma run_advancing r : advancing (run r).
Proof.
  induction r as [| c | | negated items | | | i r IH | r1 IH1 r2 IH2 | r1 IH1 r2 IH2
                  | min max greedy r IH];
    intros k x [|b] y; simpl; try discriminate.
  - intros H; exists x, b; auto.
  - apply step_char_advancing.
  - apply step_char_advancing.
  - apply step_char_advancing.
  - destruct (Nat.eqb (pos x) start && negb (match_prev_avail fl)); try discriminate.
    intros H; exists x, b; auto.
  - destruct (Nat.eqb (pos x) (List.length s)); try discriminate.
    intros H; exists x, b; auto.
  - intros H. apply IH in H as (x1 & b1 & Hk & Hle & Hlen).
    eexists _, _. split; [exact Hk|]. simpl. auto.
  - intros H. apply IH1 in H as (x1 & b1 & H2 & Hle & Hlen).
    apply IH2 in H2 as (x2 & b2 & Hk & Hle2 & Hlen2).
    exists x2, b2. repeat split; auto; lia.
  - destruct (run r1 k x b) as [y'|b'|] eqn:E; try discriminate.
    + intros H; injection H as ->. eapply IH1; eauto.
    + apply IH2.
  - apply repeat_advancing. exact IH.
Qed.

Lemma scan_range re : forall n i budget m,
  i + n = S (List.length s) ->
  scan re n i budget = inr (Some m) ->
  i <= m_first m /\ m_first m <= m_second m /\ m_second m <= List.length s
  /\ (match_not_null fl = true -> m_first m < m_second m).
Proof.
  induction n as [|n IH]; intros i budget m Hn; simpl; [discriminate|].
  destruct (run (re_node re) (accept i) _ budget) as [y|b'|] eqn:E; try discriminate.
  - intros H; injection H as <-. simpl.
    apply run_advancing in E as (x' & b' & Hacc & Hle & Hlen). simpl in Hle, Hlen.
    unfold accept in Hacc.
    destruct (match_not_null fl) eqn:Hnn; simpl in Hacc.
    + destruct (Nat.eqb_spec (pos x') i); try discriminate.
      injection Hacc as <-. repeat split; lia.
    + injection Hacc as <-. repeat split; try lia; discriminate.
  - destruct (match_continuous fl); try discriminate.
    intros H. apply IH in H as (H1 & H2 & H3 & H4); [|lia].
    repeat split; auto; lia.
Qed.
End Matcher.

(** [std::regex_search] on the part of [s] from [start], with a budget of
    [limit] steps. *)
Definition search (limit : nat) (re : regex) (fl : match_flags) (s : str) (start : nat)
  : regex_error + option match_results :=
  scan s start fl re (S (List.length s) - start) start limit.

Lemma search_in_range limit re fl s start m :
  search limit re fl s start = inr (Some m) ->
  start <= m_first m /\ m_first m <= m_second m /\ m_second m <= List.length s.
Proof.
  unfold search. intros H.
  destruct (Nat.le_gt_cases start (List.length s)) as [Hle|Hgt].
  - apply scan_range in H; [tauto | lia].
  - replace (S (List.length s) - start) with 0 in H by lia. discriminate.
Qed.

Lemma search_honours_not_null limit re fl s start m :
  match_not_null fl = true ->
  search limit re fl s start = inr (Some m) ->
  m_first m < m_second m.
Proof.
  unfold search. intros Hnn H.
  destruct (Nat.le_gt_cases start (List.length s)) as [Hle|Hgt].
  - apply scan_range in H; [tauto | lia].
  - replace (S (List.length s) - start) with 0 in H by lia. discriminate.
Qed.

(** The engine with a budget of [limit] steps for each search. *)
Definition engine (limit : nat) : Engine :=
  {| Regex.regex := regex;
     Regex.compile := compile;
     Regex.search := search limit;
     Regex.search_range := search_in_range limit;
     Regex.search_not_null := search_honours_not_null limit |}.

End Ecma.

(** ** The filesystem calls

    [directory_iterator] and [recursive_directory_iterator] give the
    entries in the order the iteration yields them, which the library
    leaves unspecified; every call may throw
    [std::filesystem::filesystem_error].  A state is the filesystem as
    the process sees it: what a relative path names is part of the
    state, so the same files seen from another working directory make
    another state. *)

Module Fs.

Record FileSystem := {
  state : Type;
  directory_iterator : state -> Path.t -> filesystem_error + list Path.t;
  recursive_directory_iterator : state -> Path.t -> filesystem_error + list Path.t;
  is_regular_file : state -> Path.t -> filesystem_error + bool;
  rename : state -> Path.t -> Path.t -> filesystem_error + state
}.

End Fs.

(** An in-memory filesystem: the paths that exist, each a regular file or
    a directory, in the order a directory iteration yields them.  Paths are
    taken as they are written, without resolving [.] or [..]. *)

Module MemFs.

Inductive file_type := Regular | Directory.

Definition state := list (Path.t * file_type).

Fixpoint lookup (st : state) (p : Path.t) : option file_type :=
  match st with
  | [] => None
  | (q, k) :: st' => if str_eqb p q then Some k else lookup st' p
  end.

Fixpoint strip_prefix (prefix p : str) : option str :=
  match prefix, p with
  | [], _ => Some p
  | a :: prefix', b :: p' => if (a =? b)%char then strip_prefix prefix' p' else None
  | _ :: _, [] => None
  end.

(** What is below [base]: the path relative to it. *)
Definition below (base p : Path.t) : option str :=
  strip_prefix (if Path.has_filename base then base ++ "/" else base) p.

Definition is_child (base : Path.t) (entry : Path.t * file_type) : bool :=
  match below base (fst entry) with
  | Some (_ :: _ as name) => negb (Path.has_sep name)
  | _ => false
  end.

Definition is_descendant (base : Path.t) (entry : Path.t * file_type) : bool :=
  match below base (fst entry) with
  | Some (_ :: _) => true
  | _ => false
  end.

Definition error (what : str) (p : Path.t) : filesystem_error :=
  FilesystemError ("filesystem error: " ++ what ++ " [" ++ p ++ "]").

Definition error2 (what : str) (p q : Path.t) : filesystem_error :=
  FilesystemError ("filesystem error: " ++ what ++ " [" ++ p ++ "] [" ++ q ++ "]").

Definition iterate (select : Path.t -> Path.t * file_type -> bool)
           (st : state) (base : Path.t) : filesystem_error + list Path.t :=
  match lookup st base with
  | Some Directory => inr (map fst (filter (select base) st))
  | Some Regular => inl (error "directory iterator cannot open directory: Not a directory" base)
  | None => inl (error "directory iterator cannot open directory: No such file or directory" base)
  end.

Definition is_regular_file (st : state) (p : Path.t) : filesystem_error + bool :=
  match lookup st p with
  | Some Regular => inr true
  | _ => inr false
  end.

Definition remove (st : state) (p : Path.t) : state :=
  filter (fun e => negb (str_eqb (fst e) p)) st.

(** [rename(2)] for a regular file: the source must exist; a directory in
    the way of the destination is an error; a file there is replaced. *)
Definition rename (st : state) (src dst : Path.t) : filesystem_error + state :=
  match lookup st src with
  | None => inl (error2 "cannot rename: No such file or directory" src dst)
  | Some Directory =>
      match lookup st dst with
      | Some _ => inl (error2 "cannot rename: File exists" src dst)
      | None => inr (remove st src ++ [(dst, Directory)])
      end
  | Some Regular =>
      match lookup st dst with
      | Some Directory => inl (error2 "cannot rename: Is a directory" src dst)
      | _ => inr (remove (remove st src) dst ++ [(dst, Regular)])
      end
  end.

Definition filesystem : Fs.FileSystem :=
  {| Fs.state := state;
     Fs.directory_iterator := iterate is_child;
     Fs.recursive_directory_iterator := iterate is_descendant;
     Fs.is_regular_file := is_regular_file;
     Fs.rename := rename |}.

End MemFs.

(** ** The program *)

(** [struct arguments], as [argp_parse] fills it through [parse_option]:
    the first two positional arguments are required, so [pattern] and
    [replacement] are set; [path] may be null. *)
Record arguments := {
  pattern : str;
  replacement : str;
  path : option str;
  dry_run : bool;
  recursive : bool;
  quiet : bool
}.

Definition error_prefix : str := "rename: ".
Definition EXIT_FAILURE : nat := 1.

(** What [std::endl] writes. *)
Definition endl : str := [ascii_of_nat 10].

Section Program.
Context (E : Regex.Engine) (F : Fs.FileSystem).

(** What the process does to the outside, in the order it does it: the
    text sent to [std::cout] and [std::cerr] by each [<<], the directory
    iterators it constructs, the [std::filesystem::rename] calls. *)
Inductive event :=
| Cout (text : str)
| Cerr (text : str)
| OpenDir (recursively : bool) (base : Path.t)
| SysRename (src dst : Path.t).

Record world := {
  fs : Fs.state F;
  cwd : filesystem_error + Path.t;   (* what [current_path()] gives *)
  log : list event
}.

(** How a computation ends: normally, by [exit(status)], or by an
    exception nothing catches. *)
Inductive control (A : Type) :=
| Normal (a : A)
| Exit (status : nat)
| Uncaught (e : filesystem_error).
Arguments Normal {A} a.
Arguments Exit {A} status.
Arguments Uncaught {A} e.

Definition M (A : Type) := world -> control A * world.

Definition ret {A} (a : A) : M A := fun w => (Normal a, w).

Definition bind {A B} (m : M A) (k : A -> M B) : M B :=
  fun w =>
    match m w with
    | (Normal a, w') => k a w'
    | (Exit c, w') => (Exit c, w')
    | (Uncaught e, w') => (Uncaught e, w')
    end.

Notation "x <- m ;; k" := (bind m (fun x => k))
  (at level 61, m at next level, right associativity).
Notation "m ;; k" := (bind m (fun _ => k))
  (at level 61, right associativity).

Definition emit (e : event) : M unit :=
  fun w => (Normal tt, {| fs := fs w; cwd := cwd w; log := log w ++ [e] |}).

Definition cout (text : str) : M unit := emit (Cout text).
Definition cerr (text : str) : M unit := emit (Cerr text).
Definition exit {A} (status : nat) : M A := fun w => (Exit status, w).
Definition throw {A} (e : filesystem_error) : M A := fun w => (Uncaught e, w).

(** The handler of the fatal errors:
    [std::cerr << error_prefix << e.what() << std::endl; exit(EXIT_FAILURE)]. *)
Definition fatal {A} (what : str) : M A :=
  cerr error_prefix ;; cerr what ;; cerr endl ;; exit EXIT_FAILURE.

(** [std::filesystem::rename(src, dst)] inside its [try]: the exception,
    if any, is handed to the handler. *)
Definition sys_rename (src dst : Path.t) : M (option filesystem_error) :=
  fun w =>
    let log' := log w ++ [SysRename src dst] in
    match Fs.rename F (fs w) src dst with
    | inl e => (Normal (Some e), {| fs := fs w; cwd := cwd w; log := log' |})
    | inr st => (Normal None, {| fs := st; cwd := cwd w; log := log' |})
    end.

(** The lambda [path_display_name]. *)
Definition path_display_name (recursive : bool) (current : filesystem_error + Path.t)
           (p : Path.t) : filesystem_error + str :=
  if recursive then Path.absolute current p else inr (Path.filename p).

(** A call of it, outside any [try]. *)
Definition display (args : arguments) (p : Path.t) : M str :=
  fun w =>
    match path_display_name (recursive args) (cwd w) p with
    | inl e => (Uncaught e, w)
    | inr text => (Normal text, w)
    end.

(** The body of the loop over the entries (lines 123-153). *)
Definition process_entry (args : arguments) (re : Regex.regex E) (in_entry : Path.t)
  : M unit :=
  let in_filename := Path.filename in_entry in
  out_filename <-
    match Regex.regex_replace E re in_filename (replacement args) with
    | inl e => fatal (regex_what e)
    | inr out => ret out
    end ;;
  if negb (str_eqb in_filename out_filename) then
    let out_entry := Path.replace_filename in_entry out_filename in
    (if negb (quiet args) then
       a <- display args in_entry ;;
       cout a ;; cout " -> " ;; cout (if dry_run args then "(dry run)" else "") ;;
       b <- display args out_entry ;;
       cout b ;; cout endl
     else ret tt) ;;
    (if negb (dry_run args) then
       failure <- sys_rename in_entry out_entry ;;
       match failure with
       | Some e => cerr error_prefix ;; cerr (fs_what e) ;; cerr endl
       | None => ret tt
       end
     else ret tt)
  else ret tt.

Fixpoint for_each {A} (l : list A) (body : A -> M unit) : M unit :=
  match l with
  | [] => ret tt
  | x :: l' => body x ;; for_each l' body
  end.

(** [iterator_to_files_transform]: the entries that are regular files,
    kept in iteration order; the status query of an entry may throw. *)
Fixpoint iterator_to_files_transform (st : Fs.state F) (it : list Path.t)
  : filesystem_error + list Path.t :=
  match it with
  | [] => inr []
  | e :: rest =>
      match Fs.is_regular_file F st e with
      | inl err => inl err
      | inr keep =>
          match iterator_to_files_transform st rest with
          | inl err => inl err
          | inr files => inr (if keep then e :: files else files)
          end
      end
  end.

(** The entries of lines 108-118, before they are sorted. *)
Definition enumerate (recursively : bool) (base : Path.t) (st : Fs.state F)
  : filesystem_error + list Path.t :=
  match (if recursively then Fs.recursive_directory_iterator F st base
         else Fs.directory_iterator F st base) with
  | inl e => inl e
  | inr it => iterator_to_files_transform st it
  end.

(** The base path of lines 90-100: the argument as it is, or
    [current_path()]. *)
Definition base_path (args : arguments) (w : world) : filesystem_error + Path.t :=
  match path args with
  | Some p => inr p
  | None => cwd w
  end.

(** The function [rename] of [main.cpp]. *)
Definition rename (args : arguments) : M unit :=
  re <-
    match Regex.compile E (pattern args) with
    | inl e => fatal (regex_what e)
    | inr re => ret re
    end ;;
  base <-
    (fun w =>
       match base_path args w with
       | inl e => fatal (fs_what e) w
       | inr p => ret p w
       end) ;;
  entries <-
    (emit (OpenDir (recursive args) base) ;;
     fun w =>
       match enumerate (recursive args) base (fs w) with
       | inl e => fatal (fs_what e) w
       | inr entries => ret entries w
       end) ;;
  for_each (sort Path.compare entries) (process_entry args re).

(** How the process ends. *)
Inductive process_status :=
| Exited (status : nat)
| Terminated.

(** [main], from the parsed arguments on: [rename(arguments); return 0;].
    An exception that leaves [rename] ends in [std::terminate].  The log
    holds what the statements of the program write; the message the
    runtime writes when it terminates the process is not in it. *)
Definition main (args : arguments) (w : world) : process_status * world :=
  match rename args w with
  | (Normal _, w') => (Exited 0, w')
  | (Exit status, w') => (Exited status, w')
  | (Uncaught _, w') => (Terminated, w')
  end.

(** *** What a log shows *)

Definition stdout_of (l : list event) : str :=
  flat_map (fun e => match e with Cout t => t | _ => [] end) l.

Definition stderr_of (l : list event) : str :=
  flat_map (fun e => match e with Cerr t => t | _ => [] end) l.

Definition renames_of (l : list event) : list (Path.t * Path.t) :=
  flat_map (fun e => match e with SysRename a b => [(a, b)] | _ => [] end) l.

Definition opened_of (l : list event) : list (bool * Path.t) :=
  flat_map (fun e => match e with OpenDir r b => [(r, b)] | _ => [] end) l.

End Program.

Arguments fs {F} w.
Arguments cwd {F} w.
Arguments log {F} w.
Arguments Build_world {F} fs cwd log.
Arguments Normal {A} a.
Arguments Exit {A} status.
Arguments Uncaught {A} e.

(** ** Properties of the loop body *)

Section Properties.
Context (E : Regex.Engine) (F : Fs.FileSystem).

(** The world with more events in its log. *)
Definition add (w : world F) (events : list event) : world F :=
  {| fs := fs w; cwd := cwd w; log := log w ++ events |}.

Lemma add_nil w : add w [] = w.
Proof. destruct w; unfold add; simpl. now rewrite app_nil_r. Qed.

Lemma add_add w l1 l2 : add (add w l1) l2 = add w (l1 ++ l2).
Proof. unfold add; simpl. now rewrite app_assoc. Qed.

Lemma emit_add e (w : world F) : emit F e w = (Normal tt, add w [e]).
Proof. reflexivity. Qed.

Lemma fatal_add (A : Type) what (w : world F) :
  @fatal F A what w = (Exit EXIT_FAILURE, add w [Cerr error_prefix; Cerr what; Cerr endl]).
Proof.
  unfold fatal, bind, cerr, exit. rewrite !emit_add, !add_add. reflexivity.
Qed.

(** The filename the substitution computes for an entry (lines 123-131). *)
Definition computed (args : arguments) (re : Regex.regex E) (in_entry : Path.t)
  : regex_error + str :=
  Regex.regex_replace E re (Path.filename in_entry) (replacement args).

(** The text [(dry run)] or nothing, as line 142 chooses. *)
Definition dry_run_mark (args : arguments) : str :=
  if dry_run args then "(dry run)" else "".

(** The events of the report of one entry, lines 137-144. *)
Definition report_events (args : arguments) (a b : str) : list event :=
  [Cout a; Cout " -> "; Cout (dry_run_mark args); Cout b; Cout endl].

(** The events of the rename of one entry, lines 146-152. *)
Definition rename_events (src dst : Path.t) (failure : option filesystem_error)
  : list event :=
  SysRename src dst ::
  match failure with
  | Some e => [Cerr error_prefix; Cerr (fs_what e); Cerr endl]
  | None => []
  end.

(** The apply step of one entry. *)
Definition apply_step (args : arguments) (src dst : Path.t) (w : world F) : world F :=
  if dry_run args then w
  else match Fs.rename F (fs w) src dst with
       | inl e => add w (rename_events src dst (Some e))
       | inr st => {| fs := st; cwd := cwd w; log := log w ++ rename_events src dst None |}
       end.

Lemma apply_step_run args src dst (w : world F) :
  (if negb (dry_run args) then
     bind F (sys_rename F src dst) (fun failure =>
       match failure with
       | Some e => bind F (cerr F error_prefix) (fun _ =>
                   bind F (cerr F (fs_what e)) (fun _ => cerr F endl))
       | None => ret F tt
       end)
   else ret F tt) w = (Normal tt, apply_step args src dst w).
Proof.
  unfold apply_step. destruct (dry_run args); simpl; [reflexivity|].
  unfold bind, sys_rename. destruct (Fs.rename F (fs w) src dst) as [e|st].
  - unfold cerr. rewrite !emit_add, !add_add.
    unfold add; simpl. now rewrite <- app_assoc.
  - reflexivity.
Qed.

(** The loop body, case by case. *)

Lemma process_entry_substitution_error args re in_entry w e :
  computed args re in_entry = inl e ->
  process_entry E F args re in_entry w
  = (Exit EXIT_FAILURE, add w [Cerr error_prefix; Cerr (regex_what e); Cerr endl]).
Proof.
  unfold computed, process_entry. intros ->.
  unfold bind at 1. now rewrite fatal_add.
Qed.

Lemma process_entry_unchanged args re in_entry w :
  computed args re in_entry = inr (Path.filename in_entry) ->
  process_entry E F args re in_entry w = (Normal tt, w).
Proof.
  unfold computed, process_entry. intros ->.
  unfold bind at 1, ret at 1. now rewrite str_eqb_refl.
Qed.

Lemma process_entry_quiet args re in_entry w out :
  computed args re in_entry = inr out ->
  out <> Path.filename in_entry ->
  quiet args = true ->
  process_entry E F args re in_entry w
  = (Normal tt, apply_step args in_entry (Path.replace_filename in_entry out) w).
Proof.
  unfold computed, process_entry. intros -> Hne Hq.
  unfold bind at 1, ret at 1.
  assert (Hneq : str_eqb (Path.filename in_entry) out = false)
    by (apply str_eqb_neq; congruence).
  rewrite Hneq, Hq. cbn [negb].
  unfold bind at 1, ret at 1. apply apply_step_run.
Qed.

Lemma process_entry_reported args re in_entry w out a b :
  computed args re in_entry = inr out ->
  out <> Path.filename in_entry ->
  quiet args = false ->
  path_display_name (recursive args) (cwd w) in_entry = inr a ->
  path_display_name (recursive args) (cwd w) (Path.replace_filename in_entry out) = inr b ->
  process_entry E F args re in_entry w
  = (Normal tt, apply_step args in_entry (Path.replace_filename in_entry out)
                           (add w (report_events args a b))).
Proof.
  unfold computed, process_entry. intros -> Hne Hq Ha Hb.
  unfold bind at 1, ret at 1.
  assert (Hneq : str_eqb (Path.filename in_entry) out = false)
    by (apply str_eqb_neq; congruence).
  rewrite Hneq, Hq. cbn [negb].
  unfold bind at 1.
  assert (Hrep :
    bind F (display F args in_entry) (fun a0 =>
      bind F (cout F a0) (fun _ =>
      bind F (cout F " -> ") (fun _ =>
      bind F (cout F (if dry_run args then "(dry run)" else "")) (fun _ =>
      bind F (display F args (Path.replace_filename in_entry out)) (fun b0 =>
      bind F (cout F b0) (fun _ => cout F endl)))))) w
    = (Normal tt, add w (report_events args a b))).
  { unfold bind, display, cout. rewrite Ha. rewrite !emit_add. simpl cwd. rewrite Hb.
    rewrite !emit_add, !add_add. reflexivity. }
  rewrite Hrep. apply apply_step_run.
Qed.

Lemma process_entry_display_throws_first args re in_entry w out e :
  computed args re in_entry = inr out ->
  out <> Path.filename in_entry ->
  quiet args = false ->
  path_display_name (recursive args) (cwd w) in_entry = inl e ->
  process_entry E F args re in_entry w = (Uncaught e, w).
Proof.
  unfold computed, process_entry. intros -> Hne Hq Ha.
  unfold bind at 1, ret at 1.
  assert (Hneq : str_eqb (Path.filename in_entry) out = false)
    by (apply str_eqb_neq; congruence).
  rewrite Hneq, Hq. cbn [negb].
  unfold bind, display. now rewrite Ha.
Qed.

Lemma process_entry_display_throws_second args re in_entry w out a e :
  computed args re in_entry = inr out ->
  out <> Path.filename in_entry ->
  quiet args = false ->
  path_display_name (recursive args) (cwd w) in_entry = inr a ->
  path_display_name (recursive args) (cwd w) (Path.replace_filename in_entry out) = inl e ->
  process_entry E F args re in_entry w
  = (Uncaught e, add w [Cout a; Cout " -> "; Cout (dry_run_mark args)]).
Proof.
  unfold computed, process_entry. intros -> Hne Hq Ha Hb.
  unfold bind at 1, ret at 1.
  assert (Hneq : str_eqb (Path.filename in_entry) out = false)
    by (apply str_eqb_neq; congruence).
  rewrite Hneq, Hq. cbn [negb].
  unfold bind, display, cout. rewrite Ha. rewrite !emit_add. simpl cwd. rewrite Hb.
  rewrite !add_add. reflexivity.
Qed.

(** ** The plan of a run, and what carrying it out gives

    The loop read as the specification reads it: each entry whose computed
    filename differs gets a destination; the pairs are reported, and
    applied in order. *)

Definition destination (args : arguments) (re : Regex.regex E) (in_entry : Path.t)
  : option Path.t :=
  match computed args re in_entry with
  | inr out =>
      if str_eqb (Path.filename in_entry) out then None
      else Some (Path.replace_filename in_entry out)
  | inl _ => None
  end.

Definition planned (args : arguments) (re : Regex.regex E) (entries : list Path.t)
  : list (Path.t * Path.t) :=
  flat_map (fun e => match destination args re e with
                     | Some d => [(e, d)]
                     | None => []
                     end) entries.

(** The renames applied in order to a filesystem state: the state reached
    and the errors met; an error leaves the state as it was. *)
Fixpoint replay (st : Fs.state F) (plan : list (Path.t * Path.t))
  : Fs.state F * list filesystem_error :=
  match plan with
  | [] => (st, [])
  | (src, dst) :: rest =>
      match Fs.rename F st src dst with
      | inl e => let (st', errs) := replay st rest in (st', e :: errs)
      | inr st1 => replay st1 rest
      end
  end.

Lemma replay_app st p1 p2 :
  replay st (p1 ++ p2)
  = let (st1, e1) := replay st p1 in
    let (st2, e2) := replay st1 p2 in (st2, e1 ++ e2).
Proof.
  revert st; induction p1 as [|[src dst] p1 IH]; intros st; simpl.
  - now destruct (replay st p2).
  - destruct (Fs.rename F st src dst) as [e|st1].
    + rewrite IH. destruct (replay st p1) as [st1 e1].
      now destruct (replay st1 p2).
    + apply IH.
Qed.

Definition display_text (args : arguments) (current : filesystem_error + Path.t)
           (p : Path.t) : str :=
  match path_display_name (recursive args) current p with
  | inr text => text
  | inl _ => []
  end.

(** The report line of a planned rename, as the specification words it. *)
Definition report_line (args : arguments) (current : filesystem_error + Path.t)
           (r : Path.t * Path.t) : str :=
  if dry_run args
  then display_text args current (fst r) ++ " -> (dry run)" ++ display_text args current (snd r)
  else display_text args current (fst r) ++ " -> " ++ display_text args current (snd r).

Definition diagnostic (e : filesystem_error) : str :=
  error_prefix ++ fs_what e ++ endl.

Definition is_ok {A B} (r : A + B) : bool :=
  match r with inr _ => true | inl _ => false end.

(** No fatal condition at an entry: the substitution returns, and the
    display names the report needs can be computed. *)
Definition no_fatal (args : arguments) (current : filesystem_error + Path.t)
           (re : Regex.regex E) (in_entry : Path.t) : bool :=
  match computed args re in_entry with
  | inl _ => false
  | inr out =>
      str_eqb (Path.filename in_entry) out
      || quiet args
      || (is_ok (path_display_name (recursive args) current in_entry)
          && is_ok (path_display_name (recursive args) current
                      (Path.replace_filename in_entry out)))
  end.

(** What a completed stretch of the run has done, from [w] to [w']. *)
Record effect (args : arguments) (w w' : world F)
       (reports plan : list (Path.t * Path.t)) : Prop := {
  eff_cwd : cwd w' = cwd w;
  eff_fs : fs w' = fst (replay (fs w) plan);
  eff_stdout : stdout_of (log w')
               = stdout_of (log w)
                 ++ flat_map (fun r => report_line args (cwd w) r ++ endl) reports;
  eff_stderr : stderr_of (log w')
               = stderr_of (log w) ++ flat_map diagnostic (snd (replay (fs w) plan));
  eff_renames : renames_of (log w') = renames_of (log w) ++ plan;
  eff_opened : opened_of (log w') = opened_of (log w)
}.

Lemma effect_refl args w : effect args w w [] [].
Proof. constructor; simpl; now rewrite ?app_nil_r. Qed.

Lemma effect_trans args w w1 w2 r1 r2 p1 p2 :
  effect args w w1 r1 p1 -> effect args w1 w2 r2 p2 ->
  effect args w w2 (r1 ++ r2) (p1 ++ p2).
Proof.
  intros [c1 f1 o1 e1 n1 d1] [c2 f2 o2 e2 n2 d2].
  constructor.
  - congruence.
  - rewrite f2, f1, replay_app.
    destruct (replay (fs w) p1) as [sa ea]; simpl.
    now destruct (replay sa p2).
  - rewrite o2, o1, c1, flat_map_app. now rewrite app_assoc.
  - rewrite e2, e1, f1, replay_app.
    destruct (replay (fs w) p1) as [sa ea]; simpl.
    destruct (replay sa p2) as [sb eb]; simpl.
    now rewrite flat_map_app, app_assoc.
  - rewrite n2, n1. now rewrite app_assoc.
  - congruence.
Qed.

Lemma effect_report args w a b src dst :
  path_display_name (recursive args) (cwd w) src = inr a ->
  path_display_name (recursive args) (cwd w) dst = inr b ->
  effect args w (add w (report_events args a b)) [(src, dst)] [].
Proof.
  intros Ha Hb. constructor; simpl; try reflexivity.
  - unfold stdout_of, report_line, display_text, report_events, dry_run_mark, endl.
    simpl fst; simpl snd.
    rewrite Ha, Hb, flat_map_app.
    destruct (dry_run args); simpl; now rewrite ?app_nil_r, <- ?app_assoc.
  - unfold stderr_of. rewrite flat_map_app. simpl. now rewrite !app_nil_r.
  - unfold renames_of. rewrite flat_map_app. simpl. now rewrite !app_nil_r.
  - unfold opened_of. rewrite flat_map_app. simpl. now rewrite !app_nil_r.
Qed.

Lemma effect_apply args w src dst :
  effect args w (apply_step args src dst w) []
         (if dry_run args then [] else [(src, dst)]).
Proof.
  unfold apply_step. destruct (dry_run args); [apply effect_refl|].
  simpl. destruct (Fs.rename F (fs w) src dst) as [e|st] eqn:Hr; constructor; simpl;
    rewrite ?Hr; simpl; try reflexivity;
    unfold stdout_of, stderr_of, renames_of, opened_of, diagnostic, endl;
    rewrite ?flat_map_app; simpl; rewrite ?app_nil_r; reflexivity.
Qed.

(** A run of the loop in which no fatal condition arises completes, and
    has reported and applied the plan. *)
Lemma loop_completes args re : forall entries w,
  forallb (no_fatal args (cwd w) re) entries = true ->
  exists w',
    for_each F entries (process_entry E F args re) w = (Normal tt, w')
    /\ effect args w w'
         (if quiet args then [] else planned args re entries)
         (if dry_run args then [] else planned args re entries).
Proof.
  induction entries as [|e entries IH]; intros w Hok.
  - exists w. split; [reflexivity|].
    destruct (quiet args), (dry_run args); apply effect_refl.
  - simpl in Hok. apply andb_true_iff in Hok as [He Hrest].
    assert (Hstep : exists w1,
      process_entry E F args re e w = (Normal tt, w1)
      /\ effect args w w1
           (if quiet args then [] else planned args re [e])
           (if dry_run args then [] else planned args re [e])).
    { unfold no_fatal in He. unfold planned, destination. simpl.
      destruct (computed args re e) as [err|out] eqn:Hc; [discriminate|].
      destruct (str_eqb (Path.filename e) out) eqn:Heq.
      - apply str_eqb_eq in Heq. subst out. exists w.
        split; [now apply process_entry_unchanged|].
        destruct (quiet args), (dry_run args); apply effect_refl.
      - apply str_eqb_neq in Heq. simpl in He.
        destruct (quiet args) eqn:Hq.
        + eexists. split; [apply process_entry_quiet; eauto; congruence|].
          simpl. rewrite ?app_nil_r.
          exact (effect_apply args w e (Path.replace_filename e out)).
        + simpl in He. apply andb_true_iff in He as [H1 H2].
          destruct (path_display_name (recursive args) (cwd w) e) as [|a] eqn:Ha;
            [discriminate|].
          destruct (path_display_name (recursive args) (cwd w)
                      (Path.replace_filename e out)) as [|b] eqn:Hb; [discriminate|].
          eexists. split; [eapply process_entry_reported; eauto; congruence|].
          simpl. rewrite ?app_nil_r.
          pose proof (effect_trans args _ _ _ _ _ _ _
                        (effect_report args w a b e _ Ha Hb)
                        (effect_apply args (add w (report_events args a b)) e
                                      (Path.replace_filename e out))) as Ht.
          simpl in Ht. destruct (dry_run args); exact Ht. }
    destruct Hstep as (w1 & Hrun & Heff).
    destruct (IH w1) as (w' & Hloop & Heff').
    { now rewrite (eff_cwd _ _ _ _ _ Heff). }
    exists w'. split.
    + simpl. unfold bind. now rewrite Hrun.
    + pose proof (effect_trans args _ _ _ _ _ _ _ Heff Heff') as Ht.
      unfold planned in *. simpl flat_map.
      destruct (quiet args), (dry_run args); simpl in Ht |- *;
        rewrite ?app_nil_r in Ht; exact Ht.
Qed.

End Properties.

Arguments add {F} w events.
Arguments apply_step {F} args src dst w.
Arguments replay {F} st plan.
Arguments effect {F} args w w' reports plan.

(** ** Properties of the run *)

Section Run.
Context (E : Regex.Engine) (F : Fs.FileSystem).

Lemma for_each_app {A} (l1 l2 : list A) (body : A -> M F unit) (w : world F) :
  for_each F (l1 ++ l2) body w
  = match for_each F l1 body w with
    | (Normal _, w1) => for_each F l2 body w1
    | (Exit c, w1) => (Exit c, w1)
    | (Uncaught e, w1) => (Uncaught e, w1)
    end.
Proof.
  revert w; induction l1 as [|x l1 IH]; intros w; simpl; [reflexivity|].
  unfold bind. destruct (body x w) as [[[]|c|e] w1]; auto.
Qed.

(** What no step of the loop body touches, however it ends: the working
    directory and the directory iterators; and under [dry_run], the
    filesystem. *)
Record frame (args : arguments) (w w' : world F) : Prop := {
  frame_cwd : cwd w' = cwd w;
  frame_log : exists events, log w' = log w ++ events /\ opened_of events = [];
  frame_dry_run : dry_run args = true ->
                  fs w' = fs w /\ renames_of (log w') = renames_of (log w);
  frame_quiet : quiet args = true -> stdout_of (log w') = stdout_of (log w)
}.

Lemma frame_refl args w : frame args w w.
Proof.
  constructor; auto. exists []. now rewrite app_nil_r.
Qed.

Lemma frame_trans args w w1 w2 : frame args w w1 -> frame args w1 w2 -> frame args w w2.
Proof.
  intros [c1 [ev1 [l1 o1]] d1 q1] [c2 [ev2 [l2 o2]] d2 q2]. constructor.
  - congruence.
  - exists (ev1 ++ ev2). split.
    + now rewrite l2, l1, app_assoc.
    + unfold opened_of in *. now rewrite flat_map_app, o1, o2.
  - intros H. destruct (d1 H), (d2 H). split; congruence.
  - intros H. rewrite (q2 H). auto.
Qed.

Lemma frame_add_cout args w texts :
  quiet args = false ->
  frame args w (add w (map Cout texts)).
Proof.
  intros Hq. constructor; simpl; auto.
  - exists (map Cout texts). split; [reflexivity|].
    unfold opened_of. induction texts; simpl; auto.
  - intros _. split; [reflexivity|].
    unfold renames_of. rewrite flat_map_app.
    replace (flat_map _ (map Cout texts)) with (@nil (Path.t * Path.t));
      [now rewrite app_nil_r|].
    induction texts; simpl; auto.
  - congruence.
Qed.

Lemma frame_add_cerr args w texts : frame args w (add w (map Cerr texts)).
Proof.
  constructor; simpl; auto.
  - exists (map Cerr texts). split; [reflexivity|].
    unfold opened_of. induction texts; simpl; auto.
  - intros _. split; [reflexivity|].
    unfold renames_of. rewrite flat_map_app.
    replace (flat_map _ (map Cerr texts)) with (@nil (Path.t * Path.t));
      [now rewrite app_nil_r|].
    induction texts; simpl; auto.
  - intros _. unfold stdout_of. rewrite flat_map_app.
    replace (flat_map _ (map Cerr texts)) with (@nil ascii);
      [now rewrite app_nil_r|].
    induction texts; simpl; auto.
Qed.

Lemma frame_apply_step args src dst w : frame args w (apply_step args src dst w).
Proof.
  unfold apply_step. destruct (dry_run args) eqn:Hd; [apply frame_refl|].
  destruct (Fs.rename F (fs w) src dst) as [e|st]; constructor; simpl; auto;
    try congruence;
    try (eexists; split; [reflexivity|reflexivity]);
    intros _; unfold stdout_of; rewrite flat_map_app; simpl; now rewrite app_nil_r.
Qed.

Lemma process_entry_frame args re in_entry w :
  frame args w (snd (process_entry E F args re in_entry w)).
Proof.
  destruct (computed E args re in_entry) as [err|out] eqn:Hc.
  - rewrite (process_entry_substitution_error E F _ _ _ _ _ Hc). simpl.
    apply (frame_add_cerr args w [error_prefix; regex_what err; endl]).
  - destruct (list_eq_dec ascii_dec out (Path.filename in_entry)) as [->|Hne].
    + rewrite (process_entry_unchanged E F _ _ _ _ Hc). apply frame_refl.
    + destruct (quiet args) eqn:Hq.
      * rewrite (process_entry_quiet E F _ _ _ _ _ Hc Hne Hq). apply frame_apply_step.
      * destruct (path_display_name (recursive args) (cwd w) in_entry) as [e|a] eqn:Ha.
        { rewrite (process_entry_display_throws_first E F _ _ _ _ _ _ Hc Hne Hq Ha).
          apply frame_refl. }
        destruct (path_display_name (recursive args) (cwd w)
                    (Path.replace_filename in_entry out)) as [e|b] eqn:Hb.
        { rewrite (process_entry_display_throws_second E F _ _ _ _ _ _ _ Hc Hne Hq Ha Hb).
          apply (frame_add_cout args w [a; " -> " : str; dry_run_mark args] Hq). }
        rewrite (process_entry_reported E F _ _ _ _ _ _ _ Hc Hne Hq Ha Hb). simpl.
        eapply frame_trans; [|apply frame_apply_step].
        apply (frame_add_cout args w [a; " -> " : str; dry_run_mark args; b; endl] Hq).
Qed.

Lemma loop_frame args re : forall entries w,
  frame args w (snd (for_each F entries (process_entry E F args re) w)).
Proof.
  induction entries as [|e entries IH]; intros w; simpl; [apply frame_refl|].
  unfold bind. pose proof (process_entry_frame args re e w) as H1.
  destruct (process_entry E F args re e w) as [[[]|c|x] w1]; simpl in *; auto.
  eapply frame_trans; [exact H1 | apply IH].
Qed.

(** The loop stops at the first entry whose substitution throws; what the
    entries before it did stays done. *)
Lemma loop_stops_at_substitution_error args re before in_entry after w w1 e :
  for_each F before (process_entry E F args re) w = (Normal tt, w1) ->
  computed E args re in_entry = inl e ->
  for_each F (before ++ in_entry :: after) (process_entry E F args re) w
  = (Exit EXIT_FAILURE, add w1 [Cerr error_prefix; Cerr (regex_what e); Cerr endl]).
Proof.
  intros Hb Hc. rewrite for_each_app, Hb. simpl. unfold bind.
  now rewrite (process_entry_substitution_error E F _ _ _ _ _ Hc).
Qed.

Lemma rename_invalid_pattern args w e :
  Regex.compile E (pattern args) = inl e ->
  rename E F args w
  = (Exit EXIT_FAILURE, add w [Cerr error_prefix; Cerr (regex_what e); Cerr endl]).
Proof.
  intros H. unfold rename. rewrite H. unfold bind at 1. now rewrite fatal_add.
Qed.

(** Past the three fatal gates the run is the loop over the sorted
    entries. *)
Lemma rename_reaches_loop args w re base entries :
  Regex.compile E (pattern args) = inr re ->
  base_path F args w = inr base ->
  enumerate F (recursive args) base (fs w) = inr entries ->
  rename E F args w
  = for_each F (sort Path.compare entries) (process_entry E F args re)
             (add w [OpenDir (recursive args) base]).
Proof.
  intros Hc Hb He. unfold rename, bind, ret. rewrite Hc, Hb.
  rewrite emit_add. simpl fs. now rewrite He.
Qed.

End Run.

Arguments frame {F} args w w'.

(** ** What a whole run amounts to *)

Lemma renames_of_app l1 l2 : renames_of (l1 ++ l2) = renames_of l1 ++ renames_of l2.
Proof. apply flat_map_app. Qed.

Lemma stdout_of_app l1 l2 : stdout_of (l1 ++ l2) = stdout_of l1 ++ stdout_of l2.
Proof. apply flat_map_app. Qed.

Lemma stderr_of_app l1 l2 : stderr_of (l1 ++ l2) = stderr_of l1 ++ stderr_of l2.
Proof. apply flat_map_app. Qed.

Lemma opened_of_app l1 l2 : opened_of (l1 ++ l2) = opened_of l1 ++ opened_of l2.
Proof. apply flat_map_app. Qed.

(** The report lines of a run over [entries], as sent to [std::cout]. *)
Definition reports (E : Regex.Engine) (args : arguments)
           (current : filesystem_error + Path.t) (re : Regex.regex E)
           (entries : list Path.t) : str :=
  if quiet args then []
  else flat_map (fun r => report_line args current r ++ endl) (planned E args re entries).

(** A run that passes the three gates and meets no fatal condition in the
    loop: it returns, having reported and applied the plan over the sorted
    entries. *)
Lemma rename_completes (E : Regex.Engine) (F : Fs.FileSystem)
      (args : arguments) (w : world F) re base entries :
  Regex.compile E (pattern args) = inr re ->
  base_path F args w = inr base ->
  enumerate F (recursive args) base (fs w) = inr entries ->
  forallb (no_fatal E args (cwd w) re) (sort Path.compare entries) = true ->
  exists w',
    rename E F args w = (Normal tt, w')
    /\ cwd w' = cwd w
    /\ fs w' = fst (replay (fs w)
                      (if dry_run args then []
                       else planned E args re (sort Path.compare entries)))
    /\ stdout_of (log w')
       = stdout_of (log w) ++ reports E args (cwd w) re (sort Path.compare entries)
    /\ stderr_of (log w')
       = stderr_of (log w)
         ++ flat_map diagnostic
              (snd (replay (fs w)
                      (if dry_run args then []
                       else planned E args re (sort Path.compare entries))))
    /\ renames_of (log w')
       = renames_of (log w)
         ++ (if dry_run args then []
             else planned E args re (sort Path.compare entries))
    /\ opened_of (log w') = opened_of (log w) ++ [(recursive args, base)].
Proof.
  intros Hc Hb He Hok.
  rewrite (rename_reaches_loop E F args w re base entries Hc Hb He).
  destruct (loop_completes E F args re (sort Path.compare entries)
              (add w [OpenDir (recursive args) base]) Hok) as (w' & Hrun & Heff).
  exists w'. split; [exact Hrun|].
  destruct Heff as [c f o e n d]. simpl in *.
  unfold stdout_of, stderr_of, renames_of, opened_of in *.
  rewrite flat_map_app in o, e, n, d. simpl in o, e, n, d.
  rewrite app_nil_r in o, e, n.
  repeat split; auto.
  unfold reports. now destruct (quiet args).
Qed.

(** Under [dry_run] no path through [rename] touches the filesystem or
    calls [std::filesystem::rename], however the run ends. *)
Lemma rename_dry_run_pure (E : Regex.Engine) (F : Fs.FileSystem)
      (args : arguments) (w : world F) :
  dry_run args = true ->
  fs (snd (rename E F args w)) = fs w
  /\ renames_of (log (snd (rename E F args w))) = renames_of (log w).
Proof.
  intros Hdry.
  assert (Hcerr : forall what,
             fs (add w [Cerr error_prefix; Cerr what; Cerr endl]) = fs w
             /\ renames_of (log (add w [Cerr error_prefix; Cerr what; Cerr endl]))
                = renames_of (log w)).
  { intros what. split; [reflexivity|].
    cbn [add log]. rewrite renames_of_app. apply app_nil_r. }
  destruct (Regex.compile E (pattern args)) as [e|re] eqn:Hc.
  - rewrite (rename_invalid_pattern E F args w e Hc). apply Hcerr.
  - destruct (base_path F args w) as [e|base] eqn:Hb.
    + unfold rename, bind, ret. rewrite Hc, Hb, fatal_add. apply Hcerr.
    + destruct (enumerate F (recursive args) base (fs w)) as [e|entries] eqn:He.
      * unfold rename, bind, ret. rewrite Hc, Hb, emit_add. cbn [add fs].
        rewrite He, fatal_add, add_add. split; [reflexivity|].
        cbn [snd add log]. rewrite renames_of_app. apply app_nil_r.
      * rewrite (rename_reaches_loop E F args w re base entries Hc Hb He).
        destruct (frame_dry_run _ _ _ _
                    (loop_frame E F args re (sort Path.compare entries)
                                (add w [OpenDir (recursive args) base])) Hdry)
          as [Hfs Hren].
        split; [exact Hfs|]. rewrite Hren.
        cbn [add log]. rewrite renames_of_app. apply app_nil_r.
Qed.

(** ** The [quiet] flag *)

Definition with_quiet (args : arguments) (q : bool) : arguments :=
  {| pattern := pattern args; replacement := replacement args; path := path args;
     dry_run := dry_run args; recursive := recursive args; quiet := q |}.

(** As long as the display names can be computed, [quiet] silences
    [std::cout] and changes nothing else: the same renames are called, the
    filesystem ends the same, [std::cerr] holds the same diagnostics. *)
Lemma quiet_only_silences (E : Regex.Engine) (F : Fs.FileSystem)
      (args : arguments) (w : world F) re base entries :
  Regex.compile E (pattern args) = inr re ->
  base_path F args w = inr base ->
  enumerate F (recursive args) base (fs w) = inr entries ->
  forallb (no_fatal E (with_quiet args false) (cwd w) re)
          (sort Path.compare entries) = true ->
  exists w_loud w_quiet,
    main E F (with_quiet args false) w = (Exited 0, w_loud)
    /\ main E F (with_quiet args true) w = (Exited 0, w_quiet)
    /\ fs w_quiet = fs w_loud
    /\ renames_of (log w_quiet) = renames_of (log w_loud)
    /\ stderr_of (log w_quiet) = stderr_of (log w_loud)
    /\ stdout_of (log w_quiet) = stdout_of (log w).
Proof.
  intros Hc Hb He Hok.
  assert (Hok' : forallb (no_fatal E (with_quiet args true) (cwd w) re)
                         (sort Path.compare entries) = true).
  { rewrite forallb_forall in *. intros x Hx. specialize (Hok x Hx).
    unfold no_fatal, computed in *. cbn [with_quiet replacement quiet recursive] in *.
    destruct (Regex.regex_replace E re (Path.filename x) (replacement args));
      [discriminate|].
    now rewrite orb_true_r. }
  destruct (rename_completes E F (with_quiet args false) w re base entries Hc Hb He Hok)
    as (w1 & Hrun1 & _ & Hfs1 & _ & Herr1 & Hren1 & _).
  destruct (rename_completes E F (with_quiet args true) w re base entries Hc Hb He Hok')
    as (w2 & Hrun2 & _ & Hfs2 & Hout2 & Herr2 & Hren2 & _).
  exists w1, w2. unfold main. rewrite Hrun1, Hrun2.
  split; [reflexivity|]. split; [reflexivity|].
  split; [now rewrite Hfs1, Hfs2|]. split; [now rewrite Hren1, Hren2|].
  split; [now rewrite Herr1, Herr2|].
  rewrite Hout2. unfold reports. cbn [with_quiet quiet]. apply app_nil_r.
Qed.

(** ** A concrete setting

    The engine of [Ecma] with a budget of 200 steps for each search, and
    the in-memory filesystem. *)

Definition ecma : Regex.Engine := Ecma.engine 200.

Definition memfs : Fs.FileSystem := MemFs.filesystem.

(** Compile, then substitute: what one entry goes through. *)
Definition substitute (E : Regex.Engine) (pattern filename replacement : str)
  : regex_error + str :=
  match Regex.compile E pattern with
  | inl e => inl e
  | inr re => Regex.regex_replace E re filename replacement
  end.

(** The match of [(\d+)] in [a42b]. *)
Definition match_42 : Regex.match_results :=
  {| Regex.m_first := 1; Regex.m_second := 3; Regex.m_groups := [Some (1, 3)] |}.

(** A directory [d] with two files to rename and a directory [d/a] in the
    way of the first; the same directory iterated in another order. *)
Definition demo_fs : MemFs.state :=
  [("d" : str, MemFs.Directory); ("d/b.txt" : str, MemFs.Regular);
   ("d/a.txt" : str, MemFs.Regular); ("d/a" : str, MemFs.Directory)].

Definition demo_fs_reordered : MemFs.state :=
  [("d" : str, MemFs.Directory); ("d/a" : str, MemFs.Directory);
   ("d/a.txt" : str, MemFs.Regular); ("d/b.txt" : str, MemFs.Regular)].

Definition demo_world : world memfs :=
  {| fs := demo_fs : Fs.state memfs; cwd := inr ("/home/u" : str); log := [] |}.

Definition demo_world_reordered : world memfs :=
  {| fs := demo_fs_reordered : Fs.state memfs; cwd := inr ("/home/u" : str); log := [] |}.

(** [rename '(.)\.txt' '$1' d] *)
Definition demo_args : arguments :=
  {| pattern := "(.)\.txt"; replacement := "$1"; path := Some ("d" : str);
     dry_run := false; recursive := false; quiet := false |}.

Definition demo_args_dry_run : arguments :=
  {| pattern := "(.)\.txt"; replacement := "$1"; path := Some ("d" : str);
     dry_run := true; recursive := false; quiet := false |}.

Definition demo_args_recursive_dry_run : arguments :=
  {| pattern := "(.)\.txt"; replacement := "$1"; path := Some ("d" : str);
     dry_run := true; recursive := true; quiet := false |}.

Definition demo_re : Regex.regex ecma :=
  Eval vm_compute in
    match Ecma.compile "(.)\.txt" with
    | inr re => re
    | inl _ => {| Ecma.re_node := Ecma.Empty; Ecma.mark_count := 0 |}
    end.

Definition demo_entries : list Path.t := ["d/b.txt" : str; "d/a.txt" : str].

Definition demo_entries_reordered : list Path.t := ["d/a.txt" : str; "d/b.txt" : str].

(** The names of [demo_entries] under [d]. *)
Definition demo_names : list (list str) := [["b.txt" : str]; ["a.txt" : str]].

Lemma demo_names_valid names :
  In names demo_names -> names <> [] /\ Forall Path.valid_name names.
Proof.
  intros [<-|[<-|[]]]; (split; [discriminate|]);
    repeat constructor; discriminate.
Qed.

(** A directory with [a.txt] and a file whose name is so long that the
    search runs out of its budget. *)
Definition long_name : Path.t :=
  "d/zzzzzzzzzzzzzzzzzzzzzzzzzzzzzzzzzzzzzzzzzzzzzzzzzzzzzzzzzzzzzzzz".

Definition long_fs : MemFs.state :=
  [("d" : str, MemFs.Directory); (long_name, MemFs.Regular);
   ("d/a.txt" : str, MemFs.Regular)].

Definition long_world : world memfs :=
  {| fs := long_fs : Fs.state memfs; cwd := inr ("/home/u" : str); log := [] |}.

(** A working directory that [current_path()] cannot name (it has been
    removed), and a directory [../b] beside it with one file. *)
Definition lost_world : world memfs :=
  {| fs := [("../b" : str, MemFs.Directory); ("../b/foo" : str, MemFs.Regular)]
           : Fs.state memfs;
     cwd := inl (FilesystemError
                   "filesystem error: cannot get current path: No such file or directory");
     log := [] |}.

(** [rename -r foo bar ../b] *)
Definition lost_args : arguments :=
  {| pattern := "foo"; replacement := "bar"; path := Some ("../b" : str);
     dry_run := false; recursive := true; quiet := false |}.

(** * The claims *)

(** [file_(\d+)\.txt] and [a], compiled. *)
Definition file_re : Regex.regex ecma :=
  Eval vm_compute in
    match Ecma.compile "file_(\d+)\.txt" with
    | inr re => re
    | inl _ => {| Ecma.re_node := Ecma.Empty; Ecma.mark_count := 0 |}
    end.

Definition a_re : Regex.regex ecma :=
  Eval vm_compute in
    match Ecma.compile "a" with
    | inr re => re
    | inl _ => {| Ecma.re_node := Ecma.Empty; Ecma.mark_count := 0 |}
    end.

(** The match of [file_(\d+)\.txt] in [file_42.txt]: all of it, with
    [42] for group 1. *)
Definition match_file_42 : Regex.match_results :=
  {| Regex.m_first := 0; Regex.m_second := 11; Regex.m_groups := [Some (5, 7)] |}.

(** [rename file_(\d+)\.txt File_$1.txt] and [rename a X] *)
Definition file_args : arguments :=
  {| pattern := "file_(\d+)\.txt"; replacement := "File_$1.txt"; path := None;
     dry_run := false; recursive := false; quiet := false |}.

Definition a_args : arguments :=
  {| pattern := "a"; replacement := "X"; path := None;
     dry_run := false; recursive := false; quiet := false |}.

(** C1.  The filename computed for an entry is its filename with every
    match replaced by the expanded template and the text before, between
    and after the matches kept.  Every match: the first is the one the
    search from the start of the filename finds, each next one is the one
    the search finds where the scan stands after the one before, no match
    overlaps the one before, and after the last match the search finds
    nothing, so none is missed; the searches determine that list.  In the
    template, text without [$] stands for itself, and [$N], written with
    one digit or with two, for what group [N] captured, nothing if it
    took no part or there is no such group.  With replacement
    [File_$1.txt], when the pattern matches all of [file_42.txt] with [42]
    for group 1, as [file_(\d+)\.txt] does, the computed filename is
    [File_42.txt]; a filename the pattern does not match, as
    [file_abc.txt], is computed to itself. *)
Theorem C1_substitution :
  (forall (E : Regex.Engine) (args : arguments) (re : Regex.regex E) (in_entry : Path.t),
      match computed E args re in_entry with
      | inr out_filename =>
          exists ms,
            Regex.every_match E re (Path.filename in_entry) ms
            /\ Regex.separate (Path.filename in_entry) 0 ms
            /\ out_filename
               = Regex.replaced (Path.filename in_entry) (replacement args) 0 ms
      | inl e =>
          exists fl start, Regex.search E re fl (Path.filename in_entry) start = inl e
      end)
  /\ (forall (E : Regex.Engine) (re : Regex.regex E) s ms ms',
         Regex.every_match E re s ms -> Regex.every_match E re s ms' -> ms = ms')
  /\ (forall s m prefix_first literal rest,
         Regex.has_dollar literal = false ->
         Regex.format s m prefix_first (literal ++ rest)
         = literal ++ Regex.format s m prefix_first rest)
  /\ (forall s m prefix_first d rest,
         Regex.is_digit d = true -> Regex.digit_value d <> 0 ->
         Regex.starts_with_digit rest = false ->
         Regex.format s m prefix_first ("$"%char :: d :: rest)
         = Regex.group_text s m (Regex.digit_value d)
           ++ Regex.format s m prefix_first rest)
  /\ (forall s m prefix_first d1 d2 rest,
         Regex.is_digit d1 = true -> Regex.is_digit d2 = true ->
         10 * Regex.digit_value d1 + Regex.digit_value d2 <> 0 ->
         Regex.format s m prefix_first ("$"%char :: d1 :: d2 :: rest)
         = Regex.group_text s m (10 * Regex.digit_value d1 + Regex.digit_value d2)
           ++ Regex.format s m prefix_first rest)
  /\ (forall s m n,
         Regex.group_text s m n
         = match nth_error (Regex.m_groups m) (n - 1) with
           | Some (Some (first, second)) => Regex.substr s first second
           | Some None | None => []
           end)
  /\ (forall (E : Regex.Engine) (args : arguments) (re : Regex.regex E) (in_entry : Path.t),
         replacement args = ("File_$1.txt" : str) ->
         Path.filename in_entry = ("file_42.txt" : str) ->
         Regex.search E re Regex.match_default "file_42.txt" 0 = inr (Some match_file_42) ->
         Regex.search E re Regex.resumed "file_42.txt" 11 = inr None ->
         computed E args re in_entry = inr ("File_42.txt" : str))
  /\ (forall (E : Regex.Engine) (args : arguments) (re : Regex.regex E) (in_entry : Path.t),
         Regex.search E re Regex.match_default (Path.filename in_entry) 0 = inr None ->
         computed E args re in_entry = inr (Path.filename in_entry)).
Proof.
  split; [|split; [|split; [|split; [|split; [|split; [|split]]]]]].
  - intros E args re in_entry. unfold computed. apply Regex.regex_replace_every_match.
  - intros E re s ms ms'. apply Regex.every_match_unique.
  - intros. now apply Regex.format_literal.
  - intros. now apply Regex.format_group.
  - intros. now apply Regex.format_group_two_digits.
  - intros s m n. unfold Regex.group_text.
    destruct (nth_error (Regex.m_groups m) (n - 1)) as [[[a b]|]|]; reflexivity.
  - intros E args re in_entry Hfmt Hname H0 Hnext. unfold computed.
    rewrite Hfmt, Hname.
    rewrite (Regex.regex_replace_one_match E re "file_42.txt" "File_$1.txt"
               match_file_42 H0 (ltac:(discriminate)) Hnext).
    vm_compute. reflexivity.
  - intros E args re in_entry Hnone. unfold computed.
    now apply Regex.regex_replace_no_match.
Qed.

(** With the engine of [Ecma]: [sub/file_42.txt] and [file_abc.txt] under
    [rename file_(\d+)\.txt File_$1.txt]; the three matches of [a] in
    [banana.txt], each replaced; the template [x$1y] at the match of
    [(\d+)] in [a42b]. *)
Lemma C1_substitution_witness :
  computed ecma file_args file_re "sub/file_42.txt" = inr ("File_42.txt" : str)
  /\ computed ecma file_args file_re "file_abc.txt" = inr ("file_abc.txt" : str)
  /\ (exists m1 m2 m3,
         Regex.every_match ecma a_re "banana.txt" [m1; m2; m3]
         /\ inr (Regex.replaced "banana.txt" "X" 0 [m1; m2; m3])
            = computed ecma a_args a_re "banana.txt"
         /\ Regex.replaced "banana.txt" "X" 0 [m1; m2; m3] = ("bXnXnX.txt" : str))
  /\ (Regex.has_dollar "x" = false
      /\ Regex.format "a42b" match_42 0 ("x" ++ "$1y")
         = "x" ++ Regex.format "a42b" match_42 0 "$1y")
  /\ (Regex.is_digit "1" = true
      /\ Regex.format "a42b" match_42 0 ("$"%char :: "1"%char :: "y")
         = Regex.group_text "a42b" match_42 (Regex.digit_value "1")
           ++ Regex.format "a42b" match_42 0 "y")
  /\ (Regex.is_digit "0" = true
      /\ Regex.format "a42b" match_42 0 ("$"%char :: "0"%char :: "1"%char :: "y")
         = "42" ++ "y").
Proof.
  destruct C1_substitution as (Hall & Huniq & Hlit & Hone & Htwo & _ & Hfile & Hnone).
  split; [|split; [|split; [|split; [|split]]]].
  - apply (Hfile ecma file_args file_re ("sub/file_42.txt" : str));
      vm_compute; reflexivity.
  - apply (Hnone ecma file_args file_re ("file_abc.txt" : str)).
    vm_compute; reflexivity.
  - pose proof (Hall ecma a_args a_re ("banana.txt" : str)) as H.
    destruct (computed ecma a_args a_re "banana.txt") as [e|out] eqn:Hc;
      [vm_compute in Hc; discriminate Hc|].
    destruct H as (ms & Hevery & _ & Hout).
    change (Path.filename "banana.txt") with ("banana.txt" : str) in Hevery, Hout.
    change (replacement a_args) with ("X" : str) in Hout.
    assert (Hms : ms = [ {| Regex.m_first := 1; Regex.m_second := 2; Regex.m_groups := [] |};
                         {| Regex.m_first := 3; Regex.m_second := 4; Regex.m_groups := [] |};
                         {| Regex.m_first := 5; Regex.m_second := 6; Regex.m_groups := [] |} ]).
    { apply (Huniq ecma a_re ("banana.txt" : str)); [exact Hevery|].
      split; [vm_compute; reflexivity|].
      eapply Regex.scanned_next;
        [apply Regex.follows_after; [discriminate | vm_compute; reflexivity]|].
      eapply Regex.scanned_next;
        [apply Regex.follows_after; [discriminate | vm_compute; reflexivity]|].
      eapply (Regex.scanned_last ecma _ _ _ _ true).
      apply Regex.follows_after; [discriminate | vm_compute; reflexivity]. }
    subst ms. do 3 eexists. split; [exact Hevery|].
    split; [now rewrite <- Hout | vm_compute; reflexivity].
  - split; [reflexivity|]. apply Hlit. reflexivity.
  - split; [reflexivity|].
    apply Hone; [reflexivity | vm_compute; discriminate | reflexivity].
  - split; [reflexivity|].
    rewrite (Htwo "a42b" match_42 0 "0"%char "1"%char "y" eq_refl eq_refl);
      [vm_compute; reflexivity | vm_compute; discriminate].
Defined.

(** ** What a run reports does not depend on the filesystem

    The report lines, and the way the loop ends, are decided by the
    entries, the arguments and the answer of [current_path()]; whether a
    rename succeeds plays no part. *)

Section Reports.
Context (E : Regex.Engine) (F : Fs.FileSystem).

Lemma apply_step_stdout args src dst (w : world F) :
  stdout_of (log (apply_step args src dst w)) = stdout_of (log w)
  /\ cwd (apply_step args src dst w) = cwd w.
Proof.
  destruct (effect_apply F args w src dst) as [Hc _ Ho _ _ _].
  split; [|exact Hc]. rewrite Ho. cbn [flat_map]. apply app_nil_r.
Qed.

Lemma process_entry_stdout args re in_entry current :
  exists (text : str) (ending : control unit),
    forall w : world F,
      cwd w = current ->
      stdout_of (log (snd (process_entry E F args re in_entry w)))
      = stdout_of (log w) ++ text
      /\ fst (process_entry E F args re in_entry w) = ending
      /\ cwd (snd (process_entry E F args re in_entry w)) = current.
Proof.
  destruct (computed E args re in_entry) as [err|out] eqn:Hc.
  - exists [], (Exit EXIT_FAILURE). intros w Hw.
    rewrite (process_entry_substitution_error E F _ _ _ _ _ Hc). cbn [fst snd add log cwd].
    rewrite stdout_of_app. now repeat split.
  - destruct (list_eq_dec ascii_dec out (Path.filename in_entry)) as [->|Hne].
    + exists [], (Normal tt). intros w Hw.
      rewrite (process_entry_unchanged E F _ _ _ _ Hc). cbn [fst snd].
      now rewrite app_nil_r.
    + destruct (quiet args) eqn:Hq.
      * exists [], (Normal tt). intros w Hw.
        rewrite (process_entry_quiet E F _ _ _ _ _ Hc Hne Hq). cbn [fst snd].
        destruct (apply_step_stdout args in_entry (Path.replace_filename in_entry out) w)
          as [-> ->].
        now rewrite app_nil_r.
      * destruct (path_display_name (recursive args) current in_entry) as [x|a] eqn:Ha.
        { exists [], (Uncaught x). intros w Hw. rewrite <- Hw in Ha.
          rewrite (process_entry_display_throws_first E F _ _ _ _ _ _ Hc Hne Hq Ha).
          cbn [fst snd]. now rewrite app_nil_r. }
        destruct (path_display_name (recursive args) current
                    (Path.replace_filename in_entry out)) as [x|b] eqn:Hb.
        { exists (stdout_of [Cout a; Cout " -> "; Cout (dry_run_mark args)]), (Uncaught x).
          intros w Hw. rewrite <- Hw in Ha, Hb.
          rewrite (process_entry_display_throws_second E F _ _ _ _ _ _ _ Hc Hne Hq Ha Hb).
          cbn [fst snd add log cwd]. now rewrite stdout_of_app. }
        exists (stdout_of (report_events args a b)), (Normal tt).
        intros w Hw. rewrite <- Hw in Ha, Hb.
        rewrite (process_entry_reported E F _ _ _ _ _ _ _ Hc Hne Hq Ha Hb).
        cbn [fst snd].
        destruct (apply_step_stdout args in_entry (Path.replace_filename in_entry out)
                    (add w (report_events args a b))) as [-> ->].
        cbn [add log cwd]. now rewrite stdout_of_app.
Qed.

Lemma loop_stdout args re current : forall entries,
  exists (text : str) (ending : control unit),
    forall w : world F,
      cwd w = current ->
      stdout_of (log (snd (for_each F entries (process_entry E F args re) w)))
      = stdout_of (log w) ++ text
      /\ fst (for_each F entries (process_entry E F args re) w) = ending.
Proof.
  induction entries as [|e entries IH].
  - exists [], (Normal tt). intros w _. cbn. now rewrite app_nil_r.
  - destruct (process_entry_stdout args re e current) as (t1 & s1 & H1).
    destruct IH as (t2 & s2 & H2).
    destruct s1 as [[]|c|x].
    + exists (t1 ++ t2), s2. intros w Hw. destruct (H1 w Hw) as (Ho & Hs & Hcwd).
      cbn [for_each]. unfold bind.
      destruct (process_entry E F args re e w) as [[[]|c|x] w1];
        cbn [fst snd] in *; try discriminate Hs.
      destruct (H2 w1 Hcwd) as [Ho2 Hs2]. rewrite Ho2, Ho.
      split; [now rewrite app_assoc | exact Hs2].
    + exists t1, (Exit c). intros w Hw. destruct (H1 w Hw) as (Ho & Hs & _).
      cbn [for_each]. unfold bind.
      destruct (process_entry E F args re e w) as [[[]|c'|x] w1];
        cbn [fst snd] in *; try discriminate Hs.
      now split.
    + exists t1, (Uncaught x). intros w Hw. destruct (H1 w Hw) as (Ho & Hs & _).
      cbn [for_each]. unfold bind.
      destruct (process_entry E F args re e w) as [[[]|c|x'] w1];
        cbn [fst snd] in *; try discriminate Hs.
      now split.
Qed.

End Reports.

(** [txt], compiled. *)
Definition txt_re : Regex.regex ecma :=
  Eval vm_compute in
    match Ecma.compile "txt" with
    | inr re => re
    | inl _ => {| Ecma.re_node := Ecma.Empty; Ecma.mark_count := 0 |}
    end.

(** A directory [d] with a file [a.txt] and a directory [a] that holds
    [c.txt]. *)
Definition deep_fs : MemFs.state :=
  [("d" : str, MemFs.Directory); ("d/a.txt" : str, MemFs.Regular);
   ("d/a" : str, MemFs.Directory); ("d/a/c.txt" : str, MemFs.Regular)].

Definition deep_world : world memfs :=
  {| fs := deep_fs : Fs.state memfs; cwd := inr ("/home/u" : str); log := [] |}.

(** [rename -r txt md d] *)
Definition deep_args : arguments :=
  {| pattern := "txt"; replacement := "md"; path := Some ("d" : str);
     dry_run := false; recursive := true; quiet := false |}.

(** Ascending in the lexicographic order of the full paths, as strings. *)
Definition by_full_path : Path.t -> Path.t -> Prop := cmp_le string_compare.

(** C2 as the specification states it: past the gates, the run is the
    loop over the entries sorted ascending by full path, lexicographic. *)
Definition processed_in_full_path_order : Prop :=
  forall (E : Regex.Engine) (F : Fs.FileSystem) (args : arguments) (w : world F)
         re base entries,
    Regex.compile E (pattern args) = inr re ->
    base_path F args w = inr base ->
    enumerate F (recursive args) base (fs w) = inr entries ->
    exists sorted,
      Permutation entries sorted
      /\ StronglySorted by_full_path sorted
      /\ rename E F args w
         = for_each F sorted (process_entry E F args re)
                    (add w [OpenDir (recursive args) base]).

(** C2, counterexample.  [rename -r txt md d] where [d] holds [a.txt] and
    [a/c.txt]: [d/a/c.txt] is renamed before [d/a.txt], since the sort
    compares element by element and [a] comes before [a.txt]; as strings
    [d/a.txt] comes before [d/a/c.txt], the byte after [d/a] being [.] in
    the one and [/] in the other. *)
Lemma C2_counterexample :
  renames_of (log (snd (main ecma memfs deep_args deep_world)))
  = [("d/a/c.txt" : str, "d/a/c.md" : str); ("d/a.txt" : str, "d/a.md" : str)]
  /\ string_compare "d/a.txt" "d/a/c.txt" = Lt
  /\ Path.compare "d/a.txt" "d/a/c.txt" = Gt
  /\ ~ processed_in_full_path_order.
Proof.
  split; [vm_compute; reflexivity|].
  split; [vm_compute; reflexivity|].
  split; [vm_compute; reflexivity|].
  intros H.
  destruct (H ecma memfs deep_args deep_world txt_re ("d" : str)
              ["d/a.txt" : str; "d/a/c.txt" : str] eq_refl eq_refl eq_refl)
    as (sorted & Hperm & Hsorted & Hrun).
  apply Permutation_length_2_inv in Hperm as [-> | ->].
  - apply (f_equal (fun r => renames_of (log (snd r)))) in Hrun.
    vm_compute in Hrun. discriminate Hrun.
  - inversion Hsorted as [|? ? _ Hall]; subst.
    inversion Hall as [|? ? Hle _]; subst.
    apply Hle. vm_compute. reflexivity.
Qed.

Lemma sorted_in_another_order {A} (R R' : A -> A -> Prop) (l : list A) :
  StronglySorted R l ->
  (forall a b, In a l -> In b l -> R a b -> R' a b) ->
  StronglySorted R' l.
Proof.
  induction 1 as [|a l Hs IH Hall]; intros Hsub; constructor.
  - apply IH. intros x y Hx Hy. apply Hsub; now right.
  - rewrite Forall_forall in *. intros b Hb.
    apply Hsub; [now left | now right | now apply Hall].
Qed.

(** C2, amended.  Once the pattern is compiled, the base path resolved
    and the entries enumerated, the run is the loop over the sorted list of
    all the entries: the list is sorted by [path]'s ordering, which
    compares element by element, and is a permutation of what was
    enumerated, no directory is iterated after the one enumeration, and
    the renames and the report lines follow the sorted order.  Another
    iteration order of the same entries gives the same sorted list, the
    same report lines and the same way of ending, provided no two entries
    are spellings of one path; the entries a directory iteration finds
    under one base are not.  When
    the entries are all entries of the base directory itself, as in a run
    that is not recursive, the sorted list is also ascending in the
    lexicographic order of the full paths. *)
Theorem C2_sorted_before_apply (E : Regex.Engine) (F : Fs.FileSystem)
        (args : arguments) (w : world F) re base entries :
  Regex.compile E (pattern args) = inr re ->
  base_path F args w = inr base ->
  enumerate F (recursive args) base (fs w) = inr entries ->
  let sorted := sort Path.compare entries in
  rename E F args w
  = for_each F sorted (process_entry E F args re)
             (add w [OpenDir (recursive args) base])
  /\ StronglySorted Path.le sorted
  /\ Permutation entries sorted
  /\ (exists events,
         log (snd (rename E F args w))
         = log w ++ OpenDir (recursive args) base :: events
         /\ opened_of events = [])
  /\ (forallb (no_fatal E args (cwd w) re) sorted = true ->
      exists w',
        rename E F args w = (Normal tt, w')
        /\ renames_of (log w')
           = renames_of (log w)
             ++ (if dry_run args then [] else planned E args re sorted)
        /\ stdout_of (log w') = stdout_of (log w) ++ reports E args (cwd w) re sorted)
  /\ (forall (w2 : world F) entries2,
         cwd w2 = cwd w ->
         base_path F args w2 = inr base ->
         enumerate F (recursive args) base (fs w2) = inr entries2 ->
         Permutation entries entries2 ->
         (forall a b, In a entries -> In b entries -> Path.compare a b = Eq -> a = b) ->
         sort Path.compare entries2 = sorted
         /\ (exists text,
                stdout_of (log (snd (rename E F args w))) = stdout_of (log w) ++ text
                /\ stdout_of (log (snd (rename E F args w2)))
                   = stdout_of (log w2) ++ text)
         /\ fst (rename E F args w2) = fst (rename E F args w)
         /\ (forallb (no_fatal E args (cwd w) re) sorted = true ->
             exists w' w2',
               rename E F args w = (Normal tt, w')
               /\ rename E F args w2 = (Normal tt, w2')
               /\ stdout_of (log w')
                  = stdout_of (log w) ++ reports E args (cwd w) re sorted
               /\ stdout_of (log w2')
                  = stdout_of (log w2) ++ reports E args (cwd w) re sorted))
  /\ (forall name_lists,
         (forall names, In names name_lists ->
                        names <> [] /\ Forall Path.valid_name names) ->
         entries = map (Path.descend base) name_lists ->
         forall a b, In a entries -> In b entries -> Path.compare a b = Eq -> a = b)
  /\ (forall names,
         Forall Path.valid_name names ->
         entries = map (fun name => Path.descend base [name]) names ->
         StronglySorted by_full_path sorted).
Proof.
  intros Hc Hb He sorted.
  pose proof (rename_reaches_loop E F args w re base entries Hc Hb He) as Hrun.
  split; [exact Hrun|].
  split; [apply sort_sorted, Path.compare_laws|].
  split; [apply sort_perm|].
  split; [|split; [|split; [|split]]].
  - rewrite Hrun.
    destruct (frame_log _ _ _ _
                (loop_frame E F args re sorted (add w [OpenDir (recursive args) base])))
      as (events & Hlog & Hopen).
    exists events. split; [|exact Hopen].
    fold sorted. rewrite Hlog. simpl. now rewrite <- app_assoc.
  - intros Hok.
    destruct (rename_completes E F args w re base entries Hc Hb He Hok)
      as (w' & H1 & _ & _ & H4 & _ & H6 & _).
    exists w'. auto.
  - intros w2 entries2 Hcwd Hb2 He2 Hperm Hinj.
    assert (Hsort : sort Path.compare entries2 = sorted).
    { symmetry. apply sort_order_independent; auto. apply Path.compare_laws. }
    split; [exact Hsort|].
    pose proof (rename_reaches_loop E F args w2 re base entries2 Hc Hb2 He2) as Hrun2.
    rewrite Hsort in Hrun2.
    destruct (loop_stdout E F args re (cwd w) sorted) as (text & ending & Hloop).
    destruct (Hloop (add w [OpenDir (recursive args) base]) eq_refl) as [Ho1 Hs1].
    destruct (Hloop (add w2 [OpenDir (recursive args) base]) Hcwd) as [Ho2 Hs2].
    split; [|split].
    { exists text. rewrite Hrun, Hrun2. split.
      - etransitivity; [exact Ho1|]. cbn [add log].
        rewrite stdout_of_app. cbn. now rewrite app_nil_r.
      - etransitivity; [exact Ho2|]. cbn [add log].
        rewrite stdout_of_app. cbn. now rewrite app_nil_r. }
    { rewrite Hrun, Hrun2. exact (eq_trans Hs2 (eq_sym Hs1)). }
    intros Hok.
    destruct (rename_completes E F args w re base entries Hc Hb He Hok)
      as (w' & H1 & _ & _ & H4 & _).
    assert (Hok2 : forallb (no_fatal E args (cwd w2) re) (sort Path.compare entries2) = true)
      by (rewrite Hsort, Hcwd; exact Hok).
    destruct (rename_completes E F args w2 re base entries2 Hc Hb2 He2 Hok2)
      as (w2' & H1' & _ & _ & H4' & _).
    exists w', w2'. repeat split; auto.
    rewrite H4', Hsort, Hcwd. reflexivity.
  - intros name_lists Hvalid -> a b Ha Hb' Hcmp.
    apply in_map_iff in Ha as (na & <- & Hna).
    apply in_map_iff in Hb' as (nb & <- & Hnb).
    destruct (Hvalid na Hna) as [Hne1 Hall1].
    destruct (Hvalid nb Hnb) as [Hne2 Hall2].
    now apply Path.descend_compare_eq.
  - intros names Hvalid Hentries.
    apply (sorted_in_another_order Path.le);
      [apply sort_sorted, Path.compare_laws|].
    assert (Hchild : forall a, In a sorted ->
                               exists n, a = Path.descend base [n] /\ Path.valid_name n).
    { intros a Ha.
      apply (Permutation_in a (Permutation_sym (sort_perm Path.compare entries))) in Ha.
      rewrite Hentries in Ha. apply in_map_iff in Ha as (n & <- & Hn).
      exists n. split; [reflexivity|].
      exact (proj1 (Forall_forall _ _) Hvalid n Hn). }
    intros a b Ha Hb'.
    destruct (Hchild a Ha) as (na & -> & Hna).
    destruct (Hchild b Hb') as (nb & -> & Hnb).
    unfold Path.le, by_full_path, cmp_le.
    now rewrite (Path.compare_children base na nb Hna Hnb).
Qed.

Lemma C2_sorted_before_apply_witness :
  sort Path.compare demo_entries_reordered = sort Path.compare demo_entries
  /\ (exists w' w2',
         rename ecma memfs demo_args demo_world = (Normal tt, w')
         /\ rename ecma memfs demo_args demo_world_reordered = (Normal tt, w2')
         /\ stdout_of (log w') = stdout_of (log w2'))
  /\ StronglySorted by_full_path (sort Path.compare demo_entries).
Proof.
  destruct (C2_sorted_before_apply ecma memfs demo_args demo_world
              demo_re ("d" : str) demo_entries eq_refl eq_refl eq_refl)
    as (_ & _ & _ & _ & _ & H & Hdistinct & Hchildren).
  destruct (H demo_world_reordered demo_entries_reordered eq_refl eq_refl eq_refl
              (perm_swap _ _ _) (Hdistinct demo_names demo_names_valid eq_refl))
    as (Hsort & _ & _ & Hruns).
  split; [exact Hsort|]. split.
  - destruct (Hruns eq_refl) as (w' & w2' & H1 & H2 & H3 & H4).
    exists w', w2'. repeat split; auto.
    rewrite H3, H4. reflexivity.
  - apply (Hchildren ["b.txt" : str; "a.txt" : str]); [|reflexivity].
    repeat constructor; discriminate.
Defined.

(** C3 as the specification states it: whatever filename is computed, the
    destination keeps the directory of the source. *)
Definition destination_keeps_directory : Prop :=
  forall (E : Regex.Engine) (args : arguments) (re : Regex.regex E)
         (in_entry out_entry : Path.t),
    destination E args re in_entry = Some out_entry ->
    Path.remove_filename out_entry = Path.remove_filename in_entry.

(** C3, counterexample.  [rename old ../new] on [sub/old.txt]: the
    computed filename is [../new.txt], and [replace_filename] makes the
    destination [sub/../new.txt], a file of the directory above [sub]. *)
Lemma C3_counterexample :
  substitute ecma "old" "old.txt" "../new" = inr ("../new.txt" : str)
  /\ Path.replace_filename "sub/old.txt" "../new.txt" = ("sub/../new.txt" : str)
  /\ Path.remove_filename "sub/../new.txt" = ("sub/../" : str)
  /\ Path.remove_filename "sub/old.txt" = ("sub/" : str)
  /\ ~ destination_keeps_directory.
Proof.
  split; [vm_compute; reflexivity|].
  split; [vm_compute; reflexivity|].
  split; [vm_compute; reflexivity|].
  split; [vm_compute; reflexivity|].
  intros H.
  pose (re := match Regex.compile ecma "old" with
              | inr re => re
              | inl _ => demo_re
              end).
  specialize (H ecma
                {| pattern := "old"; replacement := "../new"; path := None;
                   dry_run := false; recursive := true; quiet := false |}
                re ("sub/old.txt" : str) ("sub/../new.txt" : str)).
  assert (Hd : Path.remove_filename "sub/../new.txt" = Path.remove_filename "sub/old.txt")
    by (apply H; vm_compute; reflexivity).
  vm_compute in Hd. discriminate Hd.
Qed.

(** C3, amended.  When the computed filename differs from the original and
    holds no directory separator, the destination is the source with its
    filename replaced: the directory part is the same and the filename is
    the computed one; that destination is what the rename is called with.
    [sub/old.txt] with pattern [old] and replacement [new] goes to
    [sub/new.txt]. *)
Theorem C3_destination_in_same_directory :
  (forall (E : Regex.Engine) (F : Fs.FileSystem) (args : arguments)
          (re : Regex.regex E) (in_entry : Path.t) (out_filename : str) (w : world F),
      computed E args re in_entry = inr out_filename ->
      out_filename <> Path.filename in_entry ->
      Path.has_sep out_filename = false ->
      let out_entry := Path.remove_filename in_entry ++ out_filename in
      destination E args re in_entry = Some out_entry
      /\ Path.remove_filename out_entry = Path.remove_filename in_entry
      /\ Path.filename out_entry = out_filename
      /\ (dry_run args = false ->
          no_fatal E args (cwd w) re in_entry = true ->
          renames_of (log (snd (process_entry E F args re in_entry w)))
          = renames_of (log w) ++ [(in_entry, out_entry)]))
  /\ (exists re,
         Regex.compile ecma "old" = inr re
         /\ destination ecma
              {| pattern := "old"; replacement := "new"; path := None;
                 dry_run := false; recursive := true; quiet := false |}
              re "sub/old.txt"
            = Some ("sub/new.txt" : str)).
Proof.
  split.
  - intros E F args re in_entry out w Hc Hne Hsep out_entry.
    destruct (Path.replace_filename_no_sep in_entry out Hsep) as (Hrep & Hdir & Hname).
    assert (Hdest : destination E args re in_entry = Some out_entry).
    { unfold destination. rewrite Hc.
      assert (Hneq : str_eqb (Path.filename in_entry) out = false)
        by (apply str_eqb_neq; congruence).
      rewrite Hneq. unfold out_entry. now rewrite Hrep. }
    unfold out_entry. rewrite <- Hrep.
    split; [now rewrite Hrep|]. split; [exact Hdir|]. split; [exact Hname|].
    intros Hdry Hok.
    destruct (loop_completes E F args re [in_entry] w) as (w' & Hrun & Heff).
    { simpl. now rewrite Hok. }
    cbn [for_each] in Hrun. unfold bind, ret in Hrun.
    destruct (process_entry E F args re in_entry w) as [[[]|c|x] w1]; try discriminate.
    injection Hrun as ->. cbn [snd].
    destruct Heff as [_ _ _ _ Hren _]. rewrite Hren, Hdry.
    unfold planned. cbn [flat_map]. rewrite Hdest. cbn [app].
    unfold out_entry. now rewrite Hrep.
  - exists (match Regex.compile ecma "old" with inr re => re | inl _ => demo_re end).
    split; [vm_compute; reflexivity | vm_compute; reflexivity].
Qed.

Lemma C3_destination_in_same_directory_witness :
  destination ecma demo_args demo_re "d/b.txt" = Some ("d/b" : str)
  /\ Path.remove_filename "d/b" = Path.remove_filename "d/b.txt"
  /\ renames_of (log (snd (process_entry ecma memfs demo_args demo_re "d/b.txt" demo_world)))
     = [("d/b.txt" : str, "d/b" : str)].
Proof.
  destruct (proj1 C3_destination_in_same_directory ecma memfs demo_args demo_re
              ("d/b.txt" : str) ("b" : str) demo_world)
    as (H1 & H2 & _ & H4).
  - vm_compute; reflexivity.
  - vm_compute; discriminate.
  - reflexivity.
  - split; [exact H1|]. split; [exact H2|].
    exact (H4 eq_refl eq_refl).
Defined.

(** C4.  An entry whose rename fails: the error goes to [std::cerr] behind
    the prefix, the filesystem stays as it was, and the loop goes on with
    the entries that remain.  A run that meets no fatal condition returns
    and [main] exits with 0; every planned rename has been attempted, in
    the sorted order, whichever of them failed, and [std::cerr] holds one
    diagnostic for each failure. *)
Theorem C4_rename_failure_is_isolated (E : Regex.Engine) (F : Fs.FileSystem)
        (args : arguments) (re : Regex.regex E) :
  (forall (in_entry : Path.t) (rest : list Path.t) (w : world F) out_filename e,
      computed E args re in_entry = inr out_filename ->
      out_filename <> Path.filename in_entry ->
      dry_run args = false ->
      no_fatal E args (cwd w) re in_entry = true ->
      Fs.rename F (fs w) in_entry (Path.replace_filename in_entry out_filename) = inl e ->
      exists w1,
        process_entry E F args re in_entry w = (Normal tt, w1)
        /\ fs w1 = fs w
        /\ stderr_of (log w1) = stderr_of (log w) ++ error_prefix ++ fs_what e ++ endl
        /\ for_each F (in_entry :: rest) (process_entry E F args re) w
           = for_each F rest (process_entry E F args re) w1)
  /\ (forall (w : world F) base entries,
         Regex.compile E (pattern args) = inr re ->
         base_path F args w = inr base ->
         enumerate F (recursive args) base (fs w) = inr entries ->
         forallb (no_fatal E args (cwd w) re) (sort Path.compare entries) = true ->
         let plan := if dry_run args then []
                     else planned E args re (sort Path.compare entries) in
         exists w',
           main E F args w = (Exited 0, w')
           /\ renames_of (log w') = renames_of (log w) ++ plan
           /\ fs w' = fst (replay (fs w) plan)
           /\ stderr_of (log w')
              = stderr_of (log w) ++ flat_map diagnostic (snd (replay (fs w) plan))).
Proof.
  split.
  - intros in_entry rest w out e Hc Hne Hdry Hok Hfail.
    destruct (loop_completes E F args re [in_entry] w) as (w1 & Hrun & Heff).
    { cbn [forallb]. now rewrite Hok. }
    cbn [for_each] in Hrun. unfold bind, ret in Hrun.
    destruct (process_entry E F args re in_entry w) as [[[]|c|x] w0] eqn:Hp;
      try discriminate.
    injection Hrun as ->. exists w1.
    assert (Hplan : planned E args re [in_entry]
                    = [(in_entry, Path.replace_filename in_entry out)]).
    { unfold planned, destination. cbn [flat_map]. rewrite Hc.
      assert (Hneq : str_eqb (Path.filename in_entry) out = false)
        by (apply str_eqb_neq; congruence).
      now rewrite Hneq. }
    destruct Heff as [_ Hfs _ Herr _ _].
    rewrite Hdry, Hplan in Hfs, Herr. cbn [replay] in Hfs, Herr.
    rewrite Hfail in Hfs, Herr. cbn [fst snd flat_map] in Hfs, Herr.
    split; [reflexivity|]. split; [exact Hfs|]. split.
    + rewrite Herr. unfold diagnostic. now rewrite app_nil_r.
    + cbn [for_each]. unfold bind. now rewrite Hp.
  - intros w base entries Hc Hb He Hok plan.
    destruct (rename_completes E F args w re base entries Hc Hb He Hok)
      as (w' & Hrun & _ & Hfs & _ & Herr & Hren & _).
    exists w'. unfold main. rewrite Hrun. auto.
Qed.

(** [d/a.txt] cannot take the name of the directory [d/a]: the loop goes
    on with [d/b.txt], which is renamed, and the exit status is 0. *)
Lemma C4_rename_failure_is_isolated_witness :
  (exists w1,
      process_entry ecma memfs demo_args demo_re "d/a.txt" demo_world = (Normal tt, w1)
      /\ fs w1 = fs demo_world
      /\ stderr_of (log w1)
         = error_prefix
           ++ "filesystem error: cannot rename: Is a directory [d/a.txt] [d/a]" ++ endl
      /\ for_each memfs ["d/a.txt" : str; "d/b.txt" : str]
                    (process_entry ecma memfs demo_args demo_re) demo_world
         = for_each memfs ["d/b.txt" : str]
                    (process_entry ecma memfs demo_args demo_re) w1)
  /\ exists w',
       main ecma memfs demo_args demo_world = (Exited 0, w')
       /\ renames_of (log w')
          = [("d/a.txt" : str, "d/a" : str); ("d/b.txt" : str, "d/b" : str)]
       /\ MemFs.lookup (fs w') "d/a.txt" = Some MemFs.Regular
       /\ MemFs.lookup (fs w') "d/b" = Some MemFs.Regular.
Proof.
  split.
  - apply (proj1 (C4_rename_failure_is_isolated ecma memfs demo_args demo_re)
             ("d/a.txt" : str) ["d/b.txt" : str] demo_world ("a" : str)
             (MemFs.error2 "cannot rename: Is a directory" "d/a.txt" "d/a")).
    + vm_compute; reflexivity.
    + vm_compute; discriminate.
    + reflexivity.
    + vm_compute; reflexivity.
    + vm_compute; reflexivity.
  - destruct (proj2 (C4_rename_failure_is_isolated ecma memfs demo_args demo_re)
                demo_world ("d" : str) demo_entries eq_refl eq_refl eq_refl eq_refl)
      as (w' & Hmain & Hren & Hfs & _).
    exists w'. split; [exact Hmain|]. split; [exact Hren|].
    rewrite Hfs. split; reflexivity.
Defined.

(** C5.  An entry whose computed filename is its own, as it is when the
    pattern matches nowhere in it, leaves the world as it was: nothing is
    written, no rename is called, and the loop goes on. *)
Theorem C5_unchanged_entry_is_skipped (E : Regex.Engine) (F : Fs.FileSystem)
        (args : arguments) (re : Regex.regex E) (in_entry : Path.t)
        (rest : list Path.t) (w : world F) :
  (computed E args re in_entry = inr (Path.filename in_entry) ->
   process_entry E F args re in_entry w = (Normal tt, w)
   /\ for_each F (in_entry :: rest) (process_entry E F args re) w
      = for_each F rest (process_entry E F args re) w)
  /\ (Regex.search E re Regex.match_default (Path.filename in_entry) 0 = inr None ->
      computed E args re in_entry = inr (Path.filename in_entry)
      /\ destination E args re in_entry = None
      /\ process_entry E F args re in_entry w = (Normal tt, w)).
Proof.
  split.
  - intros Hc. pose proof (process_entry_unchanged E F args re in_entry w Hc) as Hp.
    split; [exact Hp|]. cbn [for_each]. unfold bind. now rewrite Hp.
  - intros Hs.
    assert (Hc : computed E args re in_entry = inr (Path.filename in_entry))
      by (apply Regex.regex_replace_no_match; exact Hs).
    split; [exact Hc|]. split.
    + unfold destination. now rewrite Hc, str_eqb_refl.
    + now apply process_entry_unchanged.
Qed.

(** [(.)\.txt] matches nowhere in [notes]. *)
Lemma C5_unchanged_entry_is_skipped_witness :
  process_entry ecma memfs demo_args demo_re "d/notes" demo_world = (Normal tt, demo_world)
  /\ destination ecma demo_args demo_re "d/notes" = None.
Proof.
  destruct (C5_unchanged_entry_is_skipped ecma memfs demo_args demo_re
              ("d/notes" : str) [] demo_world) as [H1 H2].
  split.
  - apply H1. vm_compute; reflexivity.
  - apply H2. vm_compute; reflexivity.
Defined.

(** C6.  With [dry_run] set the filesystem after the run is the filesystem
    before it and [std::filesystem::rename] is never called, whatever
    matches and however the run ends.  The reporting still takes place: a
    run that meets no fatal condition writes the report line of every
    planned rename, each with [(dry run)] in it. *)
Theorem C6_dry_run_changes_nothing (E : Regex.Engine) (F : Fs.FileSystem)
        (args : arguments) (w : world F) :
  dry_run args = true ->
  fs (snd (main E F args w)) = fs w
  /\ renames_of (log (snd (main E F args w))) = renames_of (log w)
  /\ (forall re base entries,
         Regex.compile E (pattern args) = inr re ->
         base_path F args w = inr base ->
         enumerate F (recursive args) base (fs w) = inr entries ->
         forallb (no_fatal E args (cwd w) re) (sort Path.compare entries) = true ->
         exists w',
           main E F args w = (Exited 0, w')
           /\ stdout_of (log w')
              = stdout_of (log w)
                ++ (if quiet args then []
                    else flat_map
                           (fun r => display_text args (cwd w) (fst r)
                                     ++ " -> (dry run)"
                                     ++ display_text args (cwd w) (snd r) ++ endl)
                           (planned E args re (sort Path.compare entries)))).
Proof.
  intros Hdry.
  assert (Hmain : snd (main E F args w) = snd (rename E F args w)).
  { unfold main. now destruct (rename E F args w) as [[[]|c|x] w']. }
  rewrite Hmain.
  destruct (rename_dry_run_pure E F args w Hdry) as [Hfs Hren].
  split; [exact Hfs|]. split; [exact Hren|].
  intros re base entries Hc Hb He Hok.
  destruct (rename_completes E F args w re base entries Hc Hb He Hok)
    as (w' & Hrun & _ & _ & Hout & _).
  exists w'. unfold main. rewrite Hrun. split; [reflexivity|].
  rewrite Hout. unfold reports. destruct (quiet args); [reflexivity|].
  f_equal. apply flat_map_ext. intros [src dst].
  unfold report_line. rewrite Hdry. cbn [fst snd]. now rewrite <- !app_assoc.
Qed.

Lemma C6_dry_run_changes_nothing_witness :
  fs (snd (main ecma memfs demo_args_dry_run demo_world)) = demo_fs
  /\ renames_of (log (snd (main ecma memfs demo_args_dry_run demo_world))) = []
  /\ exists w',
       main ecma memfs demo_args_dry_run demo_world = (Exited 0, w')
       /\ stdout_of (log w')
          = "a.txt -> (dry run)a" ++ endl ++ "b.txt -> (dry run)b" ++ endl.
Proof.
  destruct (C6_dry_run_changes_nothing ecma memfs demo_args_dry_run demo_world eq_refl)
    as (Hfs & Hren & Hrep).
  split; [exact Hfs|]. split; [exact Hren|].
  destruct (Hrep demo_re ("d" : str) demo_entries eq_refl eq_refl eq_refl eq_refl)
    as (w' & Hmain & Hout).
  exists w'. split; [exact Hmain|]. rewrite Hout. vm_compute. reflexivity.
Defined.

(** C7.  When the pattern does not compile, [main] writes the prefix, the
    error's text and a newline to [std::cerr] and exits with
    [EXIT_FAILURE]; nothing else has happened: no directory iterated, no
    report, no rename, the filesystem as it was.  The pattern [(] is such
    a pattern. *)
Theorem C7_invalid_pattern_is_fatal :
  (forall (E : Regex.Engine) (F : Fs.FileSystem) (args : arguments) (w : world F) e,
      Regex.compile E (pattern args) = inl e ->
      main E F args w
      = (Exited EXIT_FAILURE,
         add w [Cerr error_prefix; Cerr (regex_what e); Cerr endl])
      /\ EXIT_FAILURE <> 0
      /\ fs (snd (main E F args w)) = fs w
      /\ stderr_of (log (snd (main E F args w)))
         = stderr_of (log w) ++ error_prefix ++ regex_what e ++ endl
      /\ stdout_of (log (snd (main E F args w))) = stdout_of (log w)
      /\ opened_of (log (snd (main E F args w))) = opened_of (log w)
      /\ renames_of (log (snd (main E F args w))) = renames_of (log w))
  /\ Regex.compile ecma "(" = inl Ecma.error_paren.
Proof.
  split; [|vm_compute; reflexivity].
  intros E F args w e Hc. unfold main.
  rewrite (rename_invalid_pattern E F args w e Hc). cbn [snd add fs log].
  split; [reflexivity|]. split; [discriminate|]. split; [reflexivity|].
  rewrite stderr_of_app, stdout_of_app, opened_of_app, renames_of_app.
  repeat split; apply app_nil_r.
Qed.

Lemma C7_invalid_pattern_is_fatal_witness :
  main ecma memfs
       {| pattern := "("; replacement := "x"; path := Some ("d" : str);
          dry_run := false; recursive := false; quiet := false |}
       demo_world
  = (Exited EXIT_FAILURE,
     add demo_world [Cerr error_prefix;
                     Cerr "Mismatched '(' and ')' in regular expression";
                     Cerr endl]).
Proof.
  apply (proj1 C7_invalid_pattern_is_fatal ecma memfs
           {| pattern := "("; replacement := "x"; path := Some ("d" : str);
              dry_run := false; recursive := false; quiet := false |}
           demo_world Ecma.error_paren).
  vm_compute; reflexivity.
Defined.

(** C8.  The report of an entry whose name changes, when [quiet] is not
    set, is one line on [std::cout]: the display name of the source,
    [ -> ], then [(dry run)] under [dry_run], then at once the display name
    of the destination.  The display name is the filename when
    [recursive] is not set, and the absolute path when it is. *)
Theorem C8_report_line (E : Regex.Engine) (F : Fs.FileSystem)
        (args : arguments) (re : Regex.regex E) (in_entry : Path.t)
        (out_filename : str) (w : world F) :
  computed E args re in_entry = inr out_filename ->
  out_filename <> Path.filename in_entry ->
  quiet args = false ->
  let out_entry := Path.replace_filename in_entry out_filename in
  let printed := stdout_of (log (snd (process_entry E F args re in_entry w))) in
  (recursive args = false ->
   printed
   = stdout_of (log w)
     ++ (if dry_run args
         then Path.filename in_entry ++ " -> (dry run)" ++ Path.filename out_entry
         else Path.filename in_entry ++ " -> " ++ Path.filename out_entry)
     ++ endl)
  /\ (recursive args = true ->
      forall a b,
        Path.absolute (cwd w) in_entry = inr a ->
        Path.absolute (cwd w) out_entry = inr b ->
        printed
        = stdout_of (log w)
          ++ (if dry_run args then a ++ " -> (dry run)" ++ b else a ++ " -> " ++ b)
          ++ endl).
Proof.
  intros Hc Hne Hq out_entry printed.
  assert (Hgen : forall a b,
    path_display_name (recursive args) (cwd w) in_entry = inr a ->
    path_display_name (recursive args) (cwd w) out_entry = inr b ->
    printed
    = stdout_of (log w)
      ++ (if dry_run args then a ++ " -> (dry run)" ++ b else a ++ " -> " ++ b)
      ++ endl).
  { intros a b Ha Hb. unfold printed.
    rewrite (process_entry_reported E F args re in_entry w out_filename a b
               Hc Hne Hq Ha Hb). cbn [snd].
    pose proof (effect_trans F args _ _ _ _ _ _ _
                  (effect_report F args w a b in_entry out_entry Ha Hb)
                  (effect_apply F args (add w (report_events args a b))
                                in_entry out_entry)) as Heff.
    destruct Heff as [_ _ Hout _ _ _]. fold out_entry. rewrite Hout.
    cbn [app flat_map]. unfold report_line, display_text. cbn [fst snd].
    rewrite Ha, Hb, app_nil_r. reflexivity. }
  split.
  - intros Hr. apply Hgen; unfold path_display_name; now rewrite Hr.
  - intros Hr a b Ha Hb. apply Hgen; unfold path_display_name; now rewrite Hr.
Qed.

Lemma C8_report_line_witness :
  stdout_of (log (snd (process_entry ecma memfs demo_args demo_re "d/b.txt" demo_world)))
  = "b.txt -> b" ++ endl
  /\ stdout_of (log (snd (process_entry ecma memfs demo_args_recursive_dry_run demo_re
                                        "d/b.txt" demo_world)))
     = "/home/u/d/b.txt -> (dry run)/home/u/d/b" ++ endl.
Proof.
  split.
  - apply (proj1 (C8_report_line ecma memfs demo_args demo_re ("d/b.txt" : str)
                    ("b" : str) demo_world eq_refl
                    ltac:(vm_compute; discriminate) eq_refl)).
    reflexivity.
  - apply (proj2 (C8_report_line ecma memfs demo_args_recursive_dry_run demo_re
                    ("d/b.txt" : str) ("b" : str) demo_world eq_refl
                    ltac:(vm_compute; discriminate) eq_refl)
             eq_refl ("/home/u/d/b.txt" : str) ("/home/u/d/b" : str));
      reflexivity.
Defined.

(** C9.  When the substitution throws at an entry, the run stops there:
    the error goes to [std::cerr] behind the prefix and [main] exits with
    [EXIT_FAILURE].  The entries sorted before it have been processed: the
    filesystem is the one their renames left, and those renames are the
    only ones called. *)
Theorem C9_substitution_error_is_partial (E : Regex.Engine) (F : Fs.FileSystem)
        (args : arguments) (w : world F) re base entries before in_entry after e :
  Regex.compile E (pattern args) = inr re ->
  base_path F args w = inr base ->
  enumerate F (recursive args) base (fs w) = inr entries ->
  sort Path.compare entries = before ++ in_entry :: after ->
  forallb (no_fatal E args (cwd w) re) before = true ->
  computed E args re in_entry = inl e ->
  let plan := if dry_run args then [] else planned E args re before in
  exists w',
    main E F args w = (Exited EXIT_FAILURE, w')
    /\ EXIT_FAILURE <> 0
    /\ fs w' = fst (replay (fs w) plan)
    /\ renames_of (log w') = renames_of (log w) ++ plan
    /\ exists earlier,
         stderr_of (log w') = earlier ++ error_prefix ++ regex_what e ++ endl.
Proof.
  intros Hc Hb He Hsort Hok Herr plan.
  destruct (loop_completes E F args re before
              (add w [OpenDir (recursive args) base]) Hok) as (w1 & Hrun & Heff).
  pose proof (loop_stops_at_substitution_error E F args re before in_entry after
                _ w1 e Hrun Herr) as Hstop.
  exists (add w1 [Cerr error_prefix; Cerr (regex_what e); Cerr endl]).
  split.
  - unfold main. rewrite (rename_reaches_loop E F args w re base entries Hc Hb He).
    now rewrite Hsort, Hstop.
  - split; [discriminate|].
    destruct Heff as [_ Hfs _ _ Hren _]. cbn [add fs log] in *.
    split; [exact Hfs|]. split.
    + rewrite renames_of_app, Hren, renames_of_app. cbn [renames_of flat_map app].
      now rewrite !app_nil_r.
    + exists (stderr_of (log w1)). rewrite stderr_of_app. reflexivity.
Qed.

Lemma C9_substitution_error_is_partial_witness :
  exists w',
    main ecma memfs demo_args long_world = (Exited EXIT_FAILURE, w')
    /\ renames_of (log w') = [("d/a.txt" : str, "d/a" : str)]
    /\ MemFs.lookup (fs w') "d/a" = Some MemFs.Regular
    /\ MemFs.lookup (fs w') "d/a.txt" = None.
Proof.
  destruct (C9_substitution_error_is_partial ecma memfs demo_args long_world demo_re
              ("d" : str) [long_name; "d/a.txt" : str] ["d/a.txt" : str] long_name []
              Ecma.error_complexity eq_refl eq_refl eq_refl eq_refl eq_refl)
    as (w' & Hmain & _ & Hfs & Hren & _).
  - vm_compute; reflexivity.
  - exists w'. split; [exact Hmain|]. split; [exact Hren|].
    rewrite Hfs. split; reflexivity.
Defined.

(** C10.  The two runs of [rename -r foo bar ../b] from a working directory
    that cannot be named, without and with [-q].  Without it, the display
    name of the first entry to report is asked for, [absolute] throws
    outside any [try], and the process is terminated before any rename;
    with it, the file is renamed and the exit status is 0. *)
Theorem C10_quiet_changes_the_outcome :
  main ecma memfs lost_args lost_world
  = (Terminated, add lost_world [OpenDir true ("../b" : str)])
  /\ main ecma memfs (with_quiet lost_args true) lost_world
     = (Exited 0,
        {| fs := [("../b" : str, MemFs.Directory); ("../b/bar" : str, MemFs.Regular)]
                 : Fs.state memfs;
           cwd := cwd lost_world;
           log := [OpenDir true ("../b" : str);
                   SysRename ("../b/foo" : str) ("../b/bar" : str)] |})
  /\ fs (snd (main ecma memfs lost_args lost_world))
     <> fs (snd (main ecma memfs (with_quiet lost_args true) lost_world)).
Proof.
  split; [vm_compute; reflexivity|].
  split; [vm_compute; reflexivity|].
  vm_compute. discriminate.
Qed.

(** * The argument parser

    [parse_option] (lines 41-79) is the callback [argp_parse] calls: once
    for each option with the option's key, once for each positional
    argument with [ARGP_KEY_ARG] and, in [state->arg_num], the number of
    positional arguments handled before it, and at the end with
    [ARGP_KEY_END]; also with keys that mark the phases of the parse.
    [argp_usage] prints the usage and leaves the process. *)

Module Argp.

(** The keys, from [main.cpp] and from [argp.h]. *)
Definition OPTION_DRY_RUN : Z := 110.    (* 'n' *)
Definition OPTION_RECURSIVE : Z := 114.  (* 'r' *)
Definition OPTION_QUIET : Z := 113.      (* 'q' *)
Definition ARGP_KEY_ARG : Z := 0.
Definition ARGP_KEY_END : Z := 0x1000001.
Definition ARGP_KEY_NO_ARGS : Z := 0x1000002.
Definition ARGP_KEY_INIT : Z := 0x1000003.
Definition ARGP_KEY_SUCCESS : Z := 0x1000004.
Definition ARGP_KEY_FINI : Z := 0x1000007.
Definition ARGP_ERR_UNKNOWN : Z := 7.    (* E2BIG *)

(** [struct arguments] as the parser fills it: the three pointers may be
    null. *)
Record arguments := {
  pattern : option str;
  replacement : option str;
  path : option str;
  dry_run : bool;
  recursive : bool;
  quiet : bool
}.

(** [arguments arguments;] with its default member initialisers. *)
Definition initial : arguments :=
  {| pattern := None; replacement := None; path := None;
     dry_run := false; recursive := false; quiet := false |}.

(** What a call of the callback comes to: it returns an error code, or it
    has called [argp_usage]. *)
Inductive outcome :=
| Return (err : Z) (args : arguments)
| Usage.

Definition parse_option (key : Z) (arg : option str) (arg_num : nat) (args : arguments)
  : outcome :=
  if (key =? OPTION_DRY_RUN)%Z then
    Return 0 {| pattern := pattern args; replacement := replacement args;
                path := path args; dry_run := true;
                recursive := recursive args; quiet := quiet args |}
  else if (key =? OPTION_RECURSIVE)%Z then
    Return 0 {| pattern := pattern args; replacement := replacement args;
                path := path args; dry_run := dry_run args;
                recursive := true; quiet := quiet args |}
  else if (key =? OPTION_QUIET)%Z then
    Return 0 {| pattern := pattern args; replacement := replacement args;
                path := path args; dry_run := dry_run args;
                recursive := recursive args; quiet := true |}
  else if (key =? ARGP_KEY_ARG)%Z then
    match arg_num with
    | 0 => Return 0 {| pattern := arg; replacement := replacement args;
                       path := path args; dry_run := dry_run args;
                       recursive := recursive args; quiet := quiet args |}
    | 1 => Return 0 {| pattern := pattern args; replacement := arg;
                       path := path args; dry_run := dry_run args;
                       recursive := recursive args; quiet := quiet args |}
    | 2 => Return 0 {| pattern := pattern args; replacement := replacement args;
                       path := arg; dry_run := dry_run args;
                       recursive := recursive args; quiet := quiet args |}
    | _ => Usage
    end
  else if (key =? ARGP_KEY_END)%Z then
    if Nat.ltb arg_num 2 then Usage else Return 0 args
  else Return ARGP_ERR_UNKNOWN args.

(** The command line as [argp_parse] reads it with the table
    [argp_options]: the options of the table, and the positional
    arguments, in the order they stand. *)
Inductive flag := DryRun | Recursive | Quiet.

Definition key_of (f : flag) : Z :=
  match f with
  | DryRun => OPTION_DRY_RUN
  | Recursive => OPTION_RECURSIVE
  | Quiet => OPTION_QUIET
  end.

Inductive token :=
| Flag (f : flag)
| Argument (text : str).

Inductive parse_result :=
| Parsed (args : arguments)
| UsageExit                (* the callback called [argp_usage] *)
| ParseError (err : Z).    (* the callback refused an option or an argument *)

(** A phase key: the callback may not know it, which is no error. *)
Definition phase (key : Z) (arg_num : nat) (args : arguments) : outcome :=
  match parse_option key None arg_num args with
  | Return _ args' => Return 0 args'
  | Usage => Usage
  end.

(** The end of the parse: [ARGP_KEY_NO_ARGS] when there was no positional
    argument, [ARGP_KEY_END], then [ARGP_KEY_SUCCESS] and
    [ARGP_KEY_FINI]. *)
Definition finish (arg_num : nat) (args : arguments) : parse_result :=
  match (match arg_num with
         | 0 => phase ARGP_KEY_NO_ARGS arg_num args
         | _ => Return 0 args
         end) with
  | Usage => UsageExit
  | Return _ a1 =>
      match phase ARGP_KEY_END arg_num a1 with
      | Usage => UsageExit
      | Return _ a2 =>
          match phase ARGP_KEY_SUCCESS arg_num a2 with
          | Usage => UsageExit
          | Return _ a3 =>
              match phase ARGP_KEY_FINI arg_num a3 with
              | Usage => UsageExit
              | Return _ a4 => Parsed a4
              end
          end
      end
  end.

Fixpoint parse_tokens (tokens : list token) (arg_num : nat) (args : arguments)
  : parse_result :=
  match tokens with
  | [] => finish arg_num args
  | Flag f :: rest =>
      match parse_option (key_of f) None arg_num args with
      | Usage => UsageExit
      | Return err args' =>
          if (err =? 0)%Z then parse_tokens rest arg_num args' else ParseError err
      end
  | Argument text :: rest =>
      match parse_option ARGP_KEY_ARG (Some text) arg_num args with
      | Usage => UsageExit
      | Return err args' =>
          if (err =? 0)%Z then parse_tokens rest (S arg_num) args' else ParseError err
      end
  end.

(** [argp_parse(&argp, argc, argv, 0, nullptr, &arguments)] of [main]. *)
Definition argp_parse (tokens : list token) : parse_result :=
  match phase ARGP_KEY_INIT 0 initial with
  | Usage => UsageExit
  | Return _ args => parse_tokens tokens 0 args
  end.

(** What the command line holds. *)
Fixpoint positionals (tokens : list token) : list str :=
  match tokens with
  | [] => []
  | Flag _ :: rest => positionals rest
  | Argument text :: rest => text :: positionals rest
  end.

Definition flag_eqb (f g : flag) : bool :=
  match f, g with
  | DryRun, DryRun | Recursive, Recursive | Quiet, Quiet => true
  | _, _ => false
  end.

Fixpoint has_flag (f : flag) (tokens : list token) : bool :=
  match tokens with
  | [] => false
  | Flag g :: rest => flag_eqb f g || has_flag f rest
  | Argument _ :: rest => has_flag f rest
  end.

(** The struct with the flags of the command line raised. *)
Definition raise (tokens : list token) (args : arguments) : arguments :=
  {| pattern := pattern args; replacement := replacement args; path := path args;
     dry_run := dry_run args || has_flag DryRun tokens;
     recursive := recursive args || has_flag Recursive tokens;
     quiet := quiet args || has_flag Quiet tokens |}.

(** The positional arguments stored from slot [n] on; there are three
    slots. *)
Fixpoint place (n : nat) (texts : list str) (args : arguments) : option arguments :=
  match texts with
  | [] => Some args
  | text :: rest =>
      match parse_option ARGP_KEY_ARG (Some text) n args with
      | Return _ args' => place (S n) rest args'
      | Usage => None
      end
  end.

Lemma raise_nil args : raise [] args = args.
Proof. destruct args; unfold raise; simpl. now rewrite !orb_false_r. Qed.

Lemma parse_flag f n args :
  parse_option (key_of f) None n args = Return 0 (raise [Flag f] args).
Proof.
  destruct args, f; unfold raise; simpl; now rewrite ?orb_false_r, ?orb_true_r.
Qed.

Lemma raise_cons_flag f rest args :
  raise (Flag f :: rest) args = raise rest (raise [Flag f] args).
Proof.
  destruct args as [p r pa d rc q], f; unfold raise; simpl;
    destruct d, rc, q; reflexivity.
Qed.

Lemma raise_cons_argument text rest args :
  raise (Argument text :: rest) args = raise rest args.
Proof. reflexivity. Qed.

(** Storing a positional argument and raising flags do not disturb each
    other. *)
Lemma parse_argument_raise tokens text n args :
  parse_option ARGP_KEY_ARG (Some text) n (raise tokens args)
  = match parse_option ARGP_KEY_ARG (Some text) n args with
    | Return err args' => Return err (raise tokens args')
    | Usage => Usage
    end.
Proof. destruct n as [|[|[|n]]]; reflexivity. Qed.

Lemma place_raise tokens : forall texts n args,
  place n texts (raise tokens args)
  = option_map (raise tokens) (place n texts args).
Proof.
  induction texts as [|text texts IH]; intros n args; [reflexivity|].
  cbn [place]. rewrite parse_argument_raise.
  destruct (parse_option ARGP_KEY_ARG (Some text) n args); [apply IH | reflexivity].
Qed.

(** The parse from any point on: the slots left must take the positional
    arguments to come, and two slots must be filled at the end. *)
Lemma parse_tokens_spec : forall tokens n args,
  parse_tokens tokens n args
  = match place n (positionals tokens) (raise tokens args) with
    | None => UsageExit
    | Some args' =>
        if Nat.ltb (n + List.length (positionals tokens)) 2 then UsageExit
        else Parsed args'
    end.
Proof.
  induction tokens as [|[f|text] tokens IH]; intros n args.
  - simpl. rewrite raise_nil, Nat.add_0_r.
    destruct n as [|[|n]]; reflexivity.
  - cbn [parse_tokens positionals]. rewrite parse_flag. cbn [Z.eqb].
    rewrite IH. now rewrite <- raise_cons_flag.
  - cbn [parse_tokens positionals place]. rewrite raise_cons_argument.
    rewrite parse_argument_raise.
    destruct (parse_option ARGP_KEY_ARG (Some text) n args) as [err args'|] eqn:Hp;
      [|reflexivity].
    assert (Herr : err = 0%Z)
      by (destruct n as [|[|[|n]]]; vm_compute in Hp; congruence).
    subst err. cbn [Z.eqb]. rewrite IH. cbn [List.length].
    now rewrite Nat.add_succ_comm.
Qed.

End Argp.

(** The struct with its two required pointers set is what [rename]
    takes. *)
Definition complete (parsed : Argp.arguments) : option arguments :=
  match Argp.pattern parsed, Argp.replacement parsed with
  | Some p, Some r =>
      Some {| pattern := p; replacement := r; path := Argp.path parsed;
              dry_run := Argp.dry_run parsed; recursive := Argp.recursive parsed;
              quiet := Argp.quiet parsed |}
  | _, _ => None
  end.

(** The whole parse in closed form: two or three positional arguments fill
    the struct, any other number ends in [argp_usage]. *)
Lemma argp_parse_spec tokens :
  Argp.argp_parse tokens
  = match Argp.positionals tokens with
    | p :: r :: rest =>
        match rest with
        | [] | [_] =>
            Argp.Parsed
              {| Argp.pattern := Some p; Argp.replacement := Some r;
                 Argp.path := hd_error rest;
                 Argp.dry_run := Argp.has_flag Argp.DryRun tokens;
                 Argp.recursive := Argp.has_flag Argp.Recursive tokens;
                 Argp.quiet := Argp.has_flag Argp.Quiet tokens |}
        | _ => Argp.UsageExit
        end
    | _ => Argp.UsageExit
    end.
Proof.
  change (Argp.argp_parse tokens) with (Argp.parse_tokens tokens 0 Argp.initial).
  rewrite Argp.parse_tokens_spec.
  destruct (Argp.positionals tokens) as [|p [|r [|d [|x rest]]]]; reflexivity.
Qed.

(** X1.  A command line with two or three positional arguments, flags
    anywhere among them, is accepted: the first is the pattern, the second
    the replacement, the third, if there is one, the path; a flag is set
    exactly when its option occurs.  The two required pointers are set, so
    the struct is one [rename] can take. *)
Theorem argp_parse_accepts tokens p r rest :
  Argp.positionals tokens = p :: r :: rest ->
  List.length rest <= 1 ->
  exists parsed,
    Argp.argp_parse tokens = Argp.Parsed parsed
    /\ complete parsed
       = Some {| pattern := p; replacement := r; path := hd_error rest;
                 dry_run := Argp.has_flag Argp.DryRun tokens;
                 recursive := Argp.has_flag Argp.Recursive tokens;
                 quiet := Argp.has_flag Argp.Quiet tokens |}.
Proof.
  intros Hpos Hlen. rewrite argp_parse_spec, Hpos.
  destruct rest as [|d [|x rest]]; [| |simpl in Hlen; lia];
    eexists; split; reflexivity.
Qed.

(** [rename -n '(.)\.txt' -q '$1' d] *)
Definition demo_tokens : list Argp.token :=
  [Argp.Flag Argp.DryRun; Argp.Argument "(.)\.txt"; Argp.Flag Argp.Quiet;
   Argp.Argument "$1"; Argp.Argument "d"].

Lemma argp_parse_accepts_witness :
  exists parsed,
    Argp.argp_parse demo_tokens = Argp.Parsed parsed
    /\ complete parsed
       = Some {| pattern := "(.)\.txt"; replacement := "$1"; path := Some ("d" : str);
                 dry_run := true; recursive := false; quiet := true |}.
Proof.
  apply (argp_parse_accepts demo_tokens ("(.)\.txt" : str) ("$1" : str) ["d" : str]).
  - reflexivity.
  - simpl; lia.
Defined.

(** X2.  With fewer than two positional arguments, or more than three, the
    parse ends in [argp_usage], whatever the flags; and no command line
    makes the callback refuse an option or an argument. *)
Theorem argp_parse_usage tokens :
  (List.length (Argp.positionals tokens) < 2 \/ 3 < List.length (Argp.positionals tokens) ->
   Argp.argp_parse tokens = Argp.UsageExit)
  /\ (Argp.argp_parse tokens = Argp.UsageExit ->
      List.length (Argp.positionals tokens) < 2 \/ 3 < List.length (Argp.positionals tokens))
  /\ forall err, Argp.argp_parse tokens <> Argp.ParseError err.
Proof.
  rewrite argp_parse_spec.
  destruct (Argp.positionals tokens) as [|p [|r [|d [|x rest]]]]; simpl;
    repeat split; intros; try discriminate; try lia; auto.
Qed.

Lemma argp_parse_usage_witness :
  Argp.argp_parse [Argp.Flag Argp.Recursive; Argp.Argument "foo"] = Argp.UsageExit
  /\ Argp.argp_parse [Argp.Argument "a"; Argp.Argument "b"; Argp.Argument "c";
                      Argp.Argument "d"] = Argp.UsageExit.
Proof.
  split.
  - apply (proj1 (argp_parse_usage _)). left. simpl; lia.
  - apply (proj1 (argp_parse_usage _)). right. simpl; lia.
Defined.

(** X3.  Where the flags stand among the positional arguments, and how
    often each is given, makes no difference to the parse. *)
Theorem argp_parse_flags_anywhere tokens tokens' :
  Argp.positionals tokens = Argp.positionals tokens' ->
  (forall f, Argp.has_flag f tokens = Argp.has_flag f tokens') ->
  Argp.argp_parse tokens = Argp.argp_parse tokens'.
Proof.
  intros Hpos Hflags. rewrite !argp_parse_spec, Hpos, !Hflags. reflexivity.
Qed.

(** [rename a b -n -n -q] and [rename -q a -n b] *)
Lemma argp_parse_flags_anywhere_witness :
  Argp.argp_parse [Argp.Argument "a"; Argp.Argument "b"; Argp.Flag Argp.DryRun;
                   Argp.Flag Argp.DryRun; Argp.Flag Argp.Quiet]
  = Argp.argp_parse [Argp.Flag Argp.Quiet; Argp.Argument "a"; Argp.Flag Argp.DryRun;
                     Argp.Argument "b"].
Proof.
  apply argp_parse_flags_anywhere.
  - reflexivity.
  - intros []; reflexivity.
Defined.

(** * Every way a run can end

    What holds of the loop, and of [main], whether the run returns, exits
    or is terminated. *)

Section Outcomes.
Context (E : Regex.Engine) (F : Fs.FileSystem).

(** Diagnostics as lines 86, 98, 116, 129 and 150 write them. *)
Definition diagnostics (whats : list str) : str :=
  flat_map (fun what => error_prefix ++ what ++ endl) whats.

(** The renames a run over [entries] is to call. *)
Definition plan_of (args : arguments) (re : Regex.regex E) (entries : list Path.t)
  : list (Path.t * Path.t) :=
  if dry_run args then [] else planned E args re entries.

Record outcome_ok (args : arguments) (re : Regex.regex E) (entries : list Path.t)
       (w : world F) (r : control unit * world F) : Prop := {
  out_renames :
    exists n, renames_of (log (snd r))
              = renames_of (log w) ++ firstn n (plan_of args re entries);
  out_returned :
    forall u, fst r = Normal u ->
              renames_of (log (snd r)) = renames_of (log w) ++ plan_of args re entries;
  out_stderr :
    exists whats,
      stderr_of (log (snd r)) = stderr_of (log w) ++ diagnostics whats
      /\ (forall c, fst r = Exit c -> c = EXIT_FAILURE /\ whats <> []);
  out_uncaught :
    forall e, fst r = Uncaught e -> recursive args = true /\ quiet args = false
}.

Lemma diagnostics_app l1 l2 : diagnostics (l1 ++ l2) = diagnostics l1 ++ diagnostics l2.
Proof. apply flat_map_app. Qed.

Lemma diagnostics_errors errs :
  flat_map diagnostic errs = diagnostics (map fs_what errs).
Proof.
  induction errs as [|e errs IH]; [reflexivity|].
  simpl. unfold diagnostics in IH. now rewrite IH.
Qed.

Lemma firstn_prefix_app {A} n (l1 l2 : list A) :
  exists n', firstn n l1 = firstn n' (l1 ++ l2).
Proof.
  destruct (Nat.le_gt_cases n (List.length l1)) as [Hle|Hgt].
  - exists n. rewrite firstn_app.
    replace (n - List.length l1) with 0 by lia. simpl. now rewrite app_nil_r.
  - exists (List.length l1). rewrite firstn_all2 by lia.
    rewrite firstn_app, Nat.sub_diag, firstn_all. simpl. now rewrite app_nil_r.
Qed.

Lemma plan_of_cons args re e entries :
  plan_of args re (e :: entries) = plan_of args re [e] ++ plan_of args re entries.
Proof.
  unfold plan_of, planned. destruct (dry_run args); [reflexivity|].
  simpl. now rewrite app_nil_r.
Qed.

Lemma path_display_name_throws recursive current p e :
  path_display_name recursive current p = inl e -> recursive = true.
Proof. destruct recursive; [reflexivity | discriminate]. Qed.

(** An effect, as the lemmas on the loop body give it, read as an
    outcome. *)
Lemma effect_outcome args re e w w' reports :
  effect args w w' reports (plan_of args re [e]) ->
  outcome_ok args re [e] w (Normal tt, w').
Proof.
  intros [_ _ _ Herr Hren _]. constructor; cbn [fst snd].
  - exists (List.length (plan_of args re [e])). now rewrite firstn_all.
  - intros _ _. exact Hren.
  - eexists. split; [rewrite Herr, diagnostics_errors; reflexivity|].
    intros c Hc. discriminate Hc.
  - intros x Hx. discriminate Hx.
Qed.

Lemma unchanged_outcome args re entries w events :
  renames_of events = [] -> stderr_of events = [] ->
  plan_of args re entries = [] ->
  outcome_ok args re entries w (Normal tt, add w events).
Proof.
  intros Hr He Hp. constructor; cbn [fst snd add log].
  - exists 0. now rewrite renames_of_app, Hr.
  - intros _ _. now rewrite renames_of_app, Hr, Hp.
  - exists []. split; [now rewrite stderr_of_app, He|]. intros c Hc; discriminate Hc.
  - intros x Hx; discriminate Hx.
Qed.

Lemma process_entry_outcome args re in_entry w :
  outcome_ok args re [in_entry] w (process_entry E F args re in_entry w).
Proof.
  destruct (computed E args re in_entry) as [err|out] eqn:Hc.
  - rewrite (process_entry_substitution_error E F _ _ _ _ _ Hc).
    constructor; cbn [fst snd add log].
    + exists 0. rewrite renames_of_app. reflexivity.
    + intros u Hu. discriminate Hu.
    + exists [regex_what err]. split.
      * rewrite stderr_of_app. unfold stderr_of, diagnostics, endl. simpl.
        now rewrite !app_nil_r.
      * intros c Hx. injection Hx as <-. split; [reflexivity | discriminate].
    + intros x Hx. discriminate Hx.
  - destruct (list_eq_dec ascii_dec out (Path.filename in_entry)) as [->|Hne].
    + rewrite (process_entry_unchanged E F _ _ _ _ Hc).
      rewrite <- (add_nil F w) at 2. apply unchanged_outcome; try reflexivity.
      unfold plan_of, planned, destination. simpl. rewrite Hc, str_eqb_refl.
      now destruct (dry_run args).
    + assert (Hplan : plan_of args re [in_entry]
                      = if dry_run args then []
                        else [(in_entry, Path.replace_filename in_entry out)]).
      { unfold plan_of, planned, destination. simpl. rewrite Hc.
        assert (Hneq : str_eqb (Path.filename in_entry) out = false)
          by (apply str_eqb_neq; congruence).
        now rewrite Hneq. }
      destruct (quiet args) eqn:Hq.
      * rewrite (process_entry_quiet E F _ _ _ _ _ Hc Hne Hq).
        apply (effect_outcome args re in_entry w _ []). rewrite Hplan.
        apply effect_apply.
      * destruct (path_display_name (recursive args) (cwd w) in_entry) as [x|a] eqn:Ha.
        { rewrite (process_entry_display_throws_first E F _ _ _ _ _ _ Hc Hne Hq Ha).
          constructor; cbn [fst snd].
          - exists 0. simpl. now rewrite app_nil_r.
          - intros u Hu. discriminate Hu.
          - exists []. split; [simpl; now rewrite app_nil_r|]. intros c Hx; discriminate Hx.
          - intros y _. split; [|exact Hq].
            exact (path_display_name_throws _ _ _ _ Ha). }
        destruct (path_display_name (recursive args) (cwd w)
                    (Path.replace_filename in_entry out)) as [x|b] eqn:Hb.
        { rewrite (process_entry_display_throws_second E F _ _ _ _ _ _ _ Hc Hne Hq Ha Hb).
          constructor; cbn [fst snd add log].
          - exists 0. rewrite renames_of_app. reflexivity.
          - intros u Hu. discriminate Hu.
          - exists []. split; [rewrite stderr_of_app; reflexivity|].
            intros c Hx; discriminate Hx.
          - intros y _. split; [|exact Hq].
            exact (path_display_name_throws _ _ _ _ Hb). }
        rewrite (process_entry_reported E F _ _ _ _ _ _ _ Hc Hne Hq Ha Hb).
        apply (effect_outcome args re in_entry w _
                 ([(in_entry, Path.replace_filename in_entry out)] ++ [])).
        rewrite Hplan.
        replace (if dry_run args then []
                 else [(in_entry, Path.replace_filename in_entry out)])
          with ([] ++ (if dry_run args then []
                       else [(in_entry, Path.replace_filename in_entry out)]))
          by reflexivity.
        eapply effect_trans; [apply effect_report; eauto | apply effect_apply].
Qed.

Lemma loop_outcome args re : forall entries w,
  outcome_ok args re entries w (for_each F entries (process_entry E F args re) w).
Proof.
  induction entries as [|e entries IH]; intros w.
  - cbn [for_each]. unfold ret. rewrite <- (add_nil F w) at 2.
    apply unchanged_outcome; try reflexivity.
    unfold plan_of. now destruct (dry_run args).
  - cbn [for_each]. unfold bind.
    pose proof (process_entry_outcome args re e w) as H1.
    destruct (process_entry E F args re e w) as [[[]|c|x] w1] eqn:Hp.
    + destruct H1 as [_ Hret1 (wh1 & Herr1 & _) _]. cbn [fst snd] in *.
      specialize (Hret1 tt eq_refl).
      destruct (IH w1) as [(n & Hn) Hret (wh & Herr & Hexit) Hunc].
      constructor.
      * exists (List.length (plan_of args re [e]) + n).
        rewrite Hn, Hret1, (plan_of_cons args re e entries), firstn_app_2. now rewrite app_assoc.
      * intros u Hu. rewrite (Hret u Hu), Hret1, (plan_of_cons args re e entries). now rewrite app_assoc.
      * exists (wh1 ++ wh). split.
        -- rewrite Herr, Herr1, diagnostics_app. now rewrite app_assoc.
        -- intros c Hc. destruct (Hexit c Hc) as [-> Hne]. split; [reflexivity|].
           destruct wh1; [exact Hne | discriminate].
      * exact Hunc.
    + destruct H1 as [(n & Hn) _ Herr _]. cbn [fst snd] in *.
      constructor; cbn [fst snd].
      * destruct (firstn_prefix_app n (plan_of args re [e]) (plan_of args re entries))
          as (n' & Hn').
        exists n'. now rewrite (plan_of_cons args re e entries), <- Hn'.
      * intros u Hu. discriminate Hu.
      * exact Herr.
      * intros y Hy. discriminate Hy.
    + destruct H1 as [(n & Hn) _ Herr Hunc]. cbn [fst snd] in *.
      constructor; cbn [fst snd].
      * destruct (firstn_prefix_app n (plan_of args re [e]) (plan_of args re entries))
          as (n' & Hn').
        exists n'. now rewrite (plan_of_cons args re e entries), <- Hn'.
      * intros u Hu. discriminate Hu.
      * destruct Herr as (wh & Herr & _). exists wh. split; [exact Herr|].
        intros c Hc. discriminate Hc.
      * exact Hunc.
Qed.

End Outcomes.

Arguments outcome_ok {E F} args re entries w r.

Section Gates.
Context (E : Regex.Engine) (F : Fs.FileSystem).

(** The three writes of a fatal diagnostic. *)
Definition fatal_events (what : str) : list event :=
  [Cerr error_prefix; Cerr what; Cerr endl].

Lemma rename_path_error args (w : world F) re e :
  Regex.compile E (pattern args) = inr re ->
  base_path F args w = inl e ->
  rename E F args w = (Exit EXIT_FAILURE, add w (fatal_events (fs_what e))).
Proof.
  intros Hc Hb. unfold rename, bind, ret. now rewrite Hc, Hb, fatal_add.
Qed.

Lemma rename_enumeration_error args (w : world F) re base e :
  Regex.compile E (pattern args) = inr re ->
  base_path F args w = inr base ->
  enumerate F (recursive args) base (fs w) = inl e ->
  rename E F args w
  = (Exit EXIT_FAILURE,
     add w (OpenDir (recursive args) base :: fatal_events (fs_what e))).
Proof.
  intros Hc Hb He. unfold rename, bind, ret. rewrite Hc, Hb, emit_add. cbn [add fs].
  now rewrite He, fatal_add, add_add.
Qed.

(** The four ways through [rename]: one for each gate that closes, and the
    loop. *)
Lemma rename_cases args (w : world F) :
  (exists e, Regex.compile E (pattern args) = inl e
             /\ rename E F args w
                = (Exit EXIT_FAILURE, add w (fatal_events (regex_what e))))
  \/ (exists re e, Regex.compile E (pattern args) = inr re
                   /\ base_path F args w = inl e
                   /\ rename E F args w
                      = (Exit EXIT_FAILURE, add w (fatal_events (fs_what e))))
  \/ (exists re base e,
         Regex.compile E (pattern args) = inr re
         /\ base_path F args w = inr base
         /\ enumerate F (recursive args) base (fs w) = inl e
         /\ rename E F args w
            = (Exit EXIT_FAILURE,
               add w (OpenDir (recursive args) base :: fatal_events (fs_what e))))
  \/ (exists re base entries,
         Regex.compile E (pattern args) = inr re
         /\ base_path F args w = inr base
         /\ enumerate F (recursive args) base (fs w) = inr entries
         /\ rename E F args w
            = for_each F (sort Path.compare entries) (process_entry E F args re)
                       (add w [OpenDir (recursive args) base])).
Proof.
  destruct (Regex.compile E (pattern args)) as [e|re] eqn:Hc.
  - left. exists e. split; [reflexivity|]. now apply rename_invalid_pattern.
  - destruct (base_path F args w) as [e|base] eqn:Hb.
    + right; left. exists re, e. split; [reflexivity|]. split; [first [reflexivity | exact Hb]|].
      now apply (rename_path_error args w re).
    + destruct (enumerate F (recursive args) base (fs w)) as [e|entries] eqn:He.
      * right; right; left. exists re, base, e.
        split; [reflexivity|]. split; [first [reflexivity | exact Hb]|]. split; [first [reflexivity | exact He]|].
        now apply (rename_enumeration_error args w re).
      * right; right; right. exists re, base, entries.
        split; [reflexivity|]. split; [first [reflexivity | exact Hb]|]. split; [first [reflexivity | exact He]|].
        now apply rename_reaches_loop.
Qed.

Lemma main_status args (w : world F) :
  fst (main E F args w)
  = match fst (rename E F args w) with
    | Normal _ => Exited 0
    | Exit status => Exited status
    | Uncaught _ => Terminated
    end
  /\ snd (main E F args w) = snd (rename E F args w).
Proof. unfold main. now destruct (rename E F args w) as [[[]|c|x] w']. Qed.

Lemma stderr_of_fatal what : stderr_of (fatal_events what) = diagnostics [what].
Proof. unfold stderr_of, diagnostics, fatal_events. simpl. now rewrite !app_nil_r. Qed.

(** What holds of [rename] whichever way it ends. *)
Lemma rename_outcome args (w : world F) :
  (exists whats,
      stderr_of (log (snd (rename E F args w))) = stderr_of (log w) ++ diagnostics whats
      /\ (forall c, fst (rename E F args w) = Exit c -> c = EXIT_FAILURE /\ whats <> []))
  /\ (forall e, fst (rename E F args w) = Uncaught e ->
                recursive args = true /\ quiet args = false)
  /\ (quiet args = true ->
      stdout_of (log (snd (rename E F args w))) = stdout_of (log w)).
Proof.
  assert (Hfatal : forall what pre,
    stderr_of pre = [] -> stdout_of pre = [] ->
    (exists whats,
        stderr_of (log (add w (pre ++ fatal_events what)))
        = stderr_of (log w) ++ diagnostics whats
        /\ (forall c, @Exit unit EXIT_FAILURE = Exit c -> c = EXIT_FAILURE /\ whats <> []))
    /\ stdout_of (log (add w (pre ++ fatal_events what))) = stdout_of (log w)).
  { intros what pre He Ho. split.
    - exists [what]. split.
      + cbn [add log]. now rewrite !stderr_of_app, He, stderr_of_fatal.
      + intros c Hx. injection Hx as <-. split; [reflexivity | discriminate].
    - cbn [add log]. rewrite !stdout_of_app, Ho. simpl. now rewrite app_nil_r. }
  destruct (rename_cases args w)
    as [(e & _ & ->) | [(re & e & _ & _ & ->) | [(re & base & e & _ & _ & _ & ->)
       | (re & base & entries & _ & _ & _ & ->)]]]; cbn [fst snd].
  - destruct (Hfatal (regex_what e) [] eq_refl eq_refl) as [H1 H2].
    split; [exact H1|]. split; [intros x Hx; discriminate Hx | intros _; exact H2].
  - destruct (Hfatal (fs_what e) [] eq_refl eq_refl) as [H1 H2].
    split; [exact H1|]. split; [intros x Hx; discriminate Hx | intros _; exact H2].
  - destruct (Hfatal (fs_what e) [OpenDir (recursive args) base] eq_refl eq_refl)
      as [H1 H2].
    split; [exact H1|]. split; [intros x Hx; discriminate Hx | intros _; exact H2].
  - destruct (loop_outcome E F args re (sort Path.compare entries)
                (add w [OpenDir (recursive args) base]))
      as [_ _ (whats & Herr & Hexit) Hunc].
    split; [|split].
    + exists whats. split; [|exact Hexit].
      rewrite Herr. cbn [add log]. rewrite stderr_of_app. simpl. now rewrite app_nil_r.
    + exact Hunc.
    + intros Hq.
      rewrite (frame_quiet _ _ _ _
                 (loop_frame E F args re (sort Path.compare entries)
                             (add w [OpenDir (recursive args) base])) Hq).
      cbn [add log]. rewrite stdout_of_app. simpl. now rewrite app_nil_r.
Qed.

End Gates.

(** ** The account of a run

    Whatever the run did, its log accounts for it: the filesystem is the
    one the renames called lead to, and [std::cerr] holds the diagnostic
    of each rename that failed and, last, that of the fatal error if
    there was one. *)

Section Account.
Context (E : Regex.Engine) (F : Fs.FileSystem).

Record account (w : world F) (r : control unit * world F)
       (called : list (Path.t * Path.t)) (fatal_whats : list str) : Prop := {
  acc_renames : renames_of (log (snd r)) = renames_of (log w) ++ called;
  acc_fs : fs (snd r) = fst (replay (fs w) called);
  acc_stderr :
    stderr_of (log (snd r))
    = stderr_of (log w)
      ++ diagnostics (map fs_what (snd (replay (fs w) called)) ++ fatal_whats);
  acc_fatal :
    match fst r with
    | Exit status => status = EXIT_FAILURE /\ exists what, fatal_whats = [what]
    | _ => fatal_whats = []
    end
}.

Lemma account_add_normal (w : world F) events :
  renames_of events = [] -> stderr_of events = [] ->
  account w (Normal tt, add w events) [] [].
Proof.
  intros Hr He. constructor; cbn [fst snd add log fs replay map app].
  - now rewrite renames_of_app, Hr.
  - reflexivity.
  - rewrite stderr_of_app, He. reflexivity.
  - reflexivity.
Qed.

Lemma account_add_uncaught (w : world F) x events :
  renames_of events = [] -> stderr_of events = [] ->
  account w (Uncaught x, add w events) [] [].
Proof.
  intros Hr He. constructor; cbn [fst snd add log fs replay map app].
  - now rewrite renames_of_app, Hr.
  - reflexivity.
  - rewrite stderr_of_app, He. reflexivity.
  - reflexivity.
Qed.

Lemma account_fatal (w : world F) pre what :
  renames_of pre = [] -> stderr_of pre = [] ->
  account w (Exit EXIT_FAILURE, add w (pre ++ fatal_events what)) [] [what].
Proof.
  intros Hr He. constructor; cbn [fst snd add log fs replay map app].
  - rewrite !renames_of_app, Hr. reflexivity.
  - reflexivity.
  - now rewrite !stderr_of_app, He, stderr_of_fatal.
  - split; [reflexivity|]. now exists what.
Qed.

Lemma account_apply_step args src dst (w : world F) :
  account w (Normal tt, apply_step args src dst w)
          (if dry_run args then [] else [(src, dst)]) [].
Proof.
  unfold apply_step. destruct (dry_run args).
  - rewrite <- (add_nil F w) at 2. now apply account_add_normal.
  - destruct (Fs.rename F (fs w) src dst) as [e|st] eqn:Hr;
      constructor; cbn [fst snd add log fs replay map app]; rewrite ?Hr;
      cbn [fst snd map app]; try reflexivity.
    + rewrite renames_of_app. reflexivity.
    + rewrite stderr_of_app. unfold stderr_of, diagnostics, rename_events, endl.
      simpl. now rewrite !app_nil_r.
    + rewrite renames_of_app. reflexivity.
    + rewrite stderr_of_app. simpl. reflexivity.
Qed.

(** A stretch that returned, followed by another. *)
Lemma account_seq (w w1 : world F) r called1 called2 fatal_whats :
  account w (Normal tt, w1) called1 [] ->
  account w1 r called2 fatal_whats ->
  account w r (called1 ++ called2) fatal_whats.
Proof.
  intros [n1 f1 e1 _] [n2 f2 e2 x2]. cbn [fst snd] in *. constructor.
  - rewrite n2, n1. now rewrite app_assoc.
  - rewrite f2, f1, replay_app.
    destruct (replay (fs w) called1) as [sa ea]; cbn [fst].
    now destruct (replay sa called2).
  - rewrite e2, e1, f1, replay_app.
    destruct (replay (fs w) called1) as [sa ea]; cbn [fst snd].
    destruct (replay sa called2) as [sb eb]; cbn [fst snd].
    rewrite app_nil_r, <- app_assoc, <- diagnostics_app.
    now rewrite map_app, <- app_assoc.
  - exact x2.
Qed.

Lemma process_entry_account args re in_entry (w : world F) :
  exists called fatal_whats,
    account w (process_entry E F args re in_entry w) called fatal_whats.
Proof.
  destruct (computed E args re in_entry) as [err|out] eqn:Hc.
  - rewrite (process_entry_substitution_error E F _ _ _ _ _ Hc).
    exists [], [regex_what err]. now apply (account_fatal w []).
  - destruct (list_eq_dec ascii_dec out (Path.filename in_entry)) as [->|Hne].
    + rewrite (process_entry_unchanged E F _ _ _ _ Hc).
      exists [], []. rewrite <- (add_nil F w) at 2. now apply account_add_normal.
    + destruct (quiet args) eqn:Hq.
      * rewrite (process_entry_quiet E F _ _ _ _ _ Hc Hne Hq).
        eexists. exists []. apply account_apply_step.
      * destruct (path_display_name (recursive args) (cwd w) in_entry) as [x|a] eqn:Ha.
        { rewrite (process_entry_display_throws_first E F _ _ _ _ _ _ Hc Hne Hq Ha).
          exists [], []. rewrite <- (add_nil F w) at 2. now apply account_add_uncaught. }
        destruct (path_display_name (recursive args) (cwd w)
                    (Path.replace_filename in_entry out)) as [x|b] eqn:Hb.
        { rewrite (process_entry_display_throws_second E F _ _ _ _ _ _ _ Hc Hne Hq Ha Hb).
          exists [], []. now apply account_add_uncaught. }
        rewrite (process_entry_reported E F _ _ _ _ _ _ _ Hc Hne Hq Ha Hb).
        eexists. exists []. eapply account_seq; [|apply account_apply_step].
        now apply account_add_normal.
Qed.

Lemma loop_account args re : forall entries (w : world F),
  exists called fatal_whats,
    account w (for_each F entries (process_entry E F args re) w) called fatal_whats.
Proof.
  induction entries as [|e entries IH]; intros w.
  - exists [], []. cbn [for_each]. unfold ret. rewrite <- (add_nil F w) at 2.
    now apply account_add_normal.
  - cbn [for_each]. unfold bind.
    destruct (process_entry_account args re e w) as (c1 & f1 & H1).
    destruct (process_entry E F args re e w) as [[[]|c|x] w1].
    + destruct (IH w1) as (c2 & f2 & H2).
      assert (f1 = []) as -> by exact (acc_fatal _ _ _ _ H1).
      exists (c1 ++ c2), f2. now apply (account_seq w w1).
    + exists c1, f1. destruct H1 as [n1 s1 e1 x1]. now constructor.
    + exists c1, f1. destruct H1 as [n1 s1 e1 x1]. now constructor.
Qed.

Lemma rename_account args (w : world F) :
  exists called fatal_whats, account w (rename E F args w) called fatal_whats.
Proof.
  destruct (rename_cases E F args w)
    as [(e & _ & ->) | [(re & e & _ & _ & ->) | [(re & base & e & _ & _ & _ & ->)
       | (re & base & entries & _ & _ & _ & ->)]]].
  - exists [], [regex_what e]. now apply (account_fatal w []).
  - exists [], [fs_what e]. now apply (account_fatal w []).
  - exists [], [fs_what e]. now apply (account_fatal w [OpenDir (recursive args) base]).
  - destruct (loop_account args re (sort Path.compare entries)
                (add w [OpenDir (recursive args) base])) as (called & fw & H).
    exists called, fw.
    replace called with ([] ++ called) by reflexivity.
    eapply account_seq; [|exact H]. now apply account_add_normal.
Qed.

End Account.

Arguments account {F} w r called fatal_whats.

(** ** The enumeration (lines 102-118) *)

Section Enumeration.
Context (F : Fs.FileSystem).

(** The predicate of the filter, on an entry whose status can be read. *)
Definition regular (st : Fs.state F) (e : Path.t) : bool :=
  match Fs.is_regular_file F st e with
  | inr true => true
  | _ => false
  end.

Definition status_known (st : Fs.state F) (e : Path.t) : bool :=
  is_ok (Fs.is_regular_file F st e).

Lemma files_transform_cases st : forall it,
  match iterator_to_files_transform F st it with
  | inr files =>
      files = filter (regular st) it /\ forallb (status_known st) it = true
  | inl err =>
      exists before e after,
        it = before ++ e :: after
        /\ forallb (status_known st) before = true
        /\ Fs.is_regular_file F st e = inl err
  end.
Proof.
  induction it as [|e rest IH]; [now split|].
  cbn [iterator_to_files_transform filter forallb].
  assert (Hk : status_known st e = is_ok (Fs.is_regular_file F st e)) by reflexivity.
  assert (Hr : regular st e
               = match Fs.is_regular_file F st e with inr true => true | _ => false end)
    by reflexivity.
  destruct (Fs.is_regular_file F st e) as [err|keep] eqn:He.
  - exists [], e, rest. split; [reflexivity|]. split; [reflexivity | exact He].
  - destruct (iterator_to_files_transform F st rest) as [err|files].
    + destruct IH as (before & x & after & -> & Hb & Hx).
      exists (e :: before), x, after. split; [reflexivity|]. split; [|exact Hx].
      cbn [forallb]. now rewrite Hk, Hb.
    + destruct IH as [-> Hall]. rewrite Hk, Hr, Hall. split; [|reflexivity].
      now destruct keep.
Qed.

Lemma enumerate_regular recursively base st entries src :
  enumerate F recursively base st = inr entries ->
  In src entries -> Fs.is_regular_file F st src = inr true.
Proof.
  unfold enumerate.
  destruct (if recursively then Fs.recursive_directory_iterator F st base
            else Fs.directory_iterator F st base) as [e|it]; [discriminate|].
  intros Ht Hin. pose proof (files_transform_cases st it) as H. rewrite Ht in H.
  destruct H as [-> _]. apply filter_In in Hin as [_ Hr]. unfold regular in Hr.
  destruct (Fs.is_regular_file F st src) as [|[|]]; now try discriminate.
Qed.

End Enumeration.

(** ** The answer of [current_path()] *)

Section WorkingDirectory.
Context (E : Regex.Engine) (F : Fs.FileSystem).

(** The world in which [current_path()] answers [current]: the path it
    returns, or the error it throws.  The filesystem, as the process sees
    it, is the same. *)
Definition with_current_path (current : filesystem_error + Path.t) (w : world F)
  : world F :=
  {| fs := fs w; cwd := current; log := log w |}.

Lemma apply_step_with_current_path args src dst c (w : world F) :
  apply_step args src dst (with_current_path c w) = with_current_path c (apply_step args src dst w).
Proof.
  unfold apply_step. destruct (dry_run args); [reflexivity|].
  cbn [with_current_path fs]. now destruct (Fs.rename F (fs w) src dst).
Qed.

Lemma process_entry_with_current_path args re in_entry c (w : world F) :
  recursive args = false \/ quiet args = true ->
  process_entry E F args re in_entry (with_current_path c w)
  = (fst (process_entry E F args re in_entry w),
     with_current_path c (snd (process_entry E F args re in_entry w))).
Proof.
  intros Hcase.
  destruct (computed E args re in_entry) as [err|out] eqn:Hc.
  - now rewrite !(process_entry_substitution_error E F _ _ _ _ _ Hc).
  - destruct (list_eq_dec ascii_dec out (Path.filename in_entry)) as [->|Hne].
    + now rewrite !(process_entry_unchanged E F _ _ _ _ Hc).
    + destruct (quiet args) eqn:Hq.
      * rewrite !(process_entry_quiet E F _ _ _ _ _ Hc Hne Hq).
        cbn [fst snd]. now rewrite apply_step_with_current_path.
      * destruct Hcase as [Hr|Hx]; [|discriminate Hx].
        assert (Hd : forall current p,
                   path_display_name (recursive args) current p = inr (Path.filename p)).
        { intros current p. now rewrite Hr. }
        rewrite (process_entry_reported E F _ _ _ _ _ _ _ Hc Hne Hq (Hd _ _) (Hd _ _)).
        rewrite (process_entry_reported E F _ _ _ _ _ _ _ Hc Hne Hq (Hd _ _) (Hd _ _)).
        cbn [fst snd]. now rewrite <- apply_step_with_current_path.
Qed.

Lemma loop_with_current_path args re c :
  recursive args = false \/ quiet args = true ->
  forall entries (w : world F),
    for_each F entries (process_entry E F args re) (with_current_path c w)
    = (fst (for_each F entries (process_entry E F args re) w),
       with_current_path c (snd (for_each F entries (process_entry E F args re) w))).
Proof.
  intros Hcase. induction entries as [|e entries IH]; intros w; [reflexivity|].
  cbn [for_each]. unfold bind. rewrite (process_entry_with_current_path _ _ _ _ _ Hcase).
  destruct (process_entry E F args re e w) as [[[]|x|x] w1]; cbn [fst snd];
    [apply IH | reflexivity | reflexivity].
Qed.

Lemma rename_with_current_path args p c (w : world F) :
  path args = Some p ->
  recursive args = false \/ quiet args = true ->
  rename E F args (with_current_path c w)
  = (fst (rename E F args w), with_current_path c (snd (rename E F args w))).
Proof.
  intros Hp Hcase.
  assert (Hb : forall v : world F, base_path F args v = inr p).
  { intros v. unfold base_path. now rewrite Hp. }
  destruct (Regex.compile E (pattern args)) as [e|re] eqn:Hc.
  - now rewrite !(rename_invalid_pattern E F args _ e Hc).
  - destruct (enumerate F (recursive args) p (fs w)) as [e|entries] eqn:He.
    + rewrite (rename_enumeration_error E F args w re p e Hc (Hb _) He).
      now rewrite (rename_enumeration_error E F args (with_current_path c w) re p e Hc (Hb _) He).
    + rewrite (rename_reaches_loop E F args w re p entries Hc (Hb _) He).
      rewrite (rename_reaches_loop E F args (with_current_path c w) re p entries Hc (Hb _) He).
      change (add (with_current_path c w) [OpenDir (recursive args) p])
        with (with_current_path c (add w [OpenDir (recursive args) p])).
      apply (loop_with_current_path args re c Hcase).
Qed.

End WorkingDirectory.

Arguments with_current_path {F} current w.

(** ** The [dry_run] flag *)


Lemma firstn_incl {A} n (l : list A) x : In x (firstn n l) -> In x l.
Proof.
  intros H. rewrite <- (firstn_skipn n l). apply in_or_app. now left.
Qed.

Lemma renames_of_opened (F : Fs.FileSystem) (w : world F) r base :
  renames_of (log (add w [OpenDir r base])) = renames_of (log w).
Proof. cbn [add log]. rewrite renames_of_app. apply app_nil_r. Qed.

(** ** More settings *)

(** [rename '(.)\.txt' '$1'], on the working directory. *)
Definition demo_args_no_path : arguments :=
  {| pattern := "(.)\.txt"; replacement := "$1"; path := None;
     dry_run := false; recursive := false; quiet := false |}.

(** [rename '(.)\.txt' '$1' d/a.txt]: the path is a file. *)
Definition demo_args_on_a_file : arguments :=
  {| pattern := "(.)\.txt"; replacement := "$1"; path := Some ("d/a.txt" : str);
     dry_run := false; recursive := false; quiet := false |}.

(** * Further properties of the run *)

(** X4.  Lines 90-100.  When no path is given and [current_path()] throws,
    the run writes the prefix, the error's text and a newline to
    [std::cerr] and exits with [EXIT_FAILURE], before any directory is
    iterated: nothing else is logged and the filesystem is as it was. *)
Theorem current_path_error_is_fatal (E : Regex.Engine) (F : Fs.FileSystem)
        (args : arguments) (w : world F) re e :
  Regex.compile E (pattern args) = inr re ->
  path args = None ->
  cwd w = inl e ->
  main E F args w = (Exited EXIT_FAILURE, add w (fatal_events (fs_what e)))
  /\ opened_of (log (snd (main E F args w))) = opened_of (log w)
  /\ renames_of (log (snd (main E F args w))) = renames_of (log w)
  /\ stdout_of (log (snd (main E F args w))) = stdout_of (log w).
Proof.
  intros Hc Hp Hcwd.
  assert (Hb : base_path F args w = inl e) by (unfold base_path; now rewrite Hp).
  assert (Hmain : main E F args w
                  = (Exited EXIT_FAILURE, add w (fatal_events (fs_what e)))).
  { unfold main. now rewrite (rename_path_error E F args w re e Hc Hb). }
  rewrite Hmain. split; [reflexivity|]. cbn [snd add log].
  rewrite opened_of_app, renames_of_app, stdout_of_app.
  repeat split; apply app_nil_r.
Qed.

Lemma current_path_error_is_fatal_witness :
  main ecma memfs demo_args_no_path lost_world
  = (Exited EXIT_FAILURE,
     add lost_world
         [Cerr error_prefix;
          Cerr "filesystem error: cannot get current path: No such file or directory";
          Cerr endl]).
Proof.
  exact (proj1 (current_path_error_is_fatal ecma memfs demo_args_no_path lost_world
                  demo_re _ eq_refl eq_refl eq_refl)).
Defined.

(** X5.  Lines 108-118.  When the directory iterator cannot be constructed,
    or reading the status of an entry throws, the run has opened that one
    iterator, writes the diagnostic and exits with [EXIT_FAILURE]: no
    entry is processed, whatever the entries read so far were. *)
Theorem enumeration_error_is_fatal (E : Regex.Engine) (F : Fs.FileSystem)
        (args : arguments) (w : world F) re base e :
  Regex.compile E (pattern args) = inr re ->
  base_path F args w = inr base ->
  enumerate F (recursive args) base (fs w) = inl e ->
  main E F args w
  = (Exited EXIT_FAILURE,
     add w (OpenDir (recursive args) base :: fatal_events (fs_what e)))
  /\ renames_of (log (snd (main E F args w))) = renames_of (log w)
  /\ stdout_of (log (snd (main E F args w))) = stdout_of (log w)
  /\ stderr_of (log (snd (main E F args w)))
     = stderr_of (log w) ++ error_prefix ++ fs_what e ++ endl.
Proof.
  intros Hc Hb He.
  assert (Hmain : main E F args w
                  = (Exited EXIT_FAILURE,
                     add w (OpenDir (recursive args) base :: fatal_events (fs_what e)))).
  { unfold main. now rewrite (rename_enumeration_error E F args w re base e Hc Hb He). }
  rewrite Hmain. split; [reflexivity|]. cbn [snd add log].
  rewrite renames_of_app, stdout_of_app, stderr_of_app.
  split; [apply app_nil_r|]. split; [apply app_nil_r|].
  f_equal; unfold stderr_of, fatal_events; simpl; now rewrite ?app_nil_r.
Qed.

Lemma enumeration_error_is_fatal_witness :
  main ecma memfs demo_args_on_a_file demo_world
  = (Exited EXIT_FAILURE,
     add demo_world
         [OpenDir false ("d/a.txt" : str);
          Cerr error_prefix;
          Cerr ("filesystem error: directory iterator cannot open directory: "
                ++ "Not a directory [d/a.txt]");
          Cerr endl]).
Proof.
  exact (proj1 (enumeration_error_is_fatal ecma memfs demo_args_on_a_file demo_world
                  demo_re ("d/a.txt" : str) _ eq_refl eq_refl eq_refl)).
Defined.

(** X6.  Lines 102-106.  [iterator_to_files_transform] gives the entries
    of the iteration that are regular files, in iteration order, when the
    status of every entry can be read; otherwise it throws the error of
    the first entry, in iteration order, whose status cannot be read. *)
Theorem files_transform_keeps_regular_files (F : Fs.FileSystem)
        (st : Fs.state F) (it : list Path.t) :
  match iterator_to_files_transform F st it with
  | inr files =>
      files = filter (regular F st) it
      /\ forallb (status_known F st) it = true
      /\ (forall e, In e files <-> In e it /\ Fs.is_regular_file F st e = inr true)
  | inl err =>
      exists before e after,
        it = before ++ e :: after
        /\ forallb (status_known F st) before = true
        /\ Fs.is_regular_file F st e = inl err
  end.
Proof.
  pose proof (files_transform_cases F st it) as H.
  destruct (iterator_to_files_transform F st it) as [err|files]; [exact H|].
  destruct H as [-> Hall]. split; [reflexivity|]. split; [exact Hall|].
  intros e. rewrite filter_In. unfold regular.
  destruct (Fs.is_regular_file F st e) as [|[|]]; split; intros [H1 H2];
    try discriminate; now split.
Qed.

(** X7.  Lines 120-153.  Past the three gates, the renames a run calls
    are, in order, an initial part of the plan over the sorted entries
    (none under [dry_run]), however the run ends; and a run that exits
    with status 0 has called the whole plan. *)
Theorem renames_are_a_prefix_of_the_plan (E : Regex.Engine) (F : Fs.FileSystem)
        (args : arguments) (w : world F) re base entries :
  Regex.compile E (pattern args) = inr re ->
  base_path F args w = inr base ->
  enumerate F (recursive args) base (fs w) = inr entries ->
  (exists n,
      renames_of (log (snd (main E F args w)))
      = renames_of (log w)
        ++ firstn n (plan_of E args re (sort Path.compare entries)))
  /\ (fst (main E F args w) = Exited 0 ->
      renames_of (log (snd (main E F args w)))
      = renames_of (log w) ++ plan_of E args re (sort Path.compare entries)).
Proof.
  intros Hc Hb He.
  destruct (main_status E F args w) as [Hst ->]. rewrite Hst.
  rewrite (rename_reaches_loop E F args w re base entries Hc Hb He).
  destruct (loop_outcome E F args re (sort Path.compare entries)
              (add w [OpenDir (recursive args) base]))
    as [(n & Hn) Hret (whats & _ & Hexit) _].
  rewrite renames_of_opened in Hn, Hret.
  split; [now exists n|].
  destruct (for_each F (sort Path.compare entries) (process_entry E F args re)
                     (add w [OpenDir (recursive args) base])) as [[[]|c|x] w'];
    cbn [fst snd] in *.
  - intros _. now apply (Hret tt).
  - intros H0. injection H0 as ->. destruct (Hexit 0 eq_refl) as [Hx _]. discriminate Hx.
  - intros H0. discriminate H0.
Qed.

Lemma renames_are_a_prefix_of_the_plan_witness :
  (exists n,
      renames_of (log (snd (main ecma memfs demo_args long_world)))
      = firstn n [("d/a.txt" : str, "d/a" : str)])
  /\ renames_of (log (snd (main ecma memfs demo_args demo_world)))
     = [("d/a.txt" : str, "d/a" : str); ("d/b.txt" : str, "d/b" : str)].
Proof.
  split.
  - destruct (renames_are_a_prefix_of_the_plan ecma memfs demo_args long_world demo_re
                ("d" : str) [long_name; "d/a.txt" : str] eq_refl eq_refl eq_refl)
      as [(n & Hn) _].
    exists n. rewrite Hn. vm_compute. reflexivity.
  - destruct (renames_are_a_prefix_of_the_plan ecma memfs demo_args demo_world demo_re
                ("d" : str) demo_entries eq_refl eq_refl eq_refl) as [_ Hall].
    rewrite Hall; vm_compute; reflexivity.
Defined.

(** X8.  Lines 102-118 and 122-148.  Every rename a run calls has for
    source a path the enumeration found to be a regular file in the
    filesystem the run started with, and for destination the source with
    its filename replaced by the computed one, which differs from the
    source's filename; under [dry_run] there is none.  So no directory is
    ever renamed, and no entry whose name the substitution leaves alone. *)
Theorem renamed_paths_are_enumerated_files (E : Regex.Engine) (F : Fs.FileSystem)
        (args : arguments) (w : world F) re src dst :
  Regex.compile E (pattern args) = inr re ->
  In (src, dst) (renames_of (log (snd (main E F args w)))) ->
  In (src, dst) (renames_of (log w))
  \/ (dry_run args = false
      /\ Fs.is_regular_file F (fs w) src = inr true
      /\ exists out,
           Regex.regex_replace E re (Path.filename src) (replacement args) = inr out
           /\ out <> Path.filename src
           /\ dst = Path.replace_filename src out).
Proof.
  intros Hc. destruct (main_status E F args w) as [_ ->].
  assert (Hgate : forall events,
             renames_of events = [] ->
             In (src, dst) (renames_of (log (add w events))) ->
             In (src, dst) (renames_of (log w))).
  { intros events Hr. cbn [add log]. now rewrite renames_of_app, Hr, app_nil_r. }
  destruct (rename_cases E F args w)
    as [(e & _ & ->) | [(re' & e & _ & _ & ->) | [(re' & base & e & _ & _ & _ & ->)
       | (re' & base & entries & Hc' & _ & He & ->)]]]; cbn [snd].
  - intros Hin. left. now apply (Hgate (fatal_events (regex_what e))).
  - intros Hin. left. now apply (Hgate (fatal_events (fs_what e))).
  - intros Hin. left.
    now apply (Hgate (OpenDir (recursive args) base :: fatal_events (fs_what e))).
  - rewrite Hc in Hc'. injection Hc' as <-.
    destruct (loop_outcome E F args re (sort Path.compare entries)
                (add w [OpenDir (recursive args) base])) as [(n & Hn) _ _ _].
    rewrite renames_of_opened in Hn. rewrite Hn. intros Hin.
    apply in_app_or in Hin as [Hin|Hin]; [now left|]. right.
    apply firstn_incl in Hin. unfold plan_of in Hin.
    destruct (dry_run args); [destruct Hin|]. split; [reflexivity|].
    unfold planned in Hin. apply in_flat_map in Hin as (x & Hx & Hin).
    unfold destination, computed in Hin.
    destruct (Regex.regex_replace E re (Path.filename x) (replacement args))
      as [err|out] eqn:Hout; [destruct Hin|].
    destruct (str_eqb (Path.filename x) out) eqn:Hsame; [destruct Hin|].
    destruct Hin as [Hin|[]]. injection Hin as <- <-.
    split.
    + apply (enumerate_regular F (recursive args) base (fs w) entries x He).
      apply (Permutation_in x (Permutation_sym (sort_perm Path.compare entries)) Hx).
    + exists out. split; [exact Hout|]. split; [|reflexivity].
      apply str_eqb_neq in Hsame. congruence.
Qed.

Lemma renamed_paths_are_enumerated_files_witness :
  Fs.is_regular_file memfs demo_fs ("d/a.txt" : str) = inr true
  /\ exists out,
       Regex.regex_replace ecma demo_re "a.txt" "$1" = inr out
       /\ ("d/a" : str) = Path.replace_filename ("d/a.txt" : str) out.
Proof.
  destruct (renamed_paths_are_enumerated_files ecma memfs demo_args demo_world demo_re
              ("d/a.txt" : str) ("d/a" : str) eq_refl)
    as [Hin | (_ & Hreg & out & Hout & _ & Hdst)].
  - vm_compute. left. reflexivity.
  - destruct Hin.
  - split; [exact Hreg|]. exists out. split; [exact Hout | exact Hdst].
Defined.

(** X9.  Lines 81-164.  A run ends in one of three ways: exit status 0,
    exit status [EXIT_FAILURE], or termination by an exception nothing
    catches; the last only in a recursive run that is not quiet, where
    [std::filesystem::absolute] is called outside any [try]. *)
Theorem main_exit_status (E : Regex.Engine) (F : Fs.FileSystem)
        (args : arguments) (w : world F) :
  (fst (main E F args w) = Exited 0
   \/ fst (main E F args w) = Exited EXIT_FAILURE
   \/ fst (main E F args w) = Terminated)
  /\ (fst (main E F args w) = Terminated ->
      recursive args = true /\ quiet args = false).
Proof.
  destruct (main_status E F args w) as [-> _].
  destruct (rename_outcome E F args w) as ((whats & _ & Hexit) & Hunc & _).
  destruct (fst (rename E F args w)) as [[]|c|x].
  - split; [now left | discriminate].
  - destruct (Hexit c eq_refl) as [-> _]. split; [right; now left | discriminate].
  - split; [right; now right | intros _; exact (Hunc x eq_refl)].
Qed.

(** X10.  Lines 81-155.  The log accounts for the run.  However the run
    ends, the filesystem at the end is the initial one with the renames
    called applied in order, a failed one changing nothing.  When the run
    exits, what the program has written to [std::cerr] is one diagnostic
    line for each rename that failed, in order, followed by at most one
    line more, which is there exactly when the exit status is
    [EXIT_FAILURE].  Of a run that an uncaught exception terminates, where
    the runtime writes a message of its own, nothing is said about
    [std::cerr]. *)
Theorem run_is_accounted_for (E : Regex.Engine) (F : Fs.FileSystem)
        (args : arguments) (w : world F) :
  exists called,
    renames_of (log (snd (main E F args w))) = renames_of (log w) ++ called
    /\ fs (snd (main E F args w)) = fst (replay (fs w) called)
    /\ (forall status,
           fst (main E F args w) = Exited status ->
           exists fatal_whats,
             stderr_of (log (snd (main E F args w)))
             = stderr_of (log w)
               ++ diagnostics (map fs_what (snd (replay (fs w) called)) ++ fatal_whats)
             /\ List.length fatal_whats <= 1
             /\ (fatal_whats <> [] <-> status = EXIT_FAILURE)).
Proof.
  destruct (main_status E F args w) as [-> ->].
  destruct (rename_account E F args w) as (called & fw & [Hn Hf He Hx]).
  exists called. split; [exact Hn|]. split; [exact Hf|].
  intros status Hst. exists fw. split; [exact He|].
  destruct (fst (rename E F args w)) as [[]|c|x].
  - injection Hst as <-. subst fw. split; [simpl; lia|].
    split; [now intros H | discriminate].
  - injection Hst as <-. destruct Hx as [-> [what ->]]. split; [simpl; lia|].
    split; [reflexivity | discriminate].
  - discriminate Hst.
Qed.

(** [rename '(.)\.txt' '$1' d]: the rename of [d/a.txt] fails, [d/a]
    being a directory; the run exits with status 0 and the one line on
    [std::cerr] is the diagnostic of that failure. *)
Lemma run_is_accounted_for_witness :
  exists called,
    renames_of (log (snd (main ecma memfs demo_args demo_world))) = called
    /\ fs (snd (main ecma memfs demo_args demo_world))
       = fst (replay (demo_fs : Fs.state memfs) called)
    /\ stderr_of (log (snd (main ecma memfs demo_args demo_world)))
       = diagnostics (map fs_what (snd (replay (demo_fs : Fs.state memfs) called))).
Proof.
  destruct (run_is_accounted_for ecma memfs demo_args demo_world)
    as (called & Hren & Hfs & Hexit).
  destruct (Hexit 0 eq_refl) as (fw & Herr & _ & Hiff).
  exists called. split; [exact Hren|]. split; [exact Hfs|].
  destruct fw as [|what fw].
  - rewrite Herr, app_nil_r. reflexivity.
  - exfalso. assert (H01 : 0 = EXIT_FAILURE) by (apply Hiff; discriminate).
    discriminate H01.
Defined.

(** X11.  Lines 137-144.  A quiet run writes nothing to [std::cout] and
    is never terminated by an exception: it exits, with status 0 or
    [EXIT_FAILURE]. *)
Theorem quiet_run_is_silent (E : Regex.Engine) (F : Fs.FileSystem)
        (args : arguments) (w : world F) :
  quiet args = true ->
  stdout_of (log (snd (main E F args w))) = stdout_of (log w)
  /\ fst (main E F args w) <> Terminated.
Proof.
  intros Hq. destruct (main_status E F args w) as [-> ->].
  destruct (rename_outcome E F args w) as (_ & Hunc & Hout).
  split; [exact (Hout Hq)|].
  destruct (fst (rename E F args w)) as [[]|c|x]; try discriminate.
  destruct (Hunc x eq_refl) as [_ Hq']. congruence.
Qed.

Lemma quiet_run_is_silent_witness :
  stdout_of (log (snd (main ecma memfs (with_quiet lost_args true) lost_world))) = []
  /\ fst (main ecma memfs (with_quiet lost_args true) lost_world) <> Terminated.
Proof.
  exact (quiet_run_is_silent ecma memfs (with_quiet lost_args true) lost_world eq_refl).
Defined.



(** X13.  Lines 90-100 and 138-143.  When a path is given, and the run
    is not recursive or is quiet, [current_path()] is not called: what the
    run does is the same whatever [current_path()] would return, and
    whether or not it would throw.  The filesystem is taken as the process
    sees it, relative paths included; nothing is said of the same command
    run from another directory, where a relative path names other
    files. *)
Theorem current_path_is_not_called (E : Regex.Engine) (F : Fs.FileSystem)
        (args : arguments) (w : world F) p answer :
  path args = Some p ->
  recursive args = false \/ quiet args = true ->
  main E F args (with_current_path answer w)
  = (fst (main E F args w), with_current_path answer (snd (main E F args w))).
Proof.
  intros Hp Hcase. unfold main at 1.
  rewrite (rename_with_current_path E F args p answer w Hp Hcase).
  destruct (main_status E F args w) as [-> ->].
  now destruct (fst (rename E F args w)) as [[]|c|x].
Qed.

(** [rename -r -q foo bar ../b], where [current_path()] throws and where
    it returns [/home/u]. *)
Lemma current_path_is_not_called_witness :
  main ecma memfs (with_quiet lost_args true)
       (with_current_path (inr ("/home/u" : str)) lost_world)
  = (Exited 0,
     with_current_path (inr ("/home/u" : str))
              (snd (main ecma memfs (with_quiet lost_args true) lost_world))).
Proof.
  exact (current_path_is_not_called ecma memfs (with_quiet lost_args true)
           lost_world ("../b" : str) (inr ("/home/u" : str)) eq_refl
           (or_intror eq_refl)).
Defined.

(** X14.  Lines 123 and 134-135.  When the computed filename holds no
    directory separator, the destination has that filename, differs from
    the source, and putting the source's filename back on it gives the
    source again: the rename can be undone by name. *)
Theorem destination_can_be_renamed_back (E : Regex.Engine)
        (args : arguments) (re : Regex.regex E) (src dst out : Path.t) :
  destination E args re src = Some dst ->
  computed E args re src = inr out ->
  Path.has_sep out = false ->
  Path.filename dst = out
  /\ dst <> src
  /\ Path.replace_filename dst (Path.filename src) = src.
Proof.
  unfold destination. intros Hd Hc Hs. rewrite Hc in Hd.
  destruct (str_eqb (Path.filename src) out) eqn:Hne; [discriminate|].
  injection Hd as <-. apply str_eqb_neq in Hne.
  destruct (Path.replace_filename_no_sep src out Hs) as (_ & Hdir & Hname).
  split; [exact Hname|]. split.
  - intros Heq. rewrite Heq in Hname. congruence.
  - destruct (Path.replace_filename_no_sep (Path.replace_filename src out)
                (Path.filename src) (Path.filename_no_sep src)) as (-> & _ & _).
    rewrite Hdir. apply Path.split_app.
Qed.

Lemma destination_can_be_renamed_back_witness :
  Path.filename ("d/a" : str) = ("a" : str)
  /\ ("d/a" : str) <> ("d/a.txt" : str)
  /\ Path.replace_filename ("d/a" : str) (Path.filename ("d/a.txt" : str))
     = ("d/a.txt" : str).
Proof.
  exact (destination_can_be_renamed_back ecma demo_args demo_re
           ("d/a.txt" : str) ("d/a" : str) ("a" : str) eq_refl eq_refl eq_refl).
Defined.

(** X15.  Lines 108-114.  The files a run renames are among the entries
    of the iterator the flag selects, over the base path and on the
    filesystem the run started with: those
    [recursive_directory_iterator] yields when [recursive] is set, those
    [directory_iterator] yields otherwise. *)
Theorem renamed_files_come_from_the_selected_iterator
        (E : Regex.Engine) (F : Fs.FileSystem)
        (args : arguments) (w : world F) src dst :
  In (src, dst) (renames_of (log (snd (main E F args w)))) ->
  In (src, dst) (renames_of (log w))
  \/ exists base it,
       base_path F args w = inr base
       /\ (if recursive args
           then Fs.recursive_directory_iterator F (fs w) base
           else Fs.directory_iterator F (fs w) base) = inr it
       /\ In src it.
Proof.
  destruct (main_status E F args w) as [_ ->].
  assert (Hgate : forall events,
             renames_of events = [] ->
             In (src, dst) (renames_of (log (add w events))) ->
             In (src, dst) (renames_of (log w))).
  { intros events Hr. cbn [add log]. now rewrite renames_of_app, Hr, app_nil_r. }
  destruct (rename_cases E F args w)
    as [(e & _ & ->) | [(re & e & _ & _ & ->) | [(re & base & e & _ & _ & _ & ->)
       | (re & base & entries & _ & Hb & He & ->)]]]; cbn [snd].
  - intros Hin. left. now apply (Hgate (fatal_events (regex_what e))).
  - intros Hin. left. now apply (Hgate (fatal_events (fs_what e))).
  - intros Hin. left.
    now apply (Hgate (OpenDir (recursive args) base :: fatal_events (fs_what e))).
  - destruct (loop_outcome E F args re (sort Path.compare entries)
                (add w [OpenDir (recursive args) base])) as [(n & Hn) _ _ _].
    rewrite renames_of_opened in Hn. rewrite Hn. intros Hin.
    apply in_app_or in Hin as [Hin|Hin]; [now left|]. right.
    apply firstn_incl in Hin. unfold plan_of in Hin.
    destruct (dry_run args); [destruct Hin|].
    unfold planned in Hin. apply in_flat_map in Hin as (x & Hx & Hin).
    destruct (destination E args re x) as [d|]; [|destruct Hin].
    destruct Hin as [Hin|[]]. injection Hin as <- <-.
    apply (Permutation_in x (Permutation_sym (sort_perm Path.compare entries))) in Hx.
    unfold enumerate in He.
    destruct (if recursive args
              then Fs.recursive_directory_iterator F (fs w) base
              else Fs.directory_iterator F (fs w) base) as [e|it] eqn:Hit;
      [discriminate He|].
    exists base, it. split; [exact Hb|]. split; [exact Hit|].
    pose proof (files_transform_cases F (fs w) it) as Ht. rewrite He in Ht.
    destruct Ht as [-> _]. now apply filter_In in Hx as [Hx _].
Qed.

(** [rename -r txt md d]: [d/a/c.txt], which is renamed, is an entry of
    the recursive iteration of [d]. *)
Lemma renamed_files_come_from_the_selected_iterator_witness :
  exists it,
    Fs.recursive_directory_iterator memfs deep_fs ("d" : str) = inr it
    /\ In ("d/a/c.txt" : str) it.
Proof.
  destruct (renamed_files_come_from_the_selected_iterator ecma memfs deep_args
              deep_world ("d/a/c.txt" : str) ("d/a/c.md" : str))
    as [Hin | (base & it & Hb & Hit & Hin)].
  - vm_compute. left. reflexivity.
  - destruct Hin.
  - injection Hb as <-. exists it. split; [exact Hit | exact Hin].
Defined.

(** ** Runs that rename nothing *)

(** The filesystem a run leaves is the one its renames lead to. *)
Lemma main_fs_by_renames (E : Regex.Engine) (F : Fs.FileSystem)
      (args : arguments) (w : world F) :
  exists called,
    renames_of (log (snd (main E F args w))) = renames_of (log w) ++ called
    /\ fs (snd (main E F args w)) = fst (replay (fs w) called).
Proof.
  destruct (main_status E F args w) as [_ ->].
  destruct (rename_account E F args w) as (called & fw & [Hn Hf _ _]).
  now exists called.
Qed.

Lemma loop_of_unchanged_entries (E : Regex.Engine) (F : Fs.FileSystem)
      (args : arguments) re entries (w : world F) :
  Forall (fun e => computed E args re e = inr (Path.filename e)) entries ->
  for_each F entries (process_entry E F args re) w = (Normal tt, w).
Proof.
  induction 1 as [|e entries He _ IH]; [reflexivity|].
  cbn [for_each]. unfold bind.
  now rewrite (process_entry_unchanged E F args re e w He).
Qed.

(** The text between [first] and [second], then the text from [second]
    on, is the text from [first] on. *)
Lemma substr_skipn (s : str) first second :
  first <= second ->
  Regex.substr s first second ++ skipn second s = skipn first s.
Proof.
  intros Hle. unfold Regex.substr.
  replace second with ((second - first) + first) at 2 by lia.
  rewrite <- skipn_skipn. apply firstn_skipn.
Qed.

(** With the template [$&] every match is replaced by itself. *)
Lemma splice_identity (E : Regex.Engine) (s : str) : forall its from,
  Regex.non_overlapping s from its ->
  Regex.splice s "$&" from its = skipn from s.
Proof.
  induction its as [|it its IH]; intros from Hno; [reflexivity|].
  destruct Hno as (_ & H1 & H2 & Hrest).
  cbn [Regex.splice]. rewrite (IH _ Hrest).
  change (Regex.format s (Regex.it_match it) from "$&")
    with (Regex.substr s (Regex.m_first (Regex.it_match it))
                       (Regex.m_second (Regex.it_match it)) ++ []).
  rewrite app_nil_r, (substr_skipn s _ _ H2). now apply substr_skipn.
Qed.

Lemma planned_nothing (E : Regex.Engine) (args : arguments) re entries :
  (forall e, In e entries -> destination E args re e = None) ->
  planned E args re entries = [].
Proof.
  unfold planned. induction entries as [|x l IH]; intros H; [reflexivity|].
  cbn [flat_map]. rewrite (H x (or_introl eq_refl)), IH; [reflexivity|].
  intros e He. apply H. now right.
Qed.

(** [rename '(.)\.txt' '$1' -r ../b] *)
Definition lost_args_no_match : arguments :=
  {| pattern := "(.)\.txt"; replacement := "$1"; path := Some ("../b" : str);
     dry_run := false; recursive := true; quiet := false |}.

(** [rename '(.)\.txt' '$&' d] *)
Definition demo_args_identity : arguments :=
  {| pattern := "(.)\.txt"; replacement := "$&"; path := Some ("d" : str);
     dry_run := false; recursive := false; quiet := false |}.

(** X16.  Lines 122-133.  When the pattern matches in no filename of the
    entries, the run does nothing after the enumeration and exits with
    status 0, whatever the flags are and whether or not the working
    directory can be named: nothing is written, nothing renamed. *)
Theorem run_without_a_match_does_nothing (E : Regex.Engine) (F : Fs.FileSystem)
        (args : arguments) (w : world F) re base entries :
  Regex.compile E (pattern args) = inr re ->
  base_path F args w = inr base ->
  enumerate F (recursive args) base (fs w) = inr entries ->
  Forall (fun e => Regex.search E re Regex.match_default (Path.filename e) 0 = inr None)
         entries ->
  main E F args w = (Exited 0, add w [OpenDir (recursive args) base]).
Proof.
  intros Hc Hb He Hnone. unfold main.
  rewrite (rename_reaches_loop E F args w re base entries Hc Hb He).
  rewrite loop_of_unchanged_entries; [reflexivity|].
  apply Forall_forall. intros e Hin.
  apply Regex.regex_replace_no_match.
  apply (proj1 (Forall_forall _ _) Hnone).
  apply (Permutation_in e (Permutation_sym (sort_perm Path.compare entries)) Hin).
Qed.

Lemma run_without_a_match_does_nothing_witness :
  main ecma memfs lost_args_no_match lost_world
  = (Exited 0, add lost_world [OpenDir true ("../b" : str)]).
Proof.
  apply (run_without_a_match_does_nothing ecma memfs lost_args_no_match lost_world
           demo_re ("../b" : str) ["../b/foo" : str] eq_refl eq_refl eq_refl).
  constructor; [vm_compute; reflexivity | constructor].
Defined.

(** X17.  Lines 123-133.  With the replacement [$&], which stands for the
    matched text, the computed filename is the filename whenever the
    substitution returns, so no entry has a destination: the run calls no
    rename and leaves the filesystem as it was, whatever the pattern
    matches. *)
Theorem identity_template_renames_nothing (E : Regex.Engine) (F : Fs.FileSystem)
        (args : arguments) (w : world F) :
  replacement args = ("$&" : str) ->
  (forall re e, destination E args re e = None)
  /\ renames_of (log (snd (main E F args w))) = renames_of (log w)
  /\ fs (snd (main E F args w)) = fs w.
Proof.
  intros Hfmt.
  assert (Hdest : forall re e, destination E args re e = None).
  { intros re e. unfold destination, computed. rewrite Hfmt.
    pose proof (Regex.regex_replace_splice E re (Path.filename e) "$&") as H.
    destruct (Regex.regex_replace E re (Path.filename e) "$&") as [err|out];
      [reflexivity|].
    destruct H as (its & _ & Hno & ->).
    rewrite (splice_identity E _ its 0 Hno). cbn [skipn]. now rewrite str_eqb_refl. }
  split; [exact Hdest|].
  assert (Hren : renames_of (log (snd (main E F args w))) = renames_of (log w)).
  { destruct (main_status E F args w) as [_ ->].
    destruct (rename_cases E F args w)
      as [(e & _ & ->) | [(re & e & _ & _ & ->) | [(re & base & e & _ & _ & _ & ->)
         | (re & base & entries & _ & _ & _ & ->)]]]; cbn [snd].
    - cbn [add log]. rewrite renames_of_app. apply app_nil_r.
    - cbn [add log]. rewrite renames_of_app. apply app_nil_r.
    - cbn [add log]. rewrite renames_of_app. apply app_nil_r.
    - destruct (loop_outcome E F args re (sort Path.compare entries)
                  (add w [OpenDir (recursive args) base])) as [(n & Hn) _ _ _].
      rewrite Hn, renames_of_opened.
      assert (Hplan : plan_of E args re (sort Path.compare entries) = []).
      { unfold plan_of. destruct (dry_run args); [reflexivity|].
        apply planned_nothing. intros x _. apply Hdest. }
      rewrite Hplan, firstn_nil. apply app_nil_r. }
  split; [exact Hren|].
  destruct (main_fs_by_renames E F args w) as (called & Hn & Hfs).
  rewrite Hfs. rewrite Hren in Hn.
  assert (called = []) as ->; [|reflexivity].
  apply (app_inv_head (renames_of (log w))). now rewrite app_nil_r.
Qed.

Lemma identity_template_renames_nothing_witness :
  renames_of (log (snd (main ecma memfs demo_args_identity demo_world))) = []
  /\ fs (snd (main ecma memfs demo_args_identity demo_world)) = demo_fs.
Proof.
  exact (proj2 (identity_template_renames_nothing ecma memfs demo_args_identity
                  demo_world eq_refl)).
Defined.
